(** * Technical-analysis and prediction-backtesting engine of invest-platform

    A shallow embedding of
      - backend/src/utils/technicalIndicators.ts        (indicator library),
      - backend/src/services/technicalIndicators.service.ts (indicator pipeline),
      - backend/src/jobs/predictionValidation.job.ts    (prediction validator),
      - backend/src/services/tradingSimulator.service.ts (trading simulator),
    together with the properties the specification states about them.

    Numbers.  A JavaScript [number] is idealised as an exact rational, extended
    with the three special values the code can produce and test for: [NaN],
    [+Infinity] and [-Infinity].  Rounding of IEEE doubles is not modelled;
    [-0] is identified with [0] (every zero divisor met in this code is a
    [+0]).  Numeric equality of two model values is [~=], which is [Qeq] on
    finite values. *)

From Stdlib Require Import ZArith QArith Qround Qabs Lqa Lia List String.
From stdpp Require Import base option list sorting gmap strings.

Local Open Scope Q_scope.

(* ===================================================================== *)
(** ** JavaScript numbers *)
(* ===================================================================== *)

Inductive number : Type :=
  | NaN
  | PInf
  | NInf
  | Fin (q : Q).

Definition ofZ (z : Z) : number := Fin (inject_Z z).

(** Unary minus. *)
Definition nneg (x : number) : number :=
  match x with
  | NaN => NaN
  | PInf => NInf
  | NInf => PInf
  | Fin q => Fin (- q)
  end.

(** [x + y]. *)
Definition nadd (x y : number) : number :=
  match x, y with
  | NaN, _ | _, NaN => NaN
  | PInf, NInf | NInf, PInf => NaN
  | PInf, _ | _, PInf => PInf
  | NInf, _ | _, NInf => NInf
  | Fin a, Fin b => Fin (a + b)
  end.

(** [x - y]. *)
Definition nsub (x y : number) : number := nadd x (nneg y).

(** An infinity multiplied (or divided) by a finite value of sign [c]. *)
Definition scale_inf (i : number) (c : comparison) : number :=
  match c with
  | Eq => NaN
  | Gt => i
  | Lt => nneg i
  end.

(** [x * y]. *)
Definition nmul (x y : number) : number :=
  match x, y with
  | NaN, _ | _, NaN => NaN
  | Fin a, Fin b => Fin (a * b)
  | Fin a, i | i, Fin a => scale_inf i (a ?= 0)
  | PInf, PInf | NInf, NInf => PInf
  | PInf, NInf | NInf, PInf => NInf
  end.

(** [x / y].  A finite zero divisor is a positive zero: a positive dividend
    gives [+Infinity], a negative one [-Infinity], and [0 / 0] is [NaN]. *)
Definition ndiv (x y : number) : number :=
  match x, y with
  | NaN, _ | _, NaN => NaN
  | Fin a, Fin b =>
      if Qeq_bool b 0 then
        match a ?= 0 with
        | Eq => NaN
        | Gt => PInf
        | Lt => NInf
        end
      else Fin (a / b)
  | Fin _, _ => Fin 0
  | i, Fin b => match b ?= 0 with Lt => nneg i | _ => i end
  | _, _ => NaN
  end.

(** [x < y]; every comparison with [NaN] is false. *)
Definition nlt (x y : number) : bool :=
  match x, y with
  | NaN, _ | _, NaN => false
  | _, NInf | PInf, _ => false
  | NInf, _ | _, PInf => true
  | Fin a, Fin b => match a ?= b with Lt => true | _ => false end
  end.

(** [x > y]. *)
Definition ngt (x y : number) : bool := nlt y x.

(** [x === y] on numbers. *)
Definition nseq (x y : number) : bool :=
  match x, y with
  | PInf, PInf | NInf, NInf => true
  | Fin a, Fin b => Qeq_bool a b
  | _, _ => false
  end.

(** [x >= y]. *)
Definition nge (x y : number) : bool := nlt y x || nseq x y.

(** [isNaN(x)]. *)
Definition isNaN (x : number) : bool :=
  match x with NaN => true | _ => false end.

(** Truthiness of a number: [0] and [NaN] are falsy. *)
Definition truthy (x : number) : bool :=
  match x with
  | NaN => false
  | Fin q => negb (Qeq_bool q 0)
  | _ => true
  end.

(** [Math.abs]. *)
Definition nabs (x : number) : number :=
  match x with
  | NaN => NaN
  | PInf | NInf => PInf
  | Fin q => Fin (Qabs q)
  end.

(** [Math.max] and [Math.min] of two arguments: [NaN] if either is. *)
Definition nmax (x y : number) : number :=
  match x, y with
  | NaN, _ | _, NaN => NaN
  | _, _ => if nlt x y then y else x
  end.

Definition nmin (x y : number) : number :=
  match x, y with
  | NaN, _ | _, NaN => NaN
  | _, _ => if nlt y x then y else x
  end.

(** [Math.max(...xs)] and [Math.min(...xs)]. *)
Definition Math_max (xs : list number) : number := foldl nmax NInf xs.
Definition Math_min (xs : list number) : number := foldl nmin PInf xs.

(** [parseFloat(x.toFixed(d))]: the nearest multiple of [10^-d], ties away
    from zero; values of magnitude [1e21] and above, the infinities and [NaN]
    come back unchanged. *)
Definition round_half_away (q : Q) (d : Z) : Q :=
  let s := inject_Z (10 ^ d) in
  if Qle_bool 0 q then inject_Z (Qfloor (q * s + (1 # 2))) / s
  else - (inject_Z (Qfloor ((- q) * s + (1 # 2))) / s).

Definition toFixed (d : Z) (x : number) : number :=
  match x with
  | Fin q =>
      if Qle_bool (inject_Z (10 ^ 21)) (Qabs q) then Fin q
      else Fin (round_half_away q d)
  | _ => x
  end.

(** Numeric equality of model values. *)
Definition num_eq (x y : number) : Prop :=
  match x, y with
  | NaN, NaN | PInf, PInf | NInf, NInf => True
  | Fin a, Fin b => a == b
  | _, _ => False
  end.

Infix "~=" := num_eq (at level 70, no associativity).

Definition is_finite (x : number) : Prop :=
  match x with Fin _ => True | _ => False end.

(** A value is defined when it is not the [NaN] marker. *)
Definition defined (x : number) : Prop := isNaN x = false.

(* ===================================================================== *)
(** ** Arrays and loops *)
(* ===================================================================== *)

(** [a[i]] read as a number: outside the array the read gives [undefined],
    which [isNaN] and arithmetic treat as [NaN]. *)
Definition get (a : list number) (i : nat) : number := nth i a NaN.

(** [a.push(x)]. *)
Definition push {A} (a : list A) (x : A) : list A := a ++ [x].

(** [a.slice(s, e)], with the negative and out-of-range bounds of JavaScript. *)
Definition slice {A} (a : list A) (s e : Z) : list A :=
  let len := Z.of_nat (length a) in
  let k := if (s <? 0)%Z then Z.max (len + s) 0 else Z.min s len in
  let f := if (e <? 0)%Z then Z.max (len + e) 0 else Z.min e len in
  take (Z.to_nat (f - k)) (drop (Z.to_nat k) a).

(** [a.reduce((x, y) => x + y, 0)]. *)
Definition sum (a : list number) : number := foldl nadd (Fin 0) a.

(** [for (let i = 0; i < n; i++) body]. *)
Definition for_loop {S} (n : nat) (body : nat → S → S) (s : S) : S :=
  foldl (fun s i => body i s) s (seq 0 n).

(** [new Array(n).fill(NaN)]. *)
Definition fill_NaN (n : Z) : list number := replicate (Z.to_nat n) NaN.

(** [a.filter(v => !isNaN(v))]. *)
Definition filter_defined (a : list number) : list number :=
  List.filter (fun v => negb (isNaN v)) a.

(* ===================================================================== *)
(** ** Optional values and the square root *)
(* ===================================================================== *)

(** [isNaN(x) ? undefined : x], the optional field of a result record. *)
Definition optional (x : number) : option number :=
  if isNaN x then None else Some x.

(** [Math.sqrt].  Its value on a non-negative rational is irrational in
    general, so the function on finite arguments is a parameter [sqrtQ]; the
    special cases are those of JavaScript. *)
Definition Math_sqrt (sqrtQ : Q → Q) (x : number) : number :=
  match x with
  | NaN | NInf => NaN
  | PInf => PInf
  | Fin q => match q ?= 0 with Lt => NaN | _ => Fin (sqrtQ q) end
  end.

(* ===================================================================== *)
(** ** Indicator library (technicalIndicators.ts) *)
(* ===================================================================== *)

Module PriceData.
Record t : Type := mk {
  date : Z;
  open : number;
  high : number;
  low : number;
  close : number;
  volume : number
}.
End PriceData.

Module IndicatorResult.
Record t : Type := mk {
  date : Z;
  rsi14 : option number;
  macd : option number;
  macdSignal : option number;
  macdHistogram : option number;
  sma20 : option number;
  sma50 : option number;
  sma200 : option number;
  ema12 : option number;
  ema26 : option number;
  bollingerUpper : option number;
  bollingerMiddle : option number;
  bollingerLower : option number;
  stochasticK : option number;
  stochasticD : option number;
  atr14 : option number;
  adx14 : option number
}.
End IndicatorResult.

Module TechnicalIndicators.

(** Simple moving average. *)
Definition calculateSMA (prices : list number) (period : Z) : list number :=
  for_loop (length prices) (fun i sma =>
    if (Z.of_nat i <? period - 1)%Z then push sma NaN
    else
      let s := sum (slice prices (Z.of_nat i - period + 1) (Z.of_nat i + 1)) in
      push sma (ndiv s (ofZ period))) [].

(** Exponential moving average, seeded with the mean of the first [period]
    prices.  At [i = 0] the read [ema[i - 1]] is outside the (empty) array. *)
Definition calculateEMA (prices : list number) (period : Z) : list number :=
  let multiplier := ndiv (Fin 2) (ofZ (period + 1)) in
  let s := for_loop (Z.to_nat period) (fun i s =>
             if (i <? length prices)%nat then nadd s (get prices i) else s) (Fin 0) in
  let firstEMA := ndiv s (ofZ period) in
  for_loop (length prices) (fun i ema =>
    if (Z.of_nat i <? period - 1)%Z then push ema NaN
    else if (Z.of_nat i =? period - 1)%Z then push ema firstEMA
    else
      let value :=
        nadd (nmul (nsub (get prices i) (get ema (i - 1))) multiplier)
             (get ema (i - 1)) in
      push ema value) [].

(** The loop state of [calculateRSI]. *)
Record RSIState : Type := mkRSI {
  rsi : list number;
  gains : list number;
  losses : list number;
  avgGain : number;
  avgLoss : number
}.

(** The RSI of a pair of averages (the block both branches of the loop
    repeat). *)
Definition rsi_of (avgGain avgLoss : number) : number :=
  if nseq avgLoss (Fin 0) then
    (if nseq avgGain (Fin 0) then Fin 50 else Fin 100)
  else
    let rs := ndiv avgGain avgLoss in
    nsub (Fin 100) (ndiv (Fin 100) (nadd (Fin 1) rs)).

Definition rsi_step (prices : list number) (period : Z) (i : nat)
    (st : RSIState) : RSIState :=
  if (i =? 0)%nat then
    mkRSI (push (rsi st) NaN) (push (gains st) (Fin 0)) (push (losses st) (Fin 0))
          (avgGain st) (avgLoss st)
  else
    let change := nsub (get prices i) (get prices (i - 1)) in
    let gains' := push (gains st) (if ngt change (Fin 0) then change else Fin 0) in
    let losses' := push (losses st) (if nlt change (Fin 0) then nneg change else Fin 0) in
    if (Z.of_nat i <? period)%Z then
      mkRSI (push (rsi st) NaN) gains' losses' (avgGain st) (avgLoss st)
    else if (Z.of_nat i =? period)%Z then
      let avgGain' := ndiv (sum (slice gains' 1 (period + 1))) (ofZ period) in
      let avgLoss' := ndiv (sum (slice losses' 1 (period + 1))) (ofZ period) in
      mkRSI (push (rsi st) (rsi_of avgGain' avgLoss')) gains' losses' avgGain' avgLoss'
    else
      let avgGain' :=
        ndiv (nadd (nmul (avgGain st) (ofZ (period - 1))) (get gains' i)) (ofZ period) in
      let avgLoss' :=
        ndiv (nadd (nmul (avgLoss st) (ofZ (period - 1))) (get losses' i)) (ofZ period) in
      mkRSI (push (rsi st) (rsi_of avgGain' avgLoss')) gains' losses' avgGain' avgLoss'.

(** Relative strength index with Wilder's smoothing. *)
Definition calculateRSI (prices : list number) (period : Z) : list number :=
  rsi (for_loop (length prices) (rsi_step prices period)
         (mkRSI [] [] [] (Fin 0) (Fin 0))).

(** The three arrays [calculateMACD] returns. *)
Record MACD : Type := mkMACD {
  macd : list number;
  signal : list number;
  histogram : list number
}.

Definition calculateMACD (prices : list number)
    (fastPeriod slowPeriod signalPeriod : Z) : MACD :=
  let ema12 := calculateEMA prices fastPeriod in
  let ema26 := calculateEMA prices slowPeriod in
  let macd := for_loop (length prices) (fun i macd =>
    if isNaN (get ema12 i) || isNaN (get ema26 i) then push macd NaN
    else push macd (nsub (get ema12 i) (get ema26 i))) [] in
  let signal := calculateEMA (filter_defined macd) signalPeriod in
  let paddedSignal :=
    fill_NaN (Z.of_nat (length macd) - Z.of_nat (length signal)) ++ signal in
  let histogram := imap (fun i m =>
    if isNaN m || isNaN (get paddedSignal i) then NaN
    else nsub m (get paddedSignal i)) macd in
  mkMACD macd paddedSignal histogram.

(** The three bands [calculateBollingerBands] returns. *)
Record Bollinger : Type := mkBollinger {
  upper : list number;
  middle : list number;
  lower : list number
}.

Definition calculateBollingerBands (sqrtQ : Q → Q) (prices : list number)
    (period : Z) (stdDev : number) : Bollinger :=
  let middle := calculateSMA prices period in
  let bands := for_loop (length prices) (fun i '(upper, lower) =>
    if (Z.of_nat i <? period - 1)%Z then (push upper NaN, push lower NaN)
    else
      let slice := slice prices (Z.of_nat i - period + 1) (Z.of_nat i + 1) in
      let mean := get middle i in
      let variance :=
        ndiv (foldl (fun sum price =>
                       nadd sum (nmul (nsub price mean) (nsub price mean)))
                    (Fin 0) slice)
             (ofZ period) in
      let sd := Math_sqrt sqrtQ variance in
      (push upper (nadd mean (nmul stdDev sd)),
       push lower (nsub mean (nmul stdDev sd)))) ([], []) in
  mkBollinger (fst bands) middle (snd bands).

(** The two lines [calculateStochastic] returns. *)
Record Stochastic : Type := mkStochastic {
  k : list number;
  d : list number
}.

Definition calculateStochastic (highs lows closes : list number)
    (period smoothK : Z) : Stochastic :=
  let k := for_loop (length closes) (fun i k =>
    if (Z.of_nat i <? period - 1)%Z then push k NaN
    else
      let highsSlice := slice highs (Z.of_nat i - period + 1) (Z.of_nat i + 1) in
      let lowsSlice := slice lows (Z.of_nat i - period + 1) (Z.of_nat i + 1) in
      let highestHigh := Math_max highsSlice in
      let lowestLow := Math_min lowsSlice in
      let currentClose := get closes i in
      let stochValue :=
        if nseq lowestLow highestHigh then Fin 50
        else nmul (ndiv (nsub currentClose lowestLow) (nsub highestHigh lowestLow))
                  (Fin 100) in
      push k stochValue) [] in
  let smoothedK := calculateSMA (filter_defined k) smoothK in
  let paddedK :=
    fill_NaN (Z.of_nat (length k) - Z.of_nat (length smoothedK)) ++ smoothedK in
  let d := calculateSMA (filter_defined paddedK) 3 in
  let paddedD :=
    fill_NaN (Z.of_nat (length paddedK) - Z.of_nat (length d)) ++ d in
  mkStochastic paddedK paddedD.

(** The true range of day [i] (shared by ATR and ADX, which both spell it
    out). *)
Definition trueRange (highs lows closes : list number) (i : nat) : number :=
  if (i =? 0)%nat then nsub (get highs i) (get lows i)
  else
    let tr1 := nsub (get highs i) (get lows i) in
    let tr2 := nabs (nsub (get highs i) (get closes (i - 1))) in
    let tr3 := nabs (nsub (get lows i) (get closes (i - 1))) in
    Math_max [tr1; tr2; tr3].

(** Average true range. *)
Definition calculateATR (highs lows closes : list number) (period : Z)
    : list number :=
  let trueRanges := for_loop (length closes) (fun i trueRanges =>
    push trueRanges (trueRange highs lows closes i)) [] in
  calculateEMA trueRanges period.

(** The loop state of [calculateADX]. *)
Record ADXState : Type := mkADX {
  adx : list number;
  plusDM : list number;
  minusDM : list number;
  tr : list number
}.

Definition adx_step (highs lows closes : list number) (period : Z) (i : nat)
    (st : ADXState) : ADXState :=
  if (i =? 0)%nat then
    mkADX (push (adx st) NaN) (push (plusDM st) (Fin 0)) (push (minusDM st) (Fin 0))
          (push (tr st) (trueRange highs lows closes i))
  else
    let highDiff := nsub (get highs i) (get highs (i - 1)) in
    let lowDiff := nsub (get lows (i - 1)) (get lows i) in
    let plusDM' := push (plusDM st)
      (if ngt highDiff lowDiff && ngt highDiff (Fin 0) then highDiff else Fin 0) in
    let minusDM' := push (minusDM st)
      (if ngt lowDiff highDiff && ngt lowDiff (Fin 0) then lowDiff else Fin 0) in
    let tr' := push (tr st) (trueRange highs lows closes i) in
    if (Z.of_nat i <? period * 2)%Z then
      mkADX (push (adx st) NaN) plusDM' minusDM' tr'
    else
      let window (a : list number) :=
        slice a (Z.of_nat i - period + 1) (Z.of_nat i + 1) in
      let avgPlusDM := ndiv (sum (window plusDM')) (ofZ period) in
      let avgMinusDM := ndiv (sum (window minusDM')) (ofZ period) in
      let avgTR := ndiv (sum (window tr')) (ofZ period) in
      let plusDI :=
        if nseq avgTR (Fin 0) then Fin 0 else nmul (ndiv avgPlusDM avgTR) (Fin 100) in
      let minusDI :=
        if nseq avgTR (Fin 0) then Fin 0 else nmul (ndiv avgMinusDM avgTR) (Fin 100) in
      let dx :=
        if nseq (nadd plusDI minusDI) (Fin 0) then Fin 0
        else nmul (ndiv (nabs (nsub plusDI minusDI)) (nadd plusDI minusDI)) (Fin 100) in
      mkADX (push (adx st) dx) plusDM' minusDM' tr'.

(** Average directional index (the per-step DX of the simplified method). *)
Definition calculateADX (highs lows closes : list number) (period : Z)
    : list number :=
  adx (for_loop (length closes) (adx_step highs lows closes period)
         (mkADX [] [] [] [])).

(** All indicators of a price series, zipped by index. *)
Definition calculateAllIndicators (sqrtQ : Q → Q) (priceData : list PriceData.t)
    : list IndicatorResult.t :=
  let closes := map PriceData.close priceData in
  let highs := map PriceData.high priceData in
  let lows := map PriceData.low priceData in
  let rsi14 := calculateRSI closes 14 in
  let macdData := calculateMACD closes 12 26 9 in
  let sma20 := calculateSMA closes 20 in
  let sma50 := calculateSMA closes 50 in
  let sma200 := calculateSMA closes 200 in
  let ema12 := calculateEMA closes 12 in
  let ema26 := calculateEMA closes 26 in
  let bollinger := calculateBollingerBands sqrtQ closes 20 (Fin 2) in
  let stochastic := calculateStochastic highs lows closes 14 3 in
  let atr14 := calculateATR highs lows closes 14 in
  let adx14 := calculateADX highs lows closes 14 in
  imap (fun i data =>
    IndicatorResult.mk
      (PriceData.date data)
      (optional (get rsi14 i))
      (optional (get (macd macdData) i))
      (optional (get (signal macdData) i))
      (optional (get (histogram macdData) i))
      (optional (get sma20 i))
      (optional (get sma50 i))
      (optional (get sma200 i))
      (optional (get ema12 i))
      (optional (get ema26 i))
      (optional (get (upper bollinger) i))
      (optional (get (middle bollinger) i))
      (optional (get (lower bollinger) i))
      (optional (get (k stochastic) i))
      (optional (get (d stochastic) i))
      (optional (get atr14 i))
      (optional (get adx14 i))) priceData.

End TechnicalIndicators.

(* ===================================================================== *)
(** ** The data store *)
(* ===================================================================== *)

(** Dates are instants in milliseconds; the server clock runs in UTC. *)
Definition msPerDay : Z := 86400000.

(** [d.setHours(0, 0, 0, 0)]. *)
Definition startOfDay (d : Z) : Z := (d - d mod msPerDay)%Z.

Module Company.
Record t : Type := mk {
  id : Z;
  ticker : string;
  name : string
}.
End Company.

Module StockPrice.
Record t : Type := mk {
  companyId : Z;
  date : Z;
  open : Q;
  high : Q;
  low : Q;
  close : Q;
  volume : Q
}.
End StockPrice.

(** A row of the prediction table, with the company it was loaded with
    ([include: { company: true }]).  The last seven fields are the validator's
    enrichment; they are null until the prediction is resolved.  Numeric
    columns are read as JavaScript numbers (the validator subtracts two
    [close] columns directly), nullable ones as a number or null. *)
Module Prediction.
Record t : Type := mk {
  companyId : Z;
  company : Company.t;
  predictionDate : Z;
  targetDate : Z;
  predictedDirection : string;
  predictedPrice : option Q;
  predictedChangePercent : option Q;
  confidence : Q;
  actualDirection : option string;
  actualPrice : option number;
  actualChangePercent : option number;
  isCorrect : option bool;
  confidenceWeightedScore : option number;
  priceErrorPercent : option number;
  tradingReturn : option number
}.
End Prediction.

(** The tables the engine reads and writes: stock prices, predictions keyed
    by id, and indicator snapshots keyed by [(companyId, date)]. *)
Record Database : Type := mkDatabase {
  company : list Company.t;
  stockPrice : list StockPrice.t;
  prediction : gmap Z Prediction.t;
  technicalIndicator : gmap (Z * Z) IndicatorResult.t
}.

(** Ordering rows by an integer or a rational key; rows with equal keys come
    in the order the sort leaves them (the store promises none). *)
Definition key_le {A} (key : A → Z) (a b : A) : Prop := (key a ≤ key b)%Z.

#[global] Instance key_le_dec {A} (key : A → Z) : RelDecision (key_le key) :=
  fun a b => Z_le_dec (key a) (key b).

Definition qkey_le {A} (key : A → Q) (a b : A) : Prop := key a <= key b.

#[global] Instance qkey_le_dec {A} (key : A → Q) : RelDecision (qkey_le key) :=
  fun a b => match Qlt_le_dec (key b) (key a) with
             | left H => right (Qlt_not_le _ _ H)
             | right H => left H
             end.

Definition orderBy_asc {A} (key : A → Z) (l : list A) : list A :=
  merge_sort (key_le key) l.

Definition orderBy_desc {A} (key : A → Z) (l : list A) : list A :=
  merge_sort (key_le (fun a => (- key a)%Z)) l.

Definition orderBy_desc_Q {A} (key : A → Q) (l : list A) : list A :=
  merge_sort (qkey_le (fun a => - key a)) l.

(** [orderBy: { date: 'asc' }] and [orderBy: { date: 'desc' }]. *)
Definition by_date_asc (l : list StockPrice.t) : list StockPrice.t :=
  orderBy_asc StockPrice.date l.

Definition by_date_desc (l : list StockPrice.t) : list StockPrice.t :=
  orderBy_desc StockPrice.date l.

(** [Number(x)] of a nullable column: [Number(null)] is [0]. *)
Definition Number (x : option number) : number := default (Fin 0) x.

(** [x || y] on numbers. *)
Definition or_else (x y : number) : number := if truthy x then x else y.

(* ===================================================================== *)
(** ** Indicator pipeline (technicalIndicators.service.ts) *)
(* ===================================================================== *)

Module TechnicalIndicatorsService.

Record Result : Type := mkResult {
  success : bool;
  savedCount : nat;
  error : option string
}.

(** The guard of the save loop:
    [indicator.rsi14 !== undefined || indicator.sma20 !== undefined]. *)
Definition worth_saving (indicator : IndicatorResult.t) : bool :=
  bool_decide (IndicatorResult.rsi14 indicator ≠ None)
  || bool_decide (IndicatorResult.sma20 indicator ≠ None).

(** The company's price history, ascending by date, as [PriceData]. *)
Definition priceData_of (db : Database) (c : Company.t) : list PriceData.t :=
  let stockPrices :=
    by_date_asc (List.filter (fun price =>
      (StockPrice.companyId price =? Company.id c)%Z) (stockPrice db)) in
  map (fun price =>
    PriceData.mk (StockPrice.date price)
      (Fin (StockPrice.open price)) (Fin (StockPrice.high price))
      (Fin (StockPrice.low price)) (Fin (StockPrice.close price))
      (Fin (StockPrice.volume price))) stockPrices.

(** One column of the [update] data of an upsert: an [undefined] value
    leaves the stored column as it is. *)
Definition updated (stored new : option number) : option number :=
  match new with
  | Some v => Some v
  | None => stored
  end.

(** [update] on an existing row: the sixteen indicator columns are written
    from the record, each only where the record has a value; the key columns
    are not written. *)
Definition update_row (row indicator : IndicatorResult.t) : IndicatorResult.t :=
  IndicatorResult.mk
    (IndicatorResult.date row)
    (updated (IndicatorResult.rsi14 row) (IndicatorResult.rsi14 indicator))
    (updated (IndicatorResult.macd row) (IndicatorResult.macd indicator))
    (updated (IndicatorResult.macdSignal row) (IndicatorResult.macdSignal indicator))
    (updated (IndicatorResult.macdHistogram row)
       (IndicatorResult.macdHistogram indicator))
    (updated (IndicatorResult.sma20 row) (IndicatorResult.sma20 indicator))
    (updated (IndicatorResult.sma50 row) (IndicatorResult.sma50 indicator))
    (updated (IndicatorResult.sma200 row) (IndicatorResult.sma200 indicator))
    (updated (IndicatorResult.ema12 row) (IndicatorResult.ema12 indicator))
    (updated (IndicatorResult.ema26 row) (IndicatorResult.ema26 indicator))
    (updated (IndicatorResult.bollingerUpper row)
       (IndicatorResult.bollingerUpper indicator))
    (updated (IndicatorResult.bollingerMiddle row)
       (IndicatorResult.bollingerMiddle indicator))
    (updated (IndicatorResult.bollingerLower row)
       (IndicatorResult.bollingerLower indicator))
    (updated (IndicatorResult.stochasticK row) (IndicatorResult.stochasticK indicator))
    (updated (IndicatorResult.stochasticD row) (IndicatorResult.stochasticD indicator))
    (updated (IndicatorResult.atr14 row) (IndicatorResult.atr14 indicator))
    (updated (IndicatorResult.adx14 row) (IndicatorResult.adx14 indicator)).

(** The row an upsert leaves under its key: created from the record (an
    [undefined] field becomes null) when the key had no row, the stored row
    updated otherwise. *)
Definition upserted (row : option IndicatorResult.t) (indicator : IndicatorResult.t)
    : IndicatorResult.t :=
  match row with
  | Some row => update_row row indicator
  | None => indicator
  end.

(** [prisma.technicalIndicator.upsert], keyed by [(companyId, date)]. *)
Definition upsert (companyId : Z) (store : gmap (Z * Z) IndicatorResult.t)
    (indicator : IndicatorResult.t) : gmap (Z * Z) IndicatorResult.t :=
  let key := (companyId, IndicatorResult.date indicator) in
  <[key := upserted (store !! key) indicator]> store.

(** The save loop: one upsert per indicator record that passes the guard.
    The store accepts every upsert (the [catch] of a failed one, which logs
    and goes on without counting, is not reached). *)
Definition save_loop (companyId : Z) (indicators : list IndicatorResult.t)
    (store : gmap (Z * Z) IndicatorResult.t)
    : nat * gmap (Z * Z) IndicatorResult.t :=
  foldl (fun '(savedCount, store) indicator =>
    if worth_saving indicator then
      (S savedCount, upsert companyId store indicator)
    else (savedCount, store)) (0%nat, store) indicators.

Definition calculateAndSaveIndicators (sqrtQ : Q → Q) (ticker : string)
    (db : Database) : Result * Database :=
  match List.find (fun c => String.eqb (Company.ticker c) ticker) (company db) with
  | None =>
      (mkResult false 0 (Some ("Company " +:+ ticker +:+ " not found")), db)
  | Some c =>
      let priceData := priceData_of db c in
      let indicators := TechnicalIndicators.calculateAllIndicators sqrtQ priceData in
      let '(savedCount, store) :=
        save_loop (Company.id c) indicators (technicalIndicator db) in
      (mkResult true savedCount None,
       mkDatabase (company db) (stockPrice db) (prediction db) store)
  end.

End TechnicalIndicatorsService.

(* ===================================================================== *)
(** ** Prediction validator (predictionValidation.job.ts) *)
(* ===================================================================== *)

Module PredictionValidationJob.

Record Counters : Type := mkCounters {
  validated : nat;
  correct : nat;
  incorrect : nat
}.

(** The [data] of the update that resolves a prediction. *)
Record Enrichment : Type := mkEnrichment {
  actualDirection : string;
  actualPrice : number;
  actualChangePercent : number;
  isCorrect : bool;
  confidenceWeightedScore : number;
  priceErrorPercent : option number;
  tradingReturn : option number
}.

(** The query of the job: target date before today, not yet validated. *)
Definition selected (today : Z) (p : Prediction.t) : bool :=
  (Prediction.targetDate p <? today)%Z
  && bool_decide (Prediction.isCorrect p = None).

Definition unvalidatedPredictions (today : Z) (db : Database)
    : list (Z * Prediction.t) :=
  List.filter (fun row => selected today row.2) (map_to_list (prediction db)).

(** The first price of the company within [targetDate, targetDate + 1 day). *)
Definition findActualPrice (db : Database) (p : Prediction.t)
    : option StockPrice.t :=
  let targetDate := Prediction.targetDate p in
  let nextDay := (targetDate + msPerDay)%Z in
  head (by_date_asc (List.filter (fun price =>
    (StockPrice.companyId price =? Prediction.companyId p)%Z
    && (targetDate <=? StockPrice.date price)%Z
    && (StockPrice.date price <? nextDay)%Z) (stockPrice db))).

(** The latest price of the company at or before the prediction date. *)
Definition findPreviousPrice (db : Database) (p : Prediction.t)
    : option StockPrice.t :=
  head (by_date_desc (List.filter (fun price =>
    (StockPrice.companyId price =? Prediction.companyId p)%Z
    && (StockPrice.date price <=? Prediction.predictionDate p)%Z) (stockPrice db))).

Definition actualChange_of (actualPrice previousPrice : StockPrice.t) : number :=
  nsub (Fin (StockPrice.close actualPrice)) (Fin (StockPrice.close previousPrice)).

Definition actualDirection_of (actualChange : number) : string :=
  if ngt actualChange (Fin 0) then "up"
  else if nlt actualChange (Fin 0) then "down" else "flat".

Definition isCorrect_of (p : Prediction.t) (actualDirection : string) : bool :=
  (String.eqb (Prediction.predictedDirection p) "up" && String.eqb actualDirection "up")
  || (String.eqb (Prediction.predictedDirection p) "down"
      && String.eqb actualDirection "down").

(** The local [priceErrorPercent]: null unless [predictedPrice] is truthy. *)
Definition priceErrorPercent_of (p : Prediction.t) (actualPrice : StockPrice.t)
    : option number :=
  match Prediction.predictedPrice p with
  | Some predictedPrice =>
      if truthy (Fin predictedPrice) then
        let predicted := Fin predictedPrice in
        let actual := Fin (StockPrice.close actualPrice) in
        Some (nmul (nabs (ndiv (nsub predicted actual) actual)) (Fin 100))
      else None
  | None => None
  end.

(** The local [tradingReturn]: null unless the confidence exceeds 0.50 and the
    predicted direction is "up" or "down". *)
Definition tradingReturn_of (p : Prediction.t)
    (actualPrice previousPrice : StockPrice.t) : option number :=
  if ngt (Fin (Prediction.confidence p)) (Fin 0.50) then
    let positionMultiplier := Fin (Prediction.confidence p) in
    if String.eqb (Prediction.predictedDirection p) "up" then
      let buyPrice := Fin (StockPrice.close previousPrice) in
      let sellPrice := Fin (StockPrice.close actualPrice) in
      let grossReturn := nmul (ndiv (nsub sellPrice buyPrice) buyPrice) (Fin 100) in
      let tradingReturn := nmul grossReturn positionMultiplier in
      Some (nsub tradingReturn (Fin 0.2))
    else if String.eqb (Prediction.predictedDirection p) "down" then
      let shortPrice := Fin (StockPrice.close previousPrice) in
      let coverPrice := Fin (StockPrice.close actualPrice) in
      let grossReturn := nmul (ndiv (nsub shortPrice coverPrice) shortPrice) (Fin 100) in
      let tradingReturn := nmul grossReturn positionMultiplier in
      Some (nsub tradingReturn (Fin 0.2))
    else None
  else None.

(** [x ? parseFloat(x.toFixed(2)) : null]: null, [0] and [NaN] are stored as
    null. *)
Definition rounded_or_null (x : option number) : option number :=
  match x with
  | Some v => if truthy v then Some (toFixed 2 v) else None
  | None => None
  end.

(** The body of the loop once both prices are found. *)
Definition enrichment_of (p : Prediction.t)
    (actualPrice previousPrice : StockPrice.t) : Enrichment :=
  let actualChange := actualChange_of actualPrice previousPrice in
  let actualChangePercent :=
    nmul (ndiv actualChange (Fin (StockPrice.close previousPrice))) (Fin 100) in
  let actualDirection := actualDirection_of actualChange in
  let isCorrect := isCorrect_of p actualDirection in
  let confidenceWeightedScore :=
    if isCorrect then Fin (Prediction.confidence p) else Fin 0 in
  let priceErrorPercent := priceErrorPercent_of p actualPrice in
  let tradingReturn := tradingReturn_of p actualPrice previousPrice in
  mkEnrichment actualDirection (Fin (StockPrice.close actualPrice))
    (toFixed 2 actualChangePercent) isCorrect
    (toFixed 4 confidenceWeightedScore)
    (rounded_or_null priceErrorPercent)
    (rounded_or_null tradingReturn).

(** [prisma.prediction.update({ where: { id }, data })] on one row. *)
Definition update (data : Enrichment) (p : Prediction.t) : Prediction.t :=
  Prediction.mk (Prediction.companyId p) (Prediction.company p)
    (Prediction.predictionDate p) (Prediction.targetDate p)
    (Prediction.predictedDirection p) (Prediction.predictedPrice p)
    (Prediction.predictedChangePercent p) (Prediction.confidence p)
    (Some (actualDirection data)) (Some (actualPrice data))
    (Some (actualChangePercent data)) (Some (isCorrect data))
    (Some (confidenceWeightedScore data)) (priceErrorPercent data)
    (tradingReturn data).

(** What the loop does with one selected prediction: nothing when a price is
    missing, otherwise the enrichment it writes. *)
Definition resolve (db : Database) (p : Prediction.t) : option Enrichment :=
  match findActualPrice db p with
  | None => None
  | Some actualPrice =>
      match findPreviousPrice db p with
      | None => None
      | Some previousPrice => Some (enrichment_of p actualPrice previousPrice)
      end
  end.

Definition validate_step (st : Counters * Database) (row : Z * Prediction.t)
    : Counters * Database :=
  let '(cnt, db) := st in
  match resolve db row.2 with
  | None => st
  | Some data =>
      let db' := mkDatabase (company db) (stockPrice db)
                   (alter (update data) row.1 (prediction db))
                   (technicalIndicator db) in
      let cnt' :=
        if isCorrect data
        then mkCounters (S (validated cnt)) (S (correct cnt)) (incorrect cnt)
        else mkCounters (S (validated cnt)) (correct cnt) (S (incorrect cnt)) in
      (cnt', db')
  end.

(** The job, run at instant [now]. *)
Definition validatePredictions (now : Z) (db : Database) : Counters * Database :=
  let today := startOfDay now in
  foldl validate_step (mkCounters 0 0 0, db) (unvalidatedPredictions today db).

End PredictionValidationJob.

(* ===================================================================== *)
(** ** Trading simulator (tradingSimulator.service.ts) *)
(* ===================================================================== *)

Module TradingSimulatorService.

Record TradingStrategy : Type := mkStrategy {
  minConfidence : Q;
  positionSize : Q;
  maxPositionsPerStock : Z
}.

Definition DEFAULT_STRATEGY : TradingStrategy := mkStrategy 0.55 10000 1.

Inductive TradeType : Type := BUY | SELL | SHORT.

Module Trade.
Record t : Type := mk {
  date : Z;
  ticker : string;
  type : TradeType;
  confidence : number;
  entryPrice : number;
  exitPrice : number;
  return_ : number;
  returnPercent : number
}.
End Trade.

(** The ledger the replay loop threads: the capital and the trades made.
    [openPositions] is created empty before the loop and only ever read. *)
Record Ledger : Type := mkLedger {
  currentCapital : number;
  trades : list Trade.t
}.

Definition startingCapital : number := Fin 100000.

Definition openPositions : gmap Z Trade.t := ∅.

(** The validated predictions that meet the confidence threshold, by target
    date ascending. *)
Definition qualifying (strategy : TradingStrategy) (db : Database)
    : list Prediction.t :=
  orderBy_asc Prediction.targetDate
    (List.filter (fun p =>
       bool_decide (Prediction.isCorrect p ≠ None)
       && Qle_bool (minConfidence strategy) (Prediction.confidence p))
     (map snd (map_to_list (prediction db)))).

(** One iteration of the replay loop. *)
Definition replay_step (strategy : TradingStrategy) (ledger : Ledger)
    (prediction : Prediction.t) : Ledger :=
  let companyId := Prediction.companyId prediction in
  let confidence := Fin (Prediction.confidence prediction) in
  if bool_decide (is_Some (openPositions !! companyId)) then ledger
  else
    let positionSize := Fin (positionSize strategy) in
    if nlt (currentCapital ledger) positionSize then ledger
    else
      let entryPrice := or_else (Number (Prediction.actualPrice prediction)) (Fin 0) in
      let fee := nmul positionSize (Fin 0.002) in
      let previousPrice :=
        ndiv entryPrice
          (nadd (Fin 1)
             (ndiv (Number (Prediction.actualChangePercent prediction)) (Fin 100))) in
      let shares := ndiv positionSize previousPrice in
      let actualUp := bool_decide (Prediction.actualDirection prediction = Some "up") in
      let actualDown := bool_decide (Prediction.actualDirection prediction = Some "down") in
      let predictedUp := String.eqb (Prediction.predictedDirection prediction) "up" in
      let predictedDown := String.eqb (Prediction.predictedDirection prediction) "down" in
      let book (type : TradeType) (tradeReturn : number) : Ledger :=
        let returnPercent := nmul (ndiv tradeReturn positionSize) (Fin 100) in
        mkLedger
          (nadd (currentCapital ledger) (nsub tradeReturn fee))
          (push (trades ledger)
             (Trade.mk (Prediction.targetDate prediction)
                (Company.ticker (Prediction.company prediction))
                type confidence previousPrice entryPrice
                (nsub tradeReturn fee)
                (nsub returnPercent (Fin 0.2)))) in
      if actualUp && predictedUp then
        book BUY (nmul shares (nsub entryPrice previousPrice))
      else if actualDown && predictedDown then
        book SHORT (nmul shares (nsub previousPrice entryPrice))
      else if predictedUp then
        book BUY (nmul shares (nsub entryPrice previousPrice))
      else
        book SHORT (nmul shares (nsub previousPrice entryPrice)).

(** The replay loop over the predictions in the order given. *)
Definition replay (strategy : TradingStrategy) (predictions : list Prediction.t)
    : Ledger :=
  foldl (replay_step strategy) (mkLedger startingCapital []) predictions.

(** [trades.reduce((sum, t) => sum + t.return, 0)]. *)
Definition total_return (ts : list Trade.t) : number :=
  foldl (fun sum t => nadd sum (Trade.return_ t)) (Fin 0) ts.

(** The part of the summary that reports the ledger (the remaining statistics
    are functions of the trade list alone). *)
Record Summary : Type := mkSummary {
  summary_startingCapital : number;
  summary_currentCapital : number;
  summary_totalReturn : number;
  summary_totalReturnPercent : number;
  summary_totalTrades : nat;
  summary_winningTrades : nat;
  summary_losingTrades : nat
}.

Record TradingSimulationResult : Type := mkSimulation {
  summary : Summary;
  result_trades : list Trade.t
}.

(** The trade as displayed: amounts rounded to two decimals. *)
Definition displayed (t : Trade.t) : Trade.t :=
  Trade.mk (Trade.date t) (Trade.ticker t) (Trade.type t) (Trade.confidence t)
    (toFixed 2 (Trade.entryPrice t)) (toFixed 2 (Trade.exitPrice t))
    (toFixed 2 (Trade.return_ t)) (toFixed 2 (Trade.returnPercent t)).

Definition simulateHistoricalTrading (strategy : TradingStrategy) (db : Database)
    : TradingSimulationResult :=
  let predictions := qualifying strategy db in
  let ledger := replay strategy predictions in
  let totalReturn := nsub (currentCapital ledger) startingCapital in
  let totalReturnPercent := nmul (ndiv totalReturn startingCapital) (Fin 100) in
  let winningTrades :=
    List.filter (fun t => ngt (Trade.return_ t) (Fin 0)) (trades ledger) in
  let losingTrades :=
    List.filter (fun t => nge (Fin 0) (Trade.return_ t)) (trades ledger) in
  mkSimulation
    (mkSummary startingCapital
       (toFixed 2 (currentCapital ledger))
       (toFixed 2 totalReturn)
       (toFixed 2 totalReturnPercent)
       (length (trades ledger))
       (length winningTrades)
       (length losingTrades))
    (map displayed (trades ledger)).

(** *** Recommendations *)

Inductive Advice : Type := Advice_BUY | Advice_SHORT | Advice_HOLD.

(** Which of the three reasoning texts a recommendation carries. *)
Inductive Reasoning : Type :=
  | HighConfidence
  | ModerateConfidence
  | LowConfidence.

Module Recommendation.
Record t : Type := mk {
  ticker : string;
  companyName : string;
  recommendation : Advice;
  confidence : number;
  predictedDirection : string;
  predictedPrice : number;
  currentPrice : number;
  targetDate : Z;
  reasoning : Reasoning
}.
End Recommendation.

(** The pending predictions the query returns: target date not before [now],
    confidence at least [minConfidence], not yet validated; by confidence
    descending. *)
Definition active (minConfidence : Q) (now : Z) (db : Database)
    : list Prediction.t :=
  orderBy_desc_Q Prediction.confidence
    (List.filter (fun p =>
       (now <=? Prediction.targetDate p)%Z
       && Qle_bool minConfidence (Prediction.confidence p)
       && bool_decide (Prediction.isCorrect p = None))
     (map snd (map_to_list (prediction db)))).

(** The latest close of the prediction's company, [0] when it has no price. *)
Definition currentPrice_of (db : Database) (p : Prediction.t) : number :=
  match head (by_date_desc (List.filter (fun price =>
          (StockPrice.companyId price =? Company.id (Prediction.company p))%Z)
          (stockPrice db))) with
  | Some price => Fin (StockPrice.close price)
  | None => Fin 0
  end.

Definition recommend (db : Database) (p : Prediction.t) : Recommendation.t :=
  let confidence := Fin (Prediction.confidence p) in
  let currentPrice := currentPrice_of db p in
  let direction_advice :=
    if String.eqb (Prediction.predictedDirection p) "up"
    then Advice_BUY else Advice_SHORT in
  let decision : Advice * Reasoning :=
    if nge confidence (Fin 0.70) then (direction_advice, HighConfidence)
    else if nge confidence (Fin 0.60) then (direction_advice, ModerateConfidence)
    else (Advice_HOLD, LowConfidence) in
  Recommendation.mk
    (Company.ticker (Prediction.company p))
    (Company.name (Prediction.company p))
    (fst decision) confidence
    (Prediction.predictedDirection p)
    (or_else (Number (option_map Fin (Prediction.predictedPrice p))) (Fin 0))
    currentPrice
    (Prediction.targetDate p)
    (snd decision).

Definition getTradingRecommendations (minConfidence : Q) (now : Z) (db : Database)
    : list Recommendation.t :=
  map (recommend db) (active minConfidence now db).

End TradingSimulatorService.

(* ===================================================================== *)
(** ** Vocabulary of the specification *)
(* ===================================================================== *)

(** The sum and the arithmetic mean of a list of rationals. *)
Definition Qsum (l : list Q) : Q := foldr Qplus 0 l.

Definition mean (l : list Q) : Q := Qsum l / inject_Z (Z.of_nat (length l)).

(** The trailing window of [p] values that ends at index [i]. *)
Definition window {A} (values : list A) (p i : nat) : list A :=
  take p (drop (i + 1 - p) values).

(** The number of defined (non-[NaN]) entries of an array. *)
Definition count_defined (a : list number) : nat := length (filter_defined a).

(** The series of the specification's example, twenty closing prices. *)
Definition example_series : list Q :=
  [100; 102; 101; 105; 103; 107; 108; 106; 110; 109;
   111; 113; 112; 115; 114; 116; 118; 117; 119; 120].

(** The price change that arrives at index [i]. *)
Definition change (values : list Q) (i : nat) : Q :=
  nth i values 0 - nth (i - 1) values 0.

(** The gain and the loss [calculateRSI] records for that change. *)
Definition gain_at (values : list Q) (i : nat) : number :=
  if ngt (Fin (change values i)) (Fin 0) then Fin (change values i) else Fin 0.

Definition loss_at (values : list Q) (i : nat) : number :=
  if nlt (Fin (change values i)) (Fin 0) then nneg (Fin (change values i)) else Fin 0.

(** Every change at the indices [lo + 1 .. hi] is a gain (a loss). *)
Definition all_gains (values : list Q) (lo hi : nat) : Prop :=
  ∀ j, (lo < j ≤ hi)%nat → 0 < change values j.

Definition all_losses (values : list Q) (lo hi : nat) : Prop :=
  ∀ j, (lo < j ≤ hi)%nat → change values j < 0.

(** A value of the closed interval [lo, hi]. *)
Definition within (lo hi : Q) (x : number) : Prop :=
  ∃ r, x = Fin r ∧ lo <= r <= hi.

(* ===================================================================== *)
(** ** Loop invariants *)
(* ===================================================================== *)

(** The entry the loop pushes at index [i]. *)
Definition sma_at (prices : list number) (period : Z) (i : nat) : number :=
  if (Z.of_nat i <? period - 1)%Z then NaN
  else ndiv (sum (slice prices (Z.of_nat i - period + 1) (Z.of_nat i + 1)))
            (ofZ period).


(** An array entry is either the [NaN] marker or a value of [lo, hi]. *)
Definition marker_or_within (lo hi : Q) (x : number) : Prop :=
  x = NaN ∨ within lo hi x.

(** A finite value that is not negative. *)
Definition nonneg (x : number) : Prop := ∃ q, x = Fin q ∧ 0 <= q.

(** The two running averages of [calculateRSI]: finite and of the sign of
    the period, or, for period 0, untouched or no longer finite with one of
    them [NaN]. *)
Definition averages_ok (period : Z) (avgGain avgLoss : number) : Prop :=
  match (period ?= 0)%Z with
  | Gt => ∃ a b, avgGain = Fin a ∧ avgLoss = Fin b ∧ 0 <= a ∧ 0 <= b
  | Lt => ∃ a b, avgGain = Fin a ∧ avgLoss = Fin b ∧ a <= 0 ∧ b <= 0
  | Eq => (∃ a b, avgGain = Fin a ∧ avgLoss = Fin b ∧ a == 0 ∧ b == 0)
          ∨ (¬ is_finite avgGain ∧ ¬ is_finite avgLoss
             ∧ (avgGain = NaN ∨ avgLoss = NaN))
  end.

(** A finite value that is positive; a finite value that is zero. *)
Definition positive (x : number) : Prop := ∃ q, x = Fin q ∧ 0 < q.

Definition zero (x : number) : Prop := ∃ q, x = Fin q ∧ q == 0.

(** The state of [calculateRSI] after [n] iterations, for any series of
    finite prices. *)
Record rsi_invariant (period : Z) (n : nat) (st : TechnicalIndicators.RSIState)
    : Prop := mk_rsi_invariant {
  rsi_inv_gains_length : length (TechnicalIndicators.gains st) = n;
  rsi_inv_losses_length : length (TechnicalIndicators.losses st) = n;
  rsi_inv_rsi_length : length (TechnicalIndicators.rsi st) = n;
  rsi_inv_gains : Forall nonneg (TechnicalIndicators.gains st);
  rsi_inv_losses : Forall nonneg (TechnicalIndicators.losses st);
  rsi_inv_averages :
    averages_ok period (TechnicalIndicators.avgGain st)
      (TechnicalIndicators.avgLoss st);
  rsi_inv_rsi : Forall (marker_or_within 0 100) (TechnicalIndicators.rsi st)
}.

(** The state of [calculateRSI] after [n] iterations when every change so far
    was of one sign: the gains after the first satisfy [G], the losses [L]
    (one of them [positive], the other [zero]); once past the first [period]
    changes the averages do too and the last entry pushed is [v]. *)
Record rsi_monotone_invariant (G L : number → Prop) (v : number) (period : Z)
    (n : nat) (st : TechnicalIndicators.RSIState) : Prop :=
  mk_rsi_monotone_invariant {
  rsi_mono_gains_length : length (TechnicalIndicators.gains st) = n;
  rsi_mono_losses_length : length (TechnicalIndicators.losses st) = n;
  rsi_mono_rsi_length : length (TechnicalIndicators.rsi st) = n;
  rsi_mono_gains : Forall G (drop 1 (TechnicalIndicators.gains st));
  rsi_mono_losses : Forall L (drop 1 (TechnicalIndicators.losses st));
  rsi_mono_early : (Z.of_nat n ≤ period)%Z →
    TechnicalIndicators.avgGain st = Fin 0
    ∧ TechnicalIndicators.avgLoss st = Fin 0;
  rsi_mono_late : (period < Z.of_nat n)%Z →
    G (TechnicalIndicators.avgGain st)
    ∧ L (TechnicalIndicators.avgLoss st)
    ∧ get (TechnicalIndicators.rsi st) (n - 1) ~= v
}.

(** A property of numbers that sums, means and Wilder's smoothing preserve. *)
Record preserved (P : number → Prop) : Prop := mk_preserved {
  preserved_sum : ∀ l, l ≠ [] → Forall P l → P (sum l);
  preserved_div : ∀ x p, (0 < p)%Z → P x → P (ndiv x (ofZ p));
  preserved_smooth : ∀ a g p, (0 < p)%Z → P a → P g →
    P (ndiv (nadd (nmul a (ofZ (p - 1))) g) (ofZ p))
}.

(* ===================================================================== *)
(** ** Example data *)
(* ===================================================================== *)

Definition example_company : Company.t := Company.mk 1 "EQNR.OL" "Equinor".

(** A day's price of the example company, all four prices equal. *)
Definition price_at (date : Z) (close : Q) : StockPrice.t :=
  StockPrice.mk 1 date close close close close 1000.

(** A pending prediction for the example company. *)
Definition pending (direction : string) (confidence : Q)
    (predictedPrice : option Q) (predictionDate targetDate : Z) : Prediction.t :=
  Prediction.mk 1 example_company predictionDate targetDate direction
    predictedPrice None confidence None None None None None None None.

(** Day [n] at midnight. *)
Definition day (n : Z) : Z := (n * msPerDay)%Z.

(** A balanced ledger: the capital is the starting capital plus the returns
    of the trades made so far. *)
Definition balanced (ledger : TradingSimulatorService.Ledger) : Prop :=
  TradingSimulatorService.currentCapital ledger
  ~= nadd TradingSimulatorService.startingCapital
       (TradingSimulatorService.total_return
          (TradingSimulatorService.trades ledger)).

(** Four days of prices of the example company and two overlapping "up"
    predictions on it: the first made on day 1 for day 3, the second made on
    day 2 for day 4. *)
Definition example_prices : list StockPrice.t :=
  [price_at (day 1) 100; price_at (day 2) 105; price_at (day 3) 110;
   price_at (day 4) 120].

Definition overlapping_db : Database :=
  mkDatabase [example_company] example_prices
    (<[1%Z := pending "up" 0.8 None (day 1) (day 3)]>
       (<[2%Z := pending "up" 0.7 None (day 2) (day 4)]> ∅))
    ∅.

(** The same store after the validator ran on day 5. *)
Definition overlapping_db_validated : Database :=
  (PredictionValidationJob.validatePredictions (day 5) overlapping_db).2.

(** What one run of the validator makes of a stored prediction: a selected
    prediction whose prices are found is resolved, every other one is left
    as it is. *)
Definition outcome (today : Z) (db : Database) (p : Prediction.t) : Prediction.t :=
  if PredictionValidationJob.selected today p then
    match PredictionValidationJob.resolve db p with
    | Some data => PredictionValidationJob.update data p
    | None => p
    end
  else p.

(** How an entry of an indicator array is reported in a result record: a
    [NaN] entry as an absent field, any other entry as itself. *)
Definition reported (value : number) (field : option number) : Prop :=
  (isNaN value = true ∧ field = None)
  ∨ (defined value ∧ field = Some value).

(** The fields of a result record, each with the array of the indicator
    function it reports and the index of the first entry that function can
    compute. *)
Definition indicator_fields (sqrtQ : Q → Q) (priceData : list PriceData.t)
    : list ((IndicatorResult.t → option number) * list number * nat) :=
  let closes := map PriceData.close priceData in
  let highs := map PriceData.high priceData in
  let lows := map PriceData.low priceData in
  let macdData := TechnicalIndicators.calculateMACD closes 12 26 9 in
  let bollinger := TechnicalIndicators.calculateBollingerBands sqrtQ closes 20 (Fin 2) in
  let stochastic := TechnicalIndicators.calculateStochastic highs lows closes 14 3 in
  [ (IndicatorResult.rsi14, TechnicalIndicators.calculateRSI closes 14, 14%nat);
    (IndicatorResult.macd, TechnicalIndicators.macd macdData, 25%nat);
    (IndicatorResult.macdSignal, TechnicalIndicators.signal macdData, 33%nat);
    (IndicatorResult.macdHistogram, TechnicalIndicators.histogram macdData, 33%nat);
    (IndicatorResult.sma20, TechnicalIndicators.calculateSMA closes 20, 19%nat);
    (IndicatorResult.sma50, TechnicalIndicators.calculateSMA closes 50, 49%nat);
    (IndicatorResult.sma200, TechnicalIndicators.calculateSMA closes 200, 199%nat);
    (IndicatorResult.ema12, TechnicalIndicators.calculateEMA closes 12, 11%nat);
    (IndicatorResult.ema26, TechnicalIndicators.calculateEMA closes 26, 25%nat);
    (IndicatorResult.bollingerUpper, TechnicalIndicators.upper bollinger, 19%nat);
    (IndicatorResult.bollingerMiddle, TechnicalIndicators.middle bollinger, 19%nat);
    (IndicatorResult.bollingerLower, TechnicalIndicators.lower bollinger, 19%nat);
    (IndicatorResult.stochasticK, TechnicalIndicators.k stochastic, 15%nat);
    (IndicatorResult.stochasticD, TechnicalIndicators.d stochastic, 17%nat);
    (IndicatorResult.atr14, TechnicalIndicators.calculateATR highs lows closes 14, 13%nat);
    (IndicatorResult.adx14, TechnicalIndicators.calculateADX highs lows closes 14, 28%nat) ].

(** An array whose entries before index [k] are all [NaN]. *)
Definition undefined_before (k : nat) (a : list number) : Prop :=
  ∀ i, (i < k)%nat → get a i = NaN.

(** The square root the examples pass for [sqrtQ] (the integer square root of
    the integer part); their price histories are shorter than a Bollinger
    window, so it is never called. *)
Definition example_sqrt (q : Q) : Q := inject_Z (Z.sqrt (Qfloor q)).

(** Fifteen days of prices of the example company, and the first twelve of
    them. *)
Definition fifteen_closes : list Q :=
  [100; 102; 101; 105; 103; 107; 108; 106; 110; 109; 111; 113; 112; 115; 114].

Definition history_db (closes : list Q) : Database :=
  mkDatabase [example_company]
    (imap (fun i close => price_at (day (Z.of_nat i + 1)) close) closes) ∅ ∅.

Definition fifteen_day_db : Database := history_db fifteen_closes.

Definition twelve_day_db : Database := history_db (take 12 fifteen_closes).

(** A snapshot of day 15 left by an earlier run over a longer history: an
    RSI of 50 and an SMA(200) of 104. *)
Definition earlier_row : IndicatorResult.t :=
  IndicatorResult.mk (day 15) (Some (Fin 50)) None None None None None
    (Some (Fin 104)) None None None None None None None None None.

(** The fifteen-day history over a store that holds the earlier snapshot. *)
Definition fifteen_day_db_with_row : Database :=
  mkDatabase (company fifteen_day_db) (stockPrice fifteen_day_db) ∅
    {[ (1%Z, day 15) := earlier_row ]}.

(* ===================================================================== *)
(** ** Further vocabulary *)
(* ===================================================================== *)

(** A series of rationals that stays within [lo, hi]. *)
Definition bounded (lo hi : Q) (values : list Q) : Prop :=
  Forall (fun v => lo <= v <= hi) values.

(** Two arrays agree on the indices below [n]. *)
Definition agree_before (n : nat) (a b : list number) : Prop :=
  ∀ i, (i < n)%nat → get a i = get b i.

(** The smoothing factor of an exponential moving average of period [p]. *)
Definition smoothing (p : Z) : Q := 2 / inject_Z (p + 1).

(** The state of [calculateADX] after [n] iterations, for finite prices: the
    directional movements are never negative, and neither are the true
    ranges after the first (the first is [high - low] of the first day). *)
Record adx_invariant (n : nat) (st : TechnicalIndicators.ADXState) : Prop :=
  mk_adx_invariant {
  adx_inv_adx_length : length (TechnicalIndicators.adx st) = n;
  adx_inv_plus_length : length (TechnicalIndicators.plusDM st) = n;
  adx_inv_minus_length : length (TechnicalIndicators.minusDM st) = n;
  adx_inv_tr_length : length (TechnicalIndicators.tr st) = n;
  adx_inv_plus : Forall nonneg (TechnicalIndicators.plusDM st);
  adx_inv_minus : Forall nonneg (TechnicalIndicators.minusDM st);
  adx_inv_tr : Forall nonneg (drop 1 (TechnicalIndicators.tr st))
}.

(** An array entry is either the [NaN] marker or a finite value that is not
    negative. *)
Definition marker_or_nonneg (x : number) : Prop := x = NaN ∨ nonneg x.

(* ===================================================================== *)
(** ** Indicator pipeline, all tracked companies *)
(* ===================================================================== *)

Module TrackedIndicators.
Import TechnicalIndicatorsService.

(** An entry of [details]: the ticker with the fields of its result. *)
Record Detail : Type := mkDetail {
  detail_ticker : string;
  detail_savedCount : nat;
  detail_success : bool;
  detail_error : option string
}.

Record Batch : Type := mkBatch {
  total : nat;
  successful : nat;
  failed : nat;
  details : list Detail
}.

(** The loop state: the results so far, the two counters and the store. *)
Record BatchState : Type := mkBatchState {
  results : list Detail;
  state_successful : nat;
  state_failed : nat;
  state_db : Database
}.

Definition batch_step (sqrtQ : Q → Q) (st : BatchState) (company : Company.t)
    : BatchState :=
  let run := calculateAndSaveIndicators sqrtQ (Company.ticker company) (state_db st) in
  let result := run.1 in
  mkBatchState
    (push (results st)
       (mkDetail (Company.ticker company) (savedCount result) (success result)
          (error result)))
    (if success result then S (state_successful st) else state_successful st)
    (if success result then state_failed st else S (state_failed st))
    run.2.

(** [calculateAllTrackedIndicators].  The [isTracked] column of a company,
    which nothing else in the engine reads, is given as a predicate on the
    company rows. *)
Definition calculateAllTrackedIndicators (sqrtQ : Q → Q)
    (isTracked : Company.t → bool) (db : Database) : Batch * Database :=
  let companies := List.filter isTracked (company db) in
  let st := foldl (batch_step sqrtQ) (mkBatchState [] 0 0 db) companies in
  (mkBatch (length companies) (state_successful st) (state_failed st) (results st),
   state_db st).

End TrackedIndicators.

(** The result a single run of the pipeline reports for [ticker], as an entry
    of [details]. *)
Definition detail_of (sqrtQ : Q → Q) (db : Database) (ticker : string)
    : TrackedIndicators.Detail :=
  let result :=
    (TechnicalIndicatorsService.calculateAndSaveIndicators sqrtQ ticker db).1 in
  TrackedIndicators.mkDetail ticker
    (TechnicalIndicatorsService.savedCount result)
    (TechnicalIndicatorsService.success result)
    (TechnicalIndicatorsService.error result).

(** The company a ticker names. *)
Definition company_of (db : Database) (ticker : string) : option Company.t :=
  List.find (fun c => String.eqb (Company.ticker c) ticker) (company db).

(* ===================================================================== *)
(** ** Vocabulary of the validator *)
(* ===================================================================== *)

(** Two rows of the prediction table that carry the same forecast: they
    differ at most in the enrichment. *)
Definition same_forecast (p p' : Prediction.t) : Prop :=
  Prediction.companyId p' = Prediction.companyId p
  ∧ Prediction.company p' = Prediction.company p
  ∧ Prediction.predictionDate p' = Prediction.predictionDate p
  ∧ Prediction.targetDate p' = Prediction.targetDate p
  ∧ Prediction.predictedDirection p' = Prediction.predictedDirection p
  ∧ Prediction.predictedPrice p' = Prediction.predictedPrice p
  ∧ Prediction.predictedChangePercent p' = Prediction.predictedChangePercent p
  ∧ Prediction.confidence p' = Prediction.confidence p.

(** A price of the prediction's company within its target day. *)
Definition on_target_day (p : Prediction.t) (price : StockPrice.t) : Prop :=
  StockPrice.companyId price = Prediction.companyId p
  ∧ (Prediction.targetDate p ≤ StockPrice.date price
     < Prediction.targetDate p + msPerDay)%Z.

(** A price of the prediction's company at or before the prediction date. *)
Definition known_at_prediction (p : Prediction.t) (price : StockPrice.t) : Prop :=
  StockPrice.companyId price = Prediction.companyId p
  ∧ (StockPrice.date price ≤ Prediction.predictionDate p)%Z.

(** Whether both prices of a prediction are found, and whether the
    prediction is then resolved as correct. *)
Definition resolvable (db : Database) (p : Prediction.t) : bool :=
  match PredictionValidationJob.resolve db p with
  | Some _ => true
  | None => false
  end.

Definition resolved_correct (db : Database) (p : Prediction.t) : bool :=
  match PredictionValidationJob.resolve db p with
  | Some data => PredictionValidationJob.isCorrect data
  | None => false
  end.

(* ===================================================================== *)
(** ** Accuracy statistics (predictionValidation.job.ts) *)
(* ===================================================================== *)

(** A count as a JavaScript number. *)
Definition ofN (n : nat) : number := ofZ (Z.of_nat n).

Module AccuracyStats.

(** The six figures reported overall and per stock. *)
Record Stats : Type := mkStats {
  total : nat;
  correct : nat;
  accuracy : number;
  confidenceWeightedAccuracy : number;
  avgPriceError : number;
  avgTradingReturn : number
}.

(** The entry of a stock: its ticker and name with the six figures. *)
Record StockStats : Type := mkStockStats {
  ticker : string;
  name : string;
  figures_of : Stats
}.

(** [findMany({ where: { isCorrect: { not: null } } })]. *)
Definition allValidated (db : Database) : list Prediction.t :=
  List.filter (fun p => bool_decide (Prediction.isCorrect p ≠ None))
    (map snd (map_to_list (prediction db))).

(** [ps.filter((p) => p.isCorrect).length]. *)
Definition correct_count (ps : list Prediction.t) : nat :=
  length (List.filter (fun p => bool_decide (Prediction.isCorrect p = Some true)) ps).

(** [ps.reduce((sum, p) => sum + (Number(p.confidenceWeightedScore) || 0), 0)]. *)
Definition confidenceScore (ps : list Prediction.t) : number :=
  foldl (fun sum p =>
    nadd sum (or_else (Number (Prediction.confidenceWeightedScore p)) (Fin 0)))
    (Fin 0) ps.

Definition priceErrors (ps : list Prediction.t) : list number :=
  map (fun p => Number (Prediction.priceErrorPercent p))
    (List.filter (fun p => bool_decide (Prediction.priceErrorPercent p ≠ None)) ps).

Definition tradingReturns (ps : list Prediction.t) : list number :=
  map (fun p => Number (Prediction.tradingReturn p))
    (List.filter (fun p => bool_decide (Prediction.tradingReturn p ≠ None)) ps).

(** [xs.length > 0 ? xs.reduce((sum, x) => sum + x, 0) / xs.length : 0]. *)
Definition average (xs : list number) : number :=
  if (0 <? length xs)%nat then ndiv (sum xs) (ofN (length xs)) else Fin 0.

(** The figures of a group of validated predictions (the block the function
    repeats for the whole table and for each stock); [count] is the size of
    the group as the query reports it. *)
Definition figures (count : nat) (ps : list Prediction.t) : Stats :=
  let correct := correct_count ps in
  let accuracy :=
    if (0 <? count)%nat then nmul (ndiv (ofN correct) (ofN count)) (Fin 100)
    else Fin 0 in
  let confidenceWeightedAccuracy :=
    if (0 <? length ps)%nat
    then nmul (ndiv (confidenceScore ps) (ofN (length ps))) (Fin 100)
    else Fin 0 in
  mkStats count correct
    (toFixed 2 accuracy)
    (toFixed 2 confidenceWeightedAccuracy)
    (toFixed 2 (average (priceErrors ps)))
    (toFixed 2 (average (tradingReturns ps))).

(** [groupBy({ by: ['companyId'], _count: { id: true } })]: one group per
    company that has a validated prediction, with the size of the group.  The
    store promises no order of the groups. *)
Definition groupBy_companyId (ps : list Prediction.t) : list (Z * nat) :=
  map (fun companyId =>
         (companyId,
          length (List.filter (fun p => (Prediction.companyId p =? companyId)%Z) ps)))
      (remove_dups (map Prediction.companyId ps)).

(** [s || 'Unknown'] on an optional string: the empty string is falsy. *)
Definition or_unknown (s : option string) : string :=
  match s with
  | Some s => if String.eqb s "" then "Unknown" else s
  | None => "Unknown"
  end.

Definition byStock_entry (db : Database) (item : Z * nat) : StockStats :=
  let company :=
    List.find (fun c => (Company.id c =? item.1)%Z) (company db) in
  let stockPredictions :=
    List.filter (fun p => (Prediction.companyId p =? item.1)%Z) (allValidated db) in
  mkStockStats
    (or_unknown (option_map Company.ticker company))
    (or_unknown (option_map Company.name company))
    (figures item.2 stockPredictions).

(** The statistics by model need the model column and table, which the
    store of this development does not hold. *)
Record t : Type := mk {
  overall : Stats;
  byStock : list StockStats
}.

Definition getAccuracyStats (db : Database) : t :=
  let allValidated := allValidated db in
  mk (figures (length allValidated) allValidated)
     (map (byStock_entry db) (groupBy_companyId allValidated)).

End AccuracyStats.

(* ===================================================================== *)
(** ** Drawdown of a simulation (tradingSimulator.service.ts) *)
(* ===================================================================== *)

Module TradingStatistics.
Import TradingSimulatorService.

(** The state of the drawdown loop. *)
Record Drawdown : Type := mkDrawdown {
  peak : number;
  maxDrawdown : number;
  runningCapital : number
}.

Definition drawdown_step (st : Drawdown) (trade : Trade.t) : Drawdown :=
  let runningCapital := nadd (runningCapital st) (Trade.return_ trade) in
  let peak := if ngt runningCapital (peak st) then runningCapital else peak st in
  let drawdown := nmul (ndiv (nsub peak runningCapital) peak) (Fin 100) in
  let maxDrawdown :=
    if ngt drawdown (maxDrawdown st) then drawdown else maxDrawdown st in
  mkDrawdown peak maxDrawdown runningCapital.

Definition drawdown_loop (trades : list Trade.t) : Drawdown :=
  foldl drawdown_step (mkDrawdown startingCapital (Fin 0) startingCapital) trades.

(** The maximum drawdown reported in the summary. *)
Definition summary_maxDrawdown (trades : list Trade.t) : number :=
  toFixed 2 (maxDrawdown (drawdown_loop trades)).

(** [winRate] of the summary. *)
Definition summary_winRate (trades : list Trade.t) : number :=
  let winningTrades := List.filter (fun t => ngt (Trade.return_ t) (Fin 0)) trades in
  toFixed 2
    (if (0 <? length trades)%nat
     then nmul (ndiv (ofN (length winningTrades)) (ofN (length trades))) (Fin 100)
     else Fin 0).

End TradingStatistics.

(** The capital after each trade of a list of returns, from [start]. *)
Fixpoint capital_path (start : Q) (returns : list Q) : list Q :=
  match returns with
  | [] => []
  | r :: returns => (start + r) :: capital_path (start + r) returns
  end.

(** Whether the prediction asks for a long position. *)
Definition long (p : Prediction.t) : bool :=
  String.eqb (Prediction.predictedDirection p) "up".


(** A trade that follows a prediction: made on its target date, on its
    company, long for a predicted rise and short otherwise, with its
    confidence. *)
Definition follows (t : TradingSimulatorService.Trade.t) (p : Prediction.t) : Prop :=
  TradingSimulatorService.Trade.date t = Prediction.targetDate p
  ∧ TradingSimulatorService.Trade.ticker t = Company.ticker (Prediction.company p)
  ∧ TradingSimulatorService.Trade.type t
    = (if long p then TradingSimulatorService.BUY else TradingSimulatorService.SHORT)
  ∧ TradingSimulatorService.Trade.confidence t = Fin (Prediction.confidence p).

(** A recommendation that may stand before another in the list: its
    confidence is not lower. *)
Definition ranks_before (r1 r2 : TradingSimulatorService.Recommendation.t) : Prop :=
  ∃ c1 c2,
    TradingSimulatorService.Recommendation.confidence r1 = Fin c1
    ∧ TradingSimulatorService.Recommendation.confidence r2 = Fin c2
    ∧ c2 <= c1.

(** The latest price of a company. *)
Definition latest_price (db : Database) (companyId : Z) (price : StockPrice.t)
    : Prop :=
  In price (stockPrice db)
  ∧ StockPrice.companyId price = companyId
  ∧ ∀ other, In other (stockPrice db) → StockPrice.companyId other = companyId →
      (StockPrice.date other ≤ StockPrice.date price)%Z.


(** A trade with a given return, for examples. *)
Definition trade_returning (r : Q) : TradingSimulatorService.Trade.t :=
  TradingSimulatorService.Trade.mk (day 3) "EQNR.OL" TradingSimulatorService.BUY
    (Fin 0.8) (Fin 100) (Fin 110) (Fin r) (Fin 10).

(* ===================================================================== *)
(** * Properties *)
(* ===================================================================== *)

(** ** Numbers *)

Section Numbers.

Implicit Types x y z : number.

Lemma num_eq_refl x : x ~= x.
Proof. destruct x; simpl; auto. reflexivity. Qed.

Lemma num_eq_sym x y : x ~= y → y ~= x.
Proof. destruct x, y; simpl; auto. intros H; symmetry; exact H. Qed.

Lemma num_eq_trans x y z : x ~= y → y ~= z → x ~= z.
Proof.
  destruct x, y, z; simpl; auto; try contradiction.
  intros H1 H2; rewrite H1; exact H2.
Qed.

#[global] Instance num_eq_equiv : Equivalence num_eq.
Proof.
  split; [exact num_eq_refl | exact num_eq_sym | exact num_eq_trans].
Qed.

Lemma nadd_comm x y : nadd x y ~= nadd y x.
Proof. destruct x, y; simpl; auto. ring. Qed.

Lemma nadd_assoc x y z : nadd (nadd x y) z ~= nadd x (nadd y z).
Proof. destruct x, y, z; simpl; auto. ring. Qed.

Lemma nadd_proper x x' y y' : x ~= x' → y ~= y' → nadd x y ~= nadd x' y'.
Proof.
  destruct x, x', y, y'; simpl; auto; try contradiction.
  intros H1 H2; rewrite H1, H2; reflexivity.
Qed.

Lemma nadd_0_l x : nadd (Fin 0) x ~= x.
Proof. destruct x; simpl; auto. ring. Qed.

Lemma ndiv_Fin_nonzero a b : ¬ b == 0 → ndiv (Fin a) (Fin b) = Fin (a / b).
Proof.
  intros Hb. simpl. destruct (Qeq_bool b 0) eqn:E; [|reflexivity].
  apply Qeq_bool_iff in E. contradiction.
Qed.

Lemma inject_Z_pos p : (0 < p)%Z → 0 < inject_Z p.
Proof. intros H. change 0 with (inject_Z 0). rewrite <- Zlt_Qlt. exact H. Qed.

Lemma sum_Fin_from (a : Q) (l : list Q) :
  foldl nadd (Fin a) (map Fin l) = Fin (foldl Qplus a l).
Proof.
  revert a. induction l as [|q l IH]; intros a; simpl; [reflexivity | apply IH].
Qed.

Lemma foldl_Qplus_Qsum (a : Q) (l : list Q) : foldl Qplus a l == a + Qsum l.
Proof.
  revert a. induction l as [|q l IH]; intros a; simpl.
  - ring.
  - rewrite IH. unfold Qsum; simpl. ring.
Qed.

End Numbers.

(** ** Loops and arrays *)

Section Loops.

Context {S A : Type}.

Lemma for_loop_S n (body : nat → S → S) s :
  for_loop (Datatypes.S n) body s = body n (for_loop n body s).
Proof. unfold for_loop. rewrite seq_S, foldl_app. reflexivity. Qed.

Lemma for_loop_ext n (body body' : nat → S → S) s :
  (∀ i s, (i < n)%nat → body i s = body' i s) →
  for_loop n body s = for_loop n body' s.
Proof.
  induction n as [|n IH]; intros H; [reflexivity|].
  rewrite !for_loop_S, IH by (intros; apply H; lia). apply H; lia.
Qed.

Lemma slice_window (a : list A) (s e : Z) :
  (0 ≤ s)%Z → (s ≤ e)%Z → (e ≤ Z.of_nat (length a))%Z →
  slice a s e = take (Z.to_nat (e - s)) (drop (Z.to_nat s) a).
Proof.
  intros Hs Hse He. unfold slice.
  destruct (Z.ltb_spec s 0); [lia|]. destruct (Z.ltb_spec e 0); [lia|].
  rewrite !Z.min_l by lia. reflexivity.
Qed.

Lemma window_length (values : list A) (p i : nat) :
  (0 < p)%nat → (i < length values)%nat → (p - 1 ≤ i)%nat →
  length (window values p i) = p.
Proof. intros. unfold window. rewrite length_take, length_drop. lia. Qed.

End Loops.

Lemma for_loop_push {A} n (f : nat → A) :
  for_loop n (fun i acc => push acc (f i)) [] = map f (seq 0 n).
Proof.
  induction n as [|n IH]; [reflexivity|].
  rewrite for_loop_S, IH, seq_S, map_app. reflexivity.
Qed.

Lemma get_map_seq (f : nat → number) n i :
  (i < n)%nat → get (map f (seq 0 n)) i = f i.
Proof.
  intros Hi. unfold get.
  rewrite (nth_indep _ NaN (f 0%nat)) by (rewrite length_map, length_seq; lia).
  rewrite map_nth, seq_nth by lia. reflexivity.
Qed.

Lemma count_defined_map_seq (f : nat → number) (n k : nat) :
  (∀ i, (i < n)%nat → isNaN (f i) = false ↔ (k ≤ i)%nat) →
  count_defined (map f (seq 0 n)) = (n - k)%nat.
Proof.
  unfold count_defined, filter_defined.
  induction n as [|n IH]; intros H; [reflexivity|].
  rewrite seq_S, map_app, List.filter_app, length_app, IH by (intros; apply H; lia).
  simpl. destruct (isNaN (f n)) eqn:E; simpl.
  - assert (¬ (k ≤ n)%nat) by (intros Hk; apply H in Hk; [congruence|lia]). lia.
  - apply H in E; lia.
Qed.

(** ** Simple moving average *)

Module SMA.
Import TechnicalIndicators.

Lemma calculateSMA_map prices period :
  calculateSMA prices period = map (sma_at prices period) (seq 0 (length prices)).
Proof.
  unfold calculateSMA. rewrite <- for_loop_push. apply for_loop_ext.
  intros i s _. unfold sma_at. destruct (_ <? _)%Z; reflexivity.
Qed.

Lemma calculateSMA_length prices period :
  length (calculateSMA prices period) = length prices.
Proof. rewrite calculateSMA_map, length_map, length_seq. reflexivity. Qed.

Lemma calculateSMA_get prices period i :
  (i < length prices)%nat →
  get (calculateSMA prices period) i = sma_at prices period i.
Proof. intros Hi. rewrite calculateSMA_map. apply get_map_seq, Hi. Qed.

Lemma sma_at_window (values : list Q) (p : Z) (i : nat) :
  (0 < p)%Z → (i < length values)%nat → (p - 1 ≤ Z.of_nat i)%Z →
  sma_at (map Fin values) p i
  = Fin (foldl Qplus 0 (window values (Z.to_nat p) i) / inject_Z p).
Proof.
  intros Hp Hi Hpi. unfold sma_at.
  destruct (Z.ltb_spec (Z.of_nat i) (p - 1)); [lia|].
  rewrite slice_window by (rewrite ?length_map; lia).
  replace (Z.to_nat (Z.of_nat i + 1 - (Z.of_nat i - p + 1))) with (Z.to_nat p) by lia.
  replace (Z.to_nat (Z.of_nat i - p + 1)) with (i + 1 - Z.to_nat p)%nat by lia.
  rewrite skipn_map, firstn_map. unfold sum. rewrite sum_Fin_from.
  unfold ofZ. rewrite ndiv_Fin_nonzero; [reflexivity|].
  pose proof (inject_Z_pos p Hp). lra.
Qed.

Lemma sma_at_mean (values : list Q) (p : Z) (i : nat) :
  (0 < p)%Z → (i < length values)%nat → (p - 1 ≤ Z.of_nat i)%Z →
  sma_at (map Fin values) p i ~= Fin (mean (window values (Z.to_nat p) i)).
Proof.
  intros Hp Hi Hpi. rewrite sma_at_window by assumption. simpl.
  unfold mean. rewrite window_length by lia.
  rewrite foldl_Qplus_Qsum, Z2Nat.id by lia.
  pose proof (inject_Z_pos p Hp). field. lra.
Qed.

Lemma sma_at_isNaN (values : list Q) (p : Z) (i : nat) :
  (0 < p)%Z → (i < length values)%nat →
  isNaN (sma_at (map Fin values) p i) = false ↔ (p - 1 ≤ Z.of_nat i)%Z.
Proof.
  intros Hp Hi. destruct (Z.le_gt_cases (p - 1) (Z.of_nat i)) as [H|H].
  - rewrite sma_at_window by assumption. simpl. tauto.
  - unfold sma_at. destruct (Z.ltb_spec (Z.of_nat i) (p - 1)); [|lia].
    simpl. split; [discriminate | lia].
Qed.

(** C7.  For every series of [L] finite prices and every period [p > 0],
    [calculateSMA] returns [L] entries; exactly [max(0, L - p + 1)] of them
    are defined, namely those at the indices [p - 1 .. L - 1]; each defined
    entry is the arithmetic mean of the [p] values ending at its index; and
    for a series beginning 100, 102, 101, 105, 103 the entry of SMA(5) at
    index 4 is 102.2. *)
Theorem calculateSMA_spec (values : list Q) (p : Z) :
  (0 < p)%Z →
  let sma := calculateSMA (map Fin values) p in
  let L := length values in
  length sma = L
  ∧ count_defined sma = Z.to_nat (Z.max 0 (Z.of_nat L - p + 1))
  ∧ (∀ i, (i < L)%nat → defined (get sma i) ↔ (p - 1 ≤ Z.of_nat i)%Z)
  ∧ (∀ i, (i < L)%nat → (p - 1 ≤ Z.of_nat i)%Z →
       get sma i ~= Fin (mean (window values (Z.to_nat p) i)))
  ∧ (∀ rest, get (calculateSMA (map Fin ([100; 102; 101; 105; 103] ++ rest)) 5) 4
             ~= Fin 102.2).
Proof.
  intros Hp sma L. subst sma L.
  split; [rewrite calculateSMA_length, length_map; reflexivity|].
  split.
  { rewrite calculateSMA_map, length_map.
    rewrite (count_defined_map_seq _ _ (Z.to_nat (p - 1))).
    - lia.
    - intros i Hi. rewrite sma_at_isNaN by assumption. lia. }
  split.
  { intros i Hi. unfold defined.
    rewrite calculateSMA_get by (rewrite length_map; exact Hi).
    apply sma_at_isNaN; assumption. }
  split.
  { intros i Hi Hpi.
    rewrite calculateSMA_get by (rewrite length_map; exact Hi).
    apply sma_at_mean; assumption. }
  intros rest.
  rewrite calculateSMA_get by (rewrite length_map, length_app; simpl; lia).
  rewrite sma_at_mean by (rewrite ?length_app; simpl; lia).
  vm_compute. reflexivity.
Qed.

(** The theorem at the example series with period 5. *)
Lemma calculateSMA_spec_witness :
  get (calculateSMA (map Fin example_series) 5) 4 ~= Fin 102.2
  ∧ count_defined (calculateSMA (map Fin example_series) 5) = 16%nat.
Proof.
  pose proof (calculateSMA_spec example_series 5 ltac:(lia)) as H.
  cbv zeta in H. destruct H as (_ & Hcount & _ & _ & Hex).
  split; [exact (Hex (drop 5 example_series)) | exact Hcount].
Defined.

End SMA.

(** ** Relative strength index *)

Module RSI.
Import TechnicalIndicators.

Lemma nlt_Fin a b : nlt (Fin a) (Fin b) = true ↔ a < b.
Proof. simpl. rewrite Qlt_alt. destruct (a ?= b); split; congruence. Qed.

Lemma nlt_Fin_false a b : nlt (Fin a) (Fin b) = false ↔ b <= a.
Proof.
  split; intros H.
  - apply Qnot_lt_le. intros Hlt. apply nlt_Fin in Hlt. congruence.
  - destruct (nlt (Fin a) (Fin b)) eqn:E; [|reflexivity].
    apply nlt_Fin in E. apply Qle_not_lt in H. contradiction.
Qed.

Lemma Qeq_bool_false a b : Qeq_bool a b = false ↔ ¬ a == b.
Proof.
  split.
  - intros H Heq. apply Qeq_bool_iff in Heq. congruence.
  - intros H. destruct (Qeq_bool a b) eqn:E; [|reflexivity].
    apply Qeq_bool_iff in E. contradiction.
Qed.

Lemma get_push_last (l : list number) x : get (push l x) (length l) = x.
Proof. unfold get, push. apply nth_middle. Qed.

Lemma get_push_at (l : list number) x n : length l = n → get (push l x) n = x.
Proof. intros <-. apply get_push_last. Qed.

Lemma get_push_before (l : list number) x i :
  (i < length l)%nat → get (push l x) i = get l i.
Proof. intros H. unfold get, push. apply app_nth1, H. Qed.

Lemma get_Fin (values : list Q) i :
  (i < length values)%nat → get (map Fin values) i = Fin (nth i values 0).
Proof.
  intros H. unfold get. rewrite (nth_indep _ NaN (Fin 0)) by (rewrite length_map; lia).
  apply map_nth.
Qed.

(** The gain and the loss pushed for a change [c]. *)
Lemma gain_loss_shape (c : Q) :
  ∃ g l,
    (if ngt (Fin c) (Fin 0) then Fin c else Fin 0) = Fin g
    ∧ (if nlt (Fin c) (Fin 0) then nneg (Fin c) else Fin 0) = Fin l
    ∧ 0 <= g ∧ 0 <= l ∧ (g == 0 ∨ l == 0)
    ∧ (0 < c → 0 < g ∧ l == 0) ∧ (c < 0 → g == 0 ∧ 0 < l).
Proof.
  unfold ngt.
  destruct (nlt (Fin 0) (Fin c)) eqn:Eg; destruct (nlt (Fin c) (Fin 0)) eqn:El;
    first [apply nlt_Fin in Eg | apply nlt_Fin_false in Eg];
    first [apply nlt_Fin in El | apply nlt_Fin_false in El]; simpl.
  - lra.
  - exists c, 0. split; [reflexivity|]. split; [reflexivity|].
    split; [lra|]. split; [lra|]. split; [right; reflexivity|].
    split; intros; split; try reflexivity; lra.
  - exists 0, (- c). split; [reflexivity|]. split; [reflexivity|].
    split; [lra|]. split; [lra|]. split; [left; reflexivity|].
    split; intros; split; try reflexivity; lra.
  - exists 0, 0. split; [reflexivity|]. split; [reflexivity|].
    split; [lra|]. split; [lra|]. split; [left; reflexivity|].
    split; intros; split; try reflexivity; lra.
Qed.

Lemma sum_nonneg_from (a : Q) (l : list number) :
  0 <= a → Forall nonneg l → nonneg (foldl nadd (Fin a) l).
Proof.
  revert a. induction l as [|x l IH]; intros a Ha Hl; simpl.
  - exists a. split; [reflexivity | exact Ha].
  - inversion Hl as [|? ? (q & -> & Hq) Hl']; subst. simpl. apply IH; [lra | assumption].
Qed.

Lemma Forall_slice {A} (P : A → Prop) (l : list A) s e :
  Forall P l → Forall P (slice l s e).
Proof. intros H. unfold slice. apply Forall_take, Forall_drop, H. Qed.

Lemma Qdiv_nonneg a b : 0 <= a → 0 < b → 0 <= a / b.
Proof. intros Ha Hb. apply Qle_shift_div_l; [exact Hb | lra]. Qed.

Lemma Qdiv_pos a b : 0 < a → 0 < b → 0 < a / b.
Proof. intros Ha Hb. apply Qlt_shift_div_l; [exact Hb | lra]. Qed.

Lemma inject_Z_nonneg p : (0 ≤ p)%Z → 0 <= inject_Z p.
Proof. intros H. change 0 with (inject_Z 0). rewrite <- Zle_Qle. exact H. Qed.

Lemma inject_Z_neg p : (p < 0)%Z → inject_Z p < 0.
Proof. intros H. change 0 with (inject_Z 0). rewrite <- Zlt_Qlt. exact H. Qed.

(** *** The range of the entries *)

Lemma rsi_of_same_sign a b :
  (0 <= a ∧ 0 <= b) ∨ (a <= 0 ∧ b <= 0) →
  within 0 100 (rsi_of (Fin a) (Fin b)).
Proof.
  intros Hs. unfold rsi_of. simpl nseq.
  destruct (Qeq_bool b 0) eqn:Eb.
  - destruct (Qeq_bool a 0); eexists; (split; [reflexivity | lra]).
  - apply Qeq_bool_false in Eb.
    assert (Hr : 0 <= a / b).
    { destruct Hs as [[Ha Hb]|[Ha Hb]].
      - apply Qdiv_nonneg; lra.
      - assert (E : a / b == (- a) / (- b)) by (field; lra).
        rewrite E. apply Qdiv_nonneg; lra. }
    rewrite ndiv_Fin_nonzero by exact Eb. simpl nadd.
    rewrite ndiv_Fin_nonzero by lra. simpl.
    eexists; split; [reflexivity|].
    assert (0 < 100 / (1 + a / b)) by (apply Qdiv_pos; lra).
    assert (100 / (1 + a / b) <= 100) by (apply Qle_shift_div_r; lra).
    lra.
Qed.

Lemma rsi_of_averages_ok p aG aL :
  averages_ok p aG aL → marker_or_within 0 100 (rsi_of aG aL).
Proof.
  unfold averages_ok. destruct (p ?= 0)%Z.
  - intros [(a & b & -> & -> & Ha & Hb) | (HG & HL & Hnan)].
    + right. apply rsi_of_same_sign. lra.
    + left. unfold rsi_of.
      destruct aL as [| | |b]; simpl in HL; try tauto;
        destruct aG as [| | |a]; simpl in HG; try tauto;
        destruct Hnan; try discriminate; reflexivity.
  - intros (a & b & -> & -> & Ha & Hb). right. apply rsi_of_same_sign. lra.
  - intros (a & b & -> & -> & Ha & Hb). right. apply rsi_of_same_sign. lra.
Qed.

(** Wilder's smoothing of one finite average. *)
Lemma smooth_Fin a g p :
  (p ≠ 0)%Z →
  ndiv (nadd (nmul (Fin a) (ofZ (p - 1))) (Fin g)) (ofZ p)
  = Fin ((a * inject_Z (p - 1) + g) / inject_Z p).
Proof.
  intros Hp. unfold ofZ. simpl nmul. simpl nadd.
  apply ndiv_Fin_nonzero.
  intros H. unfold Qeq in H. simpl in H. lia.
Qed.

Lemma smooth_zero_period x g :
  nonneg g →
  let x' := ndiv (nadd (nmul x (ofZ (0 - 1))) g) (ofZ 0) in
  ¬ is_finite x' ∧ (x = NaN → x' = NaN)
  ∧ (∀ a, x = Fin a → a == 0 → zero g → x' = NaN).
Proof.
  intros (q & -> & Hq). cbv zeta.
  destruct x as [| | |a]; simpl; try tauto.
  - repeat split; try tauto; discriminate.
  - repeat split; try tauto; discriminate.
  - change (Qeq_bool (inject_Z 0) 0) with true. cbv iota.
    destruct (a * inject_Z (0 - 1) + q ?= 0) eqn:E; simpl;
      (split; [tauto|]); (split; [discriminate|]); intros a' [= <-] Ha (q' & [= <-] & Hq');
      try reflexivity.
    + apply Qlt_alt in E. change (inject_Z (0 - 1)) with (-1 # 1) in E. lra.
    + apply Qgt_alt in E. change (inject_Z (0 - 1)) with (-1 # 1) in E. lra.
Qed.

Lemma smooth_averages_ok p aG aL g l :
  (1 ≤ p ∨ p ≤ 0)%Z →
  averages_ok p aG aL → nonneg g → nonneg l → (zero g ∨ zero l) →
  averages_ok p
    (ndiv (nadd (nmul aG (ofZ (p - 1))) g) (ofZ p))
    (ndiv (nadd (nmul aL (ofZ (p - 1))) l) (ofZ p)).
Proof.
  intros Hp Hok Hg Hl Hz. unfold averages_ok in *.
  destruct (Z.compare_spec p 0) as [-> | Hneg | Hpos].
  - pose proof (smooth_zero_period aG g Hg) as (HG1 & HG2 & HG3).
    pose proof (smooth_zero_period aL l Hl) as (HL1 & HL2 & HL3).
    right. split; [exact HG1|]. split; [exact HL1|].
    destruct Hok as [(a & b & -> & -> & Ha & Hb) | (_ & _ & [-> | ->])].
    + destruct Hz as [Hz|Hz]; [left; eapply HG3 | right; eapply HL3]; eauto.
    + left. apply HG2. reflexivity.
    + right. apply HL2. reflexivity.
  - destruct Hok as (a & b & -> & -> & Ha & Hb).
    destruct Hg as (gq & -> & Hgq). destruct Hl as (lq & -> & Hlq).
    rewrite !smooth_Fin by lia.
    pose proof (inject_Z_neg p Hneg). pose proof (inject_Z_neg (p - 1) ltac:(lia)).
    eexists _, _. split; [reflexivity|]. split; [reflexivity|].
    assert (Hdiv : ∀ x, 0 <= x → x / inject_Z p <= 0).
    { intros x Hx.
      assert (E : x / inject_Z p == - (x / (- inject_Z p))) by (field; lra).
      pose proof (Qdiv_nonneg x (- inject_Z p) Hx ltac:(lra)). lra. }
    split; apply Hdiv; nra.
  - destruct Hok as (a & b & -> & -> & Ha & Hb).
    destruct Hg as (gq & -> & Hgq). destruct Hl as (lq & -> & Hlq).
    rewrite !smooth_Fin by lia.
    pose proof (inject_Z_pos p Hpos). pose proof (inject_Z_nonneg (p - 1) ltac:(lia)).
    eexists _, _. split; [reflexivity|]. split; [reflexivity|].
    split; apply Qdiv_nonneg; try lra; nra.
Qed.

Lemma initial_averages_ok p gs ls :
  (0 < p)%Z → Forall nonneg gs → Forall nonneg ls →
  averages_ok p (ndiv (sum gs) (ofZ p)) (ndiv (sum ls) (ofZ p)).
Proof.
  intros Hp Hg Hl. unfold averages_ok.
  destruct (Z.compare_spec p 0); try lia.
  destruct (sum_nonneg_from 0 gs ltac:(lra) Hg) as (a & Ea & Ha).
  destruct (sum_nonneg_from 0 ls ltac:(lra) Hl) as (b & Eb & Hb).
  unfold sum, ofZ. rewrite Ea, Eb.
  pose proof (inject_Z_pos p Hp).
  rewrite !ndiv_Fin_nonzero by lra.
  eexists _, _. split; [reflexivity|]. split; [reflexivity|].
  split; apply Qdiv_nonneg; lra.
Qed.

Lemma averages_ok_init p : averages_ok p (Fin 0) (Fin 0).
Proof.
  unfold averages_ok. destruct (p ?= 0)%Z.
  - left. exists 0, 0. repeat split; reflexivity.
  - exists 0, 0. repeat split; try reflexivity; lra.
  - exists 0, 0. repeat split; try reflexivity; lra.
Qed.

Lemma Forall_push {A} (P : A → Prop) l x : Forall P l → P x → Forall P (push l x).
Proof. intros Hl Hx. unfold push. apply Forall_app. split; [exact Hl | constructor; [exact Hx | constructor]]. Qed.

Lemma length_push {A} (l : list A) x : length (push l x) = Datatypes.S (length l).
Proof. unfold push. rewrite length_app. simpl. lia. Qed.

Lemma rsi_step_invariant (values : list Q) p n st :
  (n < length values)%nat →
  rsi_invariant p n st →
  rsi_invariant p (Datatypes.S n) (rsi_step (map Fin values) p n st).
Proof.
  intros Hn [Hlg Hll Hlr Hg Hl Havg Hr]. unfold rsi_step.
  destruct (Nat.eqb_spec n 0) as [-> | Hn0].
  { split; simpl; rewrite ?length_push; try congruence;
      try (apply Forall_push; [assumption|]); try assumption.
    - exists 0. split; [reflexivity | lra].
    - exists 0. split; [reflexivity | lra].
    - left; reflexivity. }
  rewrite !get_Fin by lia. simpl nsub.
  destruct (gain_loss_shape (nth n values 0 + - nth (n - 1) values 0))
    as (g & l & -> & -> & Hg0 & Hl0 & Hgl & _).
  assert (Hg' : Forall nonneg (push (gains st) (Fin g))).
  { apply Forall_push; [assumption|]. exists g. split; [reflexivity | assumption]. }
  assert (Hl' : Forall nonneg (push (losses st) (Fin l))).
  { apply Forall_push; [assumption|]. exists l. split; [reflexivity | assumption]. }
  destruct (Z.ltb_spec (Z.of_nat n) p) as [Hlt | Hge].
  { split; simpl; rewrite ?length_push; try congruence; try assumption.
    apply Forall_push; [assumption | left; reflexivity]. }
  destruct (Z.eqb_spec (Z.of_nat n) p) as [Heq | Hne].
  { assert (Hok : averages_ok p
        (ndiv (sum (slice (push (gains st) (Fin g)) 1 (p + 1))) (ofZ p))
        (ndiv (sum (slice (push (losses st) (Fin l)) 1 (p + 1))) (ofZ p))).
    { apply initial_averages_ok; [lia | |]; apply Forall_slice; assumption. }
    split; simpl; rewrite ?length_push; try congruence; try assumption.
    apply Forall_push; [assumption|]. apply rsi_of_averages_ok with (p := p), Hok. }
  assert (Hok : averages_ok p
      (ndiv (nadd (nmul (avgGain st) (ofZ (p - 1))) (get (push (gains st) (Fin g)) n)) (ofZ p))
      (ndiv (nadd (nmul (avgLoss st) (ofZ (p - 1))) (get (push (losses st) (Fin l)) n)) (ofZ p))).
  { rewrite (get_push_at _ _ _ Hlg), (get_push_at _ _ _ Hll).
    apply smooth_averages_ok; [lia | assumption | | |].
    - exists g. split; [reflexivity | assumption].
    - exists l. split; [reflexivity | assumption].
    - destruct Hgl; [left; exists g | right; exists l]; split; auto. }
  split; simpl; rewrite ?length_push; try congruence; try assumption.
  apply Forall_push; [assumption|]. apply rsi_of_averages_ok with (p := p), Hok.
Qed.

Lemma rsi_loop_invariant (values : list Q) p n :
  (n ≤ length values)%nat →
  rsi_invariant p n
    (for_loop n (rsi_step (map Fin values) p) (mkRSI [] [] [] (Fin 0) (Fin 0))).
Proof.
  induction n as [|n IH]; intros Hn.
  - split; simpl; try reflexivity; try constructor. apply averages_ok_init.
  - rewrite for_loop_S. apply rsi_step_invariant; [lia | apply IH; lia].
Qed.

Lemma calculateRSI_range (values : list Q) (p : Z) (i : nat) :
  defined (get (calculateRSI (map Fin values) p) i) →
  within 0 100 (get (calculateRSI (map Fin values) p) i).
Proof.
  unfold calculateRSI. rewrite length_map.
  pose proof (rsi_loop_invariant values p (length values) ltac:(lia)) as [_ _ Hlen _ _ _ Hr].
  set (out := rsi _) in *. intros Hdef.
  destruct (Nat.lt_ge_cases i (length out)) as [Hi | Hi].
  - rewrite List.Forall_forall in Hr. destruct (Hr (get out i)) as [E | Hw].
    + apply nth_In, Hi.
    + unfold defined in Hdef. rewrite E in Hdef. discriminate.
    + exact Hw.
  - unfold get in Hdef. rewrite nth_overflow in Hdef by lia. discriminate.
Qed.


(** *** Series that only rise, or only fall *)

Lemma sum_positive_from (a : Q) (l : list number) :
  0 < a → Forall positive l → positive (foldl nadd (Fin a) l).
Proof.
  revert a. induction l as [|x l IH]; intros a Ha Hl; simpl.
  - exists a. split; [reflexivity | exact Ha].
  - inversion Hl as [|? ? (q & -> & Hq) Hl']; subst. simpl. apply IH; [lra | assumption].
Qed.

Lemma sum_zero_from (a : Q) (l : list number) :
  a == 0 → Forall zero l → zero (foldl nadd (Fin a) l).
Proof.
  revert a. induction l as [|x l IH]; intros a Ha Hl; simpl.
  - exists a. split; [reflexivity | exact Ha].
  - inversion Hl as [|? ? (q & -> & Hq) Hl']; subst. simpl. apply IH; [lra | assumption].
Qed.

Lemma preserved_positive : preserved positive.
Proof.
  split.
  - intros [|x l] Hne Hl; [congruence|].
    inversion Hl as [|? ? (q & -> & Hq) Hl']; subst.
    unfold sum. simpl. apply sum_positive_from; [lra | assumption].
  - intros x p Hp (q & -> & Hq). pose proof (inject_Z_pos p Hp).
    unfold ofZ. rewrite ndiv_Fin_nonzero by lra.
    eexists; split; [reflexivity | apply Qdiv_pos; lra].
  - intros a g p Hp (qa & -> & Ha) (qg & -> & Hg).
    rewrite smooth_Fin by lia.
    pose proof (inject_Z_pos p Hp). pose proof (inject_Z_nonneg (p - 1) ltac:(lia)).
    eexists; split; [reflexivity | apply Qdiv_pos; [nra | lra]].
Qed.

Lemma preserved_zero : preserved zero.
Proof.
  split.
  - intros l _ Hl. unfold sum. apply sum_zero_from; [reflexivity | assumption].
  - intros x p Hp (q & -> & Hq). pose proof (inject_Z_pos p Hp).
    unfold ofZ. rewrite ndiv_Fin_nonzero by lra.
    eexists; split; [reflexivity|]. rewrite Hq. field. lra.
  - intros a g p Hp (qa & -> & Ha) (qg & -> & Hg).
    rewrite smooth_Fin by lia. pose proof (inject_Z_pos p Hp).
    eexists; split; [reflexivity|]. rewrite Ha, Hg. field. lra.
Qed.

Lemma rsi_of_rising a b : positive a → zero b → rsi_of a b ~= Fin 100.
Proof.
  intros (qa & -> & Ha) (qb & -> & Hb). unfold rsi_of. simpl nseq.
  apply Qeq_bool_iff in Hb. rewrite Hb.
  assert (E : Qeq_bool qa 0 = false) by (apply Qeq_bool_false; lra).
  rewrite E. simpl. reflexivity.
Qed.

Lemma rsi_of_falling a b : zero a → positive b → rsi_of a b ~= Fin 0.
Proof.
  intros (qa & -> & Ha) (qb & -> & Hb). unfold rsi_of. simpl nseq.
  assert (E : Qeq_bool qb 0 = false) by (apply Qeq_bool_false; lra).
  rewrite E. rewrite ndiv_Fin_nonzero by lra. simpl nadd.
  assert (Hr : qa / qb == 0) by (rewrite Ha; field; lra).
  rewrite ndiv_Fin_nonzero by lra. simpl. rewrite Hr. field.
Qed.

Lemma drop_1_push {A} (l : list A) x :
  l ≠ [] → drop 1 (push l x) = push (drop 1 l) x.
Proof. destruct l; [congruence | reflexivity]. Qed.

Section Monotone.

Variables (G L : number → Prop) (v : number).
Hypothesis HG : preserved G.
Hypothesis HL : preserved L.
Hypothesis Hv : ∀ a b, G a → L b → rsi_of a b ~= v.

Variables (values : list Q) (p : Z).
Hypothesis Hp : (1 ≤ p)%Z.

Lemma rsi_step_monotone n st :
  (n < length values)%nat →
  (n ≠ 0%nat → G (gain_at values n) ∧ L (loss_at values n)) →
  rsi_monotone_invariant G L v p n st →
  rsi_monotone_invariant G L v p (Datatypes.S n) (rsi_step (map Fin values) p n st).
Proof.
  intros Hn Hgl [Hlg Hll Hlr Hg Hl Hearly Hlate]. unfold rsi_step.
  destruct (Nat.eqb_spec n 0) as [-> | Hn0].
  { destruct (gains st); [|discriminate]. destruct (losses st); [|discriminate].
    split; simpl; rewrite ?length_push; try congruence; try apply Forall_nil; try lia.
    intros _. apply Hearly. lia. }
  destruct (Hgl Hn0) as [HGn HLn].
  rewrite !get_Fin by lia. simpl nsub.
  change (nth n values 0 + - nth (n - 1) values 0) with (change values n).
  fold (gain_at values n). fold (loss_at values n).
  assert (Hg' : Forall G (drop 1 (push (gains st) (gain_at values n)))).
  { rewrite drop_1_push by (intros E; rewrite E in Hlg; simpl in Hlg; lia).
    apply Forall_push; assumption. }
  assert (Hl' : Forall L (drop 1 (push (losses st) (loss_at values n)))).
  { rewrite drop_1_push by (intros E; rewrite E in Hll; simpl in Hll; lia).
    apply Forall_push; assumption. }
  destruct (Z.ltb_spec (Z.of_nat n) p) as [Hlt | Hge].
  { split; simpl; rewrite ?length_push; try congruence; try assumption; try lia.
    intros _. apply Hearly. lia. }
  destruct (Z.eqb_spec (Z.of_nat n) p) as [Heq | Hne].
  { assert (Hwin : ∀ (P : number → Prop) (l : list number),
        length l = Datatypes.S n → Forall P (drop 1 l) →
        slice l 1 (p + 1) ≠ [] ∧ Forall P (slice l 1 (p + 1))).
    { intros P l Hlen HP. rewrite slice_window by lia. split.
      - intros E. apply (f_equal length) in E.
        rewrite length_take, length_drop in E. simpl in E. lia.
      - apply Forall_take. exact HP. }
    destruct (Hwin G (push (gains st) (gain_at values n))) as [HneG HallG];
      [rewrite length_push; lia | exact Hg' |].
    destruct (Hwin L (push (losses st) (loss_at values n))) as [HneL HallL];
      [rewrite length_push; lia | exact Hl' |].
    assert (HaG : G (ndiv (sum (slice (push (gains st) (gain_at values n)) 1 (p + 1))) (ofZ p))).
    { apply (preserved_div G HG); [lia|]. apply (preserved_sum G HG); assumption. }
    assert (HaL : L (ndiv (sum (slice (push (losses st) (loss_at values n)) 1 (p + 1))) (ofZ p))).
    { apply (preserved_div L HL); [lia|]. apply (preserved_sum L HL); assumption. }
    split; simpl; rewrite ?length_push; try congruence; try assumption; try lia.
    intros _. split; [exact HaG|]. split; [exact HaL|].
    rewrite Nat.sub_0_r, (get_push_at _ _ _ Hlr).
    apply Hv; assumption. }
  destruct Hlate as (HaG & HaL & _); [lia|].
  assert (HaG' : G (ndiv (nadd (nmul (avgGain st) (ofZ (p - 1)))
                            (get (push (gains st) (gain_at values n)) n)) (ofZ p))).
  { rewrite (get_push_at _ _ _ Hlg).
    apply (preserved_smooth G HG); [lia | assumption | assumption]. }
  assert (HaL' : L (ndiv (nadd (nmul (avgLoss st) (ofZ (p - 1)))
                            (get (push (losses st) (loss_at values n)) n)) (ofZ p))).
  { rewrite (get_push_at _ _ _ Hll).
    apply (preserved_smooth L HL); [lia | assumption | assumption]. }
  split; simpl; rewrite ?length_push; try congruence; try assumption; try lia.
  intros _. split; [exact HaG'|]. split; [exact HaL'|].
  rewrite Nat.sub_0_r, (get_push_at _ _ _ Hlr).
  apply Hv; assumption.
Qed.

Lemma rsi_loop_monotone n :
  (n ≤ length values)%nat →
  (∀ j, (0 < j < n)%nat → G (gain_at values j) ∧ L (loss_at values j)) →
  rsi_monotone_invariant G L v p n
    (for_loop n (rsi_step (map Fin values) p) (mkRSI [] [] [] (Fin 0) (Fin 0))).
Proof.
  induction n as [|n IH]; intros Hn Hall.
  - split; simpl; try reflexivity; try apply Forall_nil; try lia.
    intros _. split; reflexivity.
  - rewrite for_loop_S. apply rsi_step_monotone; [lia | |].
    + intros Hn0. apply Hall. lia.
    + apply IH; [lia|]. intros j Hj. apply Hall. lia.
Qed.

End Monotone.

Lemma rsi_step_pushes prices p n st :
  ∃ x, rsi (rsi_step prices p n st) = push (rsi st) x.
Proof.
  unfold rsi_step.
  repeat match goal with
         | |- context [if ?c then _ else _] => destruct c
         end; simpl; eexists; reflexivity.
Qed.

Lemma rsi_prefix prices p i n m :
  (i < n)%nat → (n ≤ m)%nat →
  length (rsi (for_loop n (rsi_step prices p) (mkRSI [] [] [] (Fin 0) (Fin 0)))) = n →
  get (rsi (for_loop m (rsi_step prices p) (mkRSI [] [] [] (Fin 0) (Fin 0)))) i
  = get (rsi (for_loop n (rsi_step prices p) (mkRSI [] [] [] (Fin 0) (Fin 0)))) i
  ∧ length (rsi (for_loop m (rsi_step prices p) (mkRSI [] [] [] (Fin 0) (Fin 0)))) = m.
Proof.
  intros Hi Hnm Hlen. induction Hnm as [|m Hnm [IHget IHlen]].
  - split; [reflexivity | exact Hlen].
  - rewrite for_loop_S.
    destruct (rsi_step_pushes prices p m
                (for_loop m (rsi_step prices p) (mkRSI [] [] [] (Fin 0) (Fin 0))))
      as [x ->].
    split.
    + rewrite get_push_before by lia. exact IHget.
    + rewrite length_push. lia.
Qed.

Lemma calculateRSI_monotone (G L : number → Prop) (v : number)
    (values : list Q) (p : Z) (i : nat) :
  preserved G → preserved L → (∀ a b, G a → L b → rsi_of a b ~= v) →
  (1 ≤ p)%Z → (p ≤ Z.of_nat i)%Z → (i < length values)%nat →
  (∀ j, (0 < j ≤ i)%nat → G (gain_at values j) ∧ L (loss_at values j)) →
  get (calculateRSI (map Fin values) p) i ~= v.
Proof.
  intros HG HL Hv Hp Hpi Hi Hall.
  pose proof (rsi_loop_monotone G L v HG HL Hv values p Hp (Datatypes.S i) ltac:(lia))
    as [_ _ Hlen _ _ _ Hlate].
  { intros j Hj. apply Hall. lia. }
  destruct Hlate as (_ & _ & Hget); [lia|].
  unfold calculateRSI. rewrite length_map.
  destruct (rsi_prefix (map Fin values) p i (Datatypes.S i) (length values)
              ltac:(lia) ltac:(lia) Hlen) as [-> _].
  replace (Datatypes.S i - 1)%nat with i in Hget by lia. exact Hget.
Qed.

Lemma calculateRSI_all_gains (values : list Q) (p : Z) (i : nat) :
  (1 ≤ p)%Z → (p ≤ Z.of_nat i)%Z → (i < length values)%nat →
  all_gains values 0 i →
  get (calculateRSI (map Fin values) p) i ~= Fin 100.
Proof.
  intros Hp Hpi Hi Hall.
  apply (calculateRSI_monotone positive zero); auto using preserved_positive, preserved_zero, rsi_of_rising.
  intros j Hj. specialize (Hall j Hj). unfold gain_at, loss_at.
  destruct (gain_loss_shape (change values j)) as (g & l & -> & -> & _ & _ & _ & Hpos & _).
  destruct (Hpos Hall). split; [exists g | exists l]; auto.
Qed.

Lemma calculateRSI_all_losses (values : list Q) (p : Z) (i : nat) :
  (1 ≤ p)%Z → (p ≤ Z.of_nat i)%Z → (i < length values)%nat →
  all_losses values 0 i →
  get (calculateRSI (map Fin values) p) i ~= Fin 0.
Proof.
  intros Hp Hpi Hi Hall.
  apply (calculateRSI_monotone zero positive); auto using preserved_positive, preserved_zero, rsi_of_falling.
  intros j Hj. specialize (Hall j Hj). unfold gain_at, loss_at.
  destruct (gain_loss_shape (change values j)) as (g & l & -> & -> & _ & _ & _ & _ & Hneg).
  destruct (Hneg Hall). split; [exists g | exists l]; auto.
Qed.


(** C3, as the code has it.  For every series of finite prices and every
    integer period, each defined entry of [calculateRSI] lies in [0, 100];
    and at an index [i] with [1 <= period <= i], if every price change from
    the start of the series up to [i] is a gain the entry is 100, and if
    every one is a loss it is 0. *)
Theorem calculateRSI_spec (values : list Q) (p : Z) :
  let rsi := calculateRSI (map Fin values) p in
  (∀ i, defined (get rsi i) → within 0 100 (get rsi i))
  ∧ (∀ i, (1 ≤ p)%Z → (p ≤ Z.of_nat i)%Z → (i < length values)%nat →
       (all_gains values 0 i → get rsi i ~= Fin 100)
       ∧ (all_losses values 0 i → get rsi i ~= Fin 0)).
Proof.
  cbv zeta. split.
  - intros i. apply calculateRSI_range.
  - intros i Hp Hpi Hi. split; intros Hall.
    + apply calculateRSI_all_gains; assumption.
    + apply calculateRSI_all_losses; assumption.
Qed.

(** The theorem at a rising series: period 2, index 3. *)
Lemma calculateRSI_spec_witness :
  get (calculateRSI (map Fin [1; 2; 4; 7]) 2) 3 ~= Fin 100.
Proof.
  refine (proj1 (proj2 (calculateRSI_spec [1; 2; 4; 7] 2) 3%nat _ _ _) _).
  - lia.
  - simpl. lia.
  - simpl. lia.
  - intros j Hj. assert (Hc : j = 1%nat ∨ j = 2%nat ∨ j = 3%nat) by lia.
    destruct Hc as [-> | [-> | ->]]; reflexivity.
Defined.

(** C3 as stated fails: with period 2 the two changes of the window that
    ends at index 3 of 10, 9, 10, 11 are both gains, yet the entry there is
    75, because the smoothed average loss still carries the earlier fall. *)
Lemma calculateRSI_trailing_gains_counterexample :
  all_gains [10; 9; 10; 11] 1 3
  ∧ get (calculateRSI (map Fin [10; 9; 10; 11]) 2) 3 ~= Fin 75
  ∧ ¬ get (calculateRSI (map Fin [10; 9; 10; 11]) 2) 3 ~= Fin 100.
Proof.
  split; [|split].
  - intros j Hj. assert (Hc : j = 2%nat ∨ j = 3%nat) by lia.
    destruct Hc as [-> | ->]; reflexivity.
  - vm_compute. reflexivity.
  - vm_compute. discriminate.
Qed.

End RSI.

(** ** Prediction validator: the metrics of one prediction *)

Module Metrics.
Import PredictionValidationJob.
Import RSI.

Lemma ngt_Fin a b : ngt (Fin a) (Fin b) = true ↔ b < a.
Proof. unfold ngt. apply nlt_Fin. Qed.

Lemma truthy_Fin q : truthy (Fin q) = false ↔ q == 0.
Proof.
  simpl. destruct (Qeq_bool q 0) eqn:E; simpl.
  - apply Qeq_bool_iff in E. tauto.
  - apply Qeq_bool_false in E. split; [discriminate | tauto].
Qed.

Lemma tradingReturn_of_computed p actualPrice previousPrice :
  Prediction.predictedDirection p = "up" ∨ Prediction.predictedDirection p = "down" →
  is_Some (tradingReturn_of p actualPrice previousPrice)
  ↔ 0.50 < Prediction.confidence p.
Proof.
  intros Hdir. unfold tradingReturn_of.
  destruct (ngt (Fin (Prediction.confidence p)) (Fin 0.50)) eqn:E.
  - apply ngt_Fin in E. split; [intros _; exact E | intros _].
    destruct Hdir as [-> | ->]; simpl; eauto.
  - split; [intros [? [=]] | intros H]. apply ngt_Fin in H. congruence.
Qed.

Lemma tradingReturn_of_up p actualPrice previousPrice :
  Prediction.predictedDirection p = "up" →
  0.50 < Prediction.confidence p →
  ¬ StockPrice.close previousPrice == 0 →
  ∃ r, tradingReturn_of p actualPrice previousPrice = Some (Fin r)
       ∧ r == (StockPrice.close actualPrice - StockPrice.close previousPrice)
              / StockPrice.close previousPrice * 100 * Prediction.confidence p - 0.2.
Proof.
  intros Hdir Hc Hb. unfold tradingReturn_of.
  apply ngt_Fin in Hc. rewrite Hc, Hdir. simpl String.eqb. cbv iota.
  apply Qeq_bool_false in Hb. simpl. rewrite Hb.
  eexists. split; [reflexivity|]. unfold Qminus. reflexivity.
Qed.

Lemma tradingReturn_of_down p actualPrice previousPrice :
  Prediction.predictedDirection p = "down" →
  0.50 < Prediction.confidence p →
  ¬ StockPrice.close previousPrice == 0 →
  ∃ r, tradingReturn_of p actualPrice previousPrice = Some (Fin r)
       ∧ r == (StockPrice.close previousPrice - StockPrice.close actualPrice)
              / StockPrice.close previousPrice * 100 * Prediction.confidence p - 0.2.
Proof.
  intros Hdir Hc Hb. unfold tradingReturn_of.
  apply ngt_Fin in Hc. rewrite Hc, Hdir. simpl String.eqb. cbv iota.
  apply Qeq_bool_false in Hb. simpl. rewrite Hb.
  eexists. split; [reflexivity|]. unfold Qminus. reflexivity.
Qed.

(** C5.  For a prediction whose direction is "up" or "down", the validator
    computes a trading return if and only if the confidence exceeds 0.50;
    it is then [((actual - baseline) / baseline * 100) * confidence - 0.2]
    for "up" and [((baseline - actual) / baseline * 100) * confidence - 0.2]
    for "down", in the arithmetic of JavaScript numbers for every baseline
    and as a rational number when the baseline close is not zero;
    and direction "up", confidence 0.8, baseline 100, actual 110 resolve to
    [isCorrect = true] with a stored trading return of 7.8. *)
Theorem tradingReturn_spec (p : Prediction.t) (actualPrice previousPrice : StockPrice.t) :
  Prediction.predictedDirection p = "up" ∨ Prediction.predictedDirection p = "down" →
  let c := Prediction.confidence p in
  let a := StockPrice.close actualPrice in
  let b := StockPrice.close previousPrice in
  (is_Some (tradingReturn_of p actualPrice previousPrice) ↔ 0.50 < c)
  ∧ (0.50 < c →
       tradingReturn_of p actualPrice previousPrice
       = Some (nsub (nmul (nmul (ndiv (if String.eqb (Prediction.predictedDirection p) "up"
                                       then nsub (Fin a) (Fin b)
                                       else nsub (Fin b) (Fin a))
                                      (Fin b))
                                (Fin 100))
                          (Fin c))
                    (Fin 0.2)))
  ∧ (Prediction.predictedDirection p = "up" → 0.50 < c → ¬ b == 0 →
       ∃ r, tradingReturn_of p actualPrice previousPrice = Some (Fin r)
            ∧ r == (a - b) / b * 100 * c - 0.2)
  ∧ (Prediction.predictedDirection p = "down" → 0.50 < c → ¬ b == 0 →
       ∃ r, tradingReturn_of p actualPrice previousPrice = Some (Fin r)
            ∧ r == (b - a) / b * 100 * c - 0.2)
  ∧ (Prediction.predictedDirection p = "up" → c = 0.8 → b = 100 → a = 110 →
       isCorrect (enrichment_of p actualPrice previousPrice) = true
       ∧ ∃ r, tradingReturn (enrichment_of p actualPrice previousPrice) = Some (Fin r)
              ∧ r == 7.8).
Proof.
  intros Hdir c a b. subst c a b.
  split; [apply tradingReturn_of_computed, Hdir|].
  split.
  { intros Hc. apply ngt_Fin in Hc. unfold tradingReturn_of. rewrite Hc.
    destruct Hdir as [-> | ->]; reflexivity. }
  split; [apply tradingReturn_of_up|].
  split; [apply tradingReturn_of_down|].
  intros Hup Hc Hb Ha.
  unfold enrichment_of, tradingReturn_of, isCorrect_of, actualChange_of.
  rewrite Hup, Hc, Hb, Ha. split.
  - vm_compute. reflexivity.
  - eexists. split; [vm_compute; reflexivity | reflexivity].
Qed.

(** The theorem at the specification's example. *)
Lemma tradingReturn_spec_witness :
  isCorrect (enrichment_of (pending "up" 0.8 None (day 1) (day 2))
               (price_at (day 2) 110) (price_at (day 1) 100)) = true
  ∧ ∃ r, tradingReturn (enrichment_of (pending "up" 0.8 None (day 1) (day 2))
                          (price_at (day 2) 110) (price_at (day 1) 100))
         = Some (Fin r) ∧ r == 7.8.
Proof.
  refine (proj2 (proj2 (proj2 (proj2
    (tradingReturn_spec (pending "up" 0.8 None (day 1) (day 2))
       (price_at (day 2) 110) (price_at (day 1) 100) _)))) _ _ _ _);
    first [reflexivity | left; reflexivity].
Defined.


(** *** Metrics that come out as exactly zero *)

Lemma rounded_or_null_zero x r :
  x = Some (Fin r) → r == 0 → rounded_or_null x = None.
Proof.
  intros -> Hr. unfold rounded_or_null.
  apply truthy_Fin in Hr. rewrite Hr. reflexivity.
Qed.

Lemma priceErrorPercent_of_absent p actualPrice q :
  Prediction.predictedPrice p = Some q → q == 0 →
  priceErrorPercent_of p actualPrice = None.
Proof.
  intros Hq H0. unfold priceErrorPercent_of. rewrite Hq.
  apply truthy_Fin in H0. rewrite H0. reflexivity.
Qed.

Lemma priceErrorPercent_of_exact p actualPrice q :
  Prediction.predictedPrice p = Some q → ¬ q == 0 →
  q == StockPrice.close actualPrice →
  ∃ r, priceErrorPercent_of p actualPrice = Some (Fin r) ∧ r == 0.
Proof.
  intros Hq Hq0 Heq. unfold priceErrorPercent_of. rewrite Hq.
  assert (Ht : truthy (Fin q) = true).
  { destruct (truthy (Fin q)) eqn:E; [reflexivity|]. apply truthy_Fin in E. contradiction. }
  rewrite Ht.
  assert (Hc : Qeq_bool (StockPrice.close actualPrice) 0 = false).
  { apply Qeq_bool_false. rewrite <- Heq. exact Hq0. }
  simpl. rewrite Hc. eexists. split; [reflexivity|].
  assert (E : (q + - StockPrice.close actualPrice) / StockPrice.close actualPrice == 0).
  { rewrite Heq. field. rewrite <- Heq. exact Hq0. }
  rewrite E. reflexivity.
Qed.

(** C9.  When the validator resolves a prediction, a trading return or a
    price error whose computed value is exactly 0 is stored as null; for the
    price error this is so when the predicted price equals the actual close.
    A predicted price of 0 counts as absent: no price error is computed or
    stored.  So a resolved prediction can have a null trading return
    although its confidence exceeds 0.50 and a trade was simulated: one
    whose return, gross return times confidence less the fee of 0.2, is
    computed as 0. *)
Theorem zero_metrics_stored_as_null
    (p : Prediction.t) (actualPrice previousPrice : StockPrice.t) :
  let e := enrichment_of p actualPrice previousPrice in
  let a := StockPrice.close actualPrice in
  (∀ r, tradingReturn_of p actualPrice previousPrice = Some (Fin r) → r == 0 →
        tradingReturn e = None)
  ∧ (∀ r, priceErrorPercent_of p actualPrice = Some (Fin r) → r == 0 →
        priceErrorPercent e = None)
  ∧ (∀ q, Prediction.predictedPrice p = Some q → ¬ q == 0 → q == a →
        priceErrorPercent e = None)
  ∧ (∀ q, Prediction.predictedPrice p = Some q → q == 0 →
        priceErrorPercent_of p actualPrice = None ∧ priceErrorPercent e = None)
  ∧ (∃ p' a' b',
       0.50 < Prediction.confidence p'
       ∧ isCorrect (enrichment_of p' a' b') = true
       ∧ tradingReturn (enrichment_of p' a' b') = None
       ∧ ∃ r, tradingReturn_of p' a' b' = Some (Fin r) ∧ r == 0).
Proof.
  cbv zeta. unfold enrichment_of. simpl.
  split; [intros r Hr H0; eapply rounded_or_null_zero; eauto|].
  split; [intros r Hr H0; eapply rounded_or_null_zero; eauto|].
  split.
  { intros q Hq Hq0 Heq.
    destruct (priceErrorPercent_of_exact p actualPrice q Hq Hq0 Heq) as (r & Hr & Er).
    eapply rounded_or_null_zero; eauto. }
  split.
  { intros q Hq H0.
    rewrite (priceErrorPercent_of_absent p actualPrice q Hq H0). split; reflexivity. }
  exists (pending "up" 0.8 None (day 1) (day 2)),
         (price_at (day 2) 100.25), (price_at (day 1) 100).
  split; [reflexivity|]. split; [vm_compute; reflexivity|].
  split; [vm_compute; reflexivity|].
  eexists. split; [vm_compute; reflexivity | reflexivity].
Qed.

(** The theorem at an "up" prediction of confidence 0.8 whose price moved
    from 100 to 100.25: the trading return is computed as 0.25 * 0.8 - 0.2,
    which is 0, and is stored as null. *)
Lemma zero_metrics_stored_as_null_witness :
  tradingReturn_of (pending "up" 0.8 None (day 1) (day 2))
    (price_at (day 2) 100.25) (price_at (day 1) 100)
  = Some (Fin ((100.25 - 100) / 100 * 100 * 0.8 - 0.2))
  ∧ (100.25 - 100) / 100 * 100 * 0.8 - 0.2 == 0
  ∧ tradingReturn (enrichment_of (pending "up" 0.8 None (day 1) (day 2))
                     (price_at (day 2) 100.25) (price_at (day 1) 100)) = None.
Proof.
  assert (Hvalue : tradingReturn_of (pending "up" 0.8 None (day 1) (day 2))
                     (price_at (day 2) 100.25) (price_at (day 1) 100)
                   = Some (Fin ((100.25 - 100) / 100 * 100 * 0.8 - 0.2))).
  { reflexivity. }
  assert (Hzero : (100.25 - 100) / 100 * 100 * 0.8 - 0.2 == 0) by reflexivity.
  split; [exact Hvalue|]. split; [exact Hzero|].
  exact (proj1 (zero_metrics_stored_as_null (pending "up" 0.8 None (day 1) (day 2))
                  (price_at (day 2) 100.25) (price_at (day 1) 100))
           _ Hvalue Hzero).
Defined.

End Metrics.

(** ** Trading simulator *)

Module Simulator.
Import TradingSimulatorService.
Import RSI Metrics.

Lemma total_return_push ts t :
  total_return (push ts t) = nadd (total_return ts) (Trade.return_ t).
Proof. unfold total_return, push. rewrite foldl_app. reflexivity. Qed.

(** One iteration either leaves the ledger alone or makes one trade and adds
    its return to the capital. *)
Lemma replay_step_books strategy ledger prediction :
  replay_step strategy ledger prediction = ledger
  ∨ ∃ t, trades (replay_step strategy ledger prediction) = push (trades ledger) t
         ∧ currentCapital (replay_step strategy ledger prediction)
           = nadd (currentCapital ledger) (Trade.return_ t).
Proof.
  unfold replay_step.
  destruct (bool_decide _); [left; reflexivity|].
  destruct (nlt _ _); [left; reflexivity|].
  right.
  repeat match goal with
         | |- context [if ?c then _ else _] => destruct c
         end; simpl; eexists; split; reflexivity.
Qed.

Lemma replay_step_balanced strategy ledger prediction :
  balanced ledger → balanced (replay_step strategy ledger prediction).
Proof.
  intros Hb. destruct (replay_step_books strategy ledger prediction) as [-> | (t & Ht & Hc)].
  - exact Hb.
  - unfold balanced in *. rewrite Ht, Hc, total_return_push.
    etransitivity; [apply nadd_proper; [exact Hb | reflexivity]|].
    apply nadd_assoc.
Qed.

Lemma foldl_replay_balanced strategy predictions ledger :
  balanced ledger → balanced (foldl (replay_step strategy) ledger predictions).
Proof.
  revert ledger. induction predictions as [|p ps IH]; intros ledger Hb; simpl.
  - exact Hb.
  - apply IH, replay_step_balanced, Hb.
Qed.

Lemma replay_balanced strategy predictions : balanced (replay strategy predictions).
Proof.
  apply foldl_replay_balanced. unfold balanced. simpl.
  unfold startingCapital. simpl. ring.
Qed.

(** C6.  The simulator starts from a capital of 100,000; every trade it
    makes adds that trade's net return to the capital in the same iteration;
    and for every stream of predictions the final capital, which the summary
    reports rounded to two decimals, is the starting capital plus the sum of
    the returns of all the trades of the trade list. *)
Theorem capital_is_start_plus_returns (strategy : TradingStrategy) :
  startingCapital = Fin 100000
  ∧ (∀ ledger prediction,
       replay_step strategy ledger prediction = ledger
       ∨ ∃ t, trades (replay_step strategy ledger prediction) = push (trades ledger) t
              ∧ currentCapital (replay_step strategy ledger prediction)
                = nadd (currentCapital ledger) (Trade.return_ t))
  ∧ (∀ predictions,
       currentCapital (replay strategy predictions)
       ~= nadd startingCapital (total_return (trades (replay strategy predictions))))
  ∧ (∀ db,
       let ledger := replay strategy (qualifying strategy db) in
       let result := simulateHistoricalTrading strategy db in
       summary_startingCapital (summary result) = Fin 100000
       ∧ summary_currentCapital (summary result) = toFixed 2 (currentCapital ledger)
       ∧ result_trades result = map displayed (trades ledger)
       ∧ currentCapital ledger ~= nadd (Fin 100000) (total_return (trades ledger))).
Proof.
  split; [reflexivity|].
  split; [apply replay_step_books|].
  split; [apply replay_balanced|].
  intros db. cbv zeta. unfold simulateHistoricalTrading. simpl.
  repeat split. apply (replay_balanced strategy (qualifying strategy db)).
Qed.

(** *** The open-position guard *)

(** No position is ever recorded, so the guard of the loop never holds. *)
Lemma open_position_guard_never_holds (companyId : Z) :
  bool_decide (is_Some (openPositions !! companyId)) = false.
Proof.
  apply bool_decide_eq_false. unfold openPositions.
  rewrite lookup_empty. intros [? [=]].
Qed.

(** With enough capital every prediction trades, whatever was traded
    before. *)
Lemma replay_step_trades strategy ledger prediction :
  nlt (currentCapital ledger) (Fin (positionSize strategy)) = false →
  ∃ t, trades (replay_step strategy ledger prediction) = push (trades ledger) t
       ∧ Trade.ticker t = Company.ticker (Prediction.company prediction).
Proof.
  intros Hcap. unfold replay_step.
  rewrite open_position_guard_never_holds, Hcap.
  repeat match goal with
         | |- context [if ?c then _ else _] => destruct c
         end; simpl; eexists; split; reflexivity.
Qed.

(** C1 on the code: the two overlapping predictions of the example company
    both qualify under the default strategy, and the replay trades on both
    of them. *)
Lemma second_overlapping_prediction_trades :
  map Prediction.targetDate (qualifying DEFAULT_STRATEGY overlapping_db_validated)
  = [day 3; day 4]
  ∧ map Prediction.companyId (qualifying DEFAULT_STRATEGY overlapping_db_validated)
    = [1%Z; 1%Z]
  ∧ map (fun t => (Trade.date t, Trade.ticker t))
        (result_trades (simulateHistoricalTrading DEFAULT_STRATEGY overlapping_db_validated))
    = [(day 3, "EQNR.OL"); (day 4, "EQNR.OL")]
  ∧ summary_totalTrades
      (summary (simulateHistoricalTrading DEFAULT_STRATEGY overlapping_db_validated))
    = 2%nat.
Proof. repeat split; vm_compute; reflexivity. Qed.


(** *** Recommendations *)

Lemma nge_Fin a b : nge (Fin a) (Fin b) = true ↔ b <= a.
Proof.
  unfold nge. rewrite orb_true_iff, nlt_Fin. simpl nseq. rewrite Qeq_bool_iff.
  split.
  - intros [H | H]; [lra | rewrite H; lra].
  - intros H. destruct (Qlt_le_dec b a) as [Hlt | Hle]; [left; exact Hlt | right; lra].
Qed.

Lemma In_active minConfidence now db p :
  In p (active minConfidence now db) →
  minConfidence <= Prediction.confidence p
  ∧ (now ≤ Prediction.targetDate p)%Z
  ∧ Prediction.isCorrect p = None.
Proof.
  unfold active, orderBy_desc_Q. intros Hin.
  apply (Permutation_in _ (merge_sort_Permutation _ _)) in Hin.
  apply filter_In in Hin. destruct Hin as [_ Hf].
  apply andb_true_iff in Hf. destruct Hf as [Hf Hnull].
  apply andb_true_iff in Hf. destruct Hf as [Hdate Hconf].
  apply Qle_bool_iff in Hconf. apply bool_decide_eq_true in Hnull.
  apply Z.leb_le in Hdate. auto.
Qed.

Lemma recommend_confident db p :
  0.60 <= Prediction.confidence p →
  Recommendation.recommendation (recommend db p)
  = (if String.eqb (Prediction.predictedDirection p) "up"
     then Advice_BUY else Advice_SHORT).
Proof.
  intros Hc. unfold recommend.
  destruct (nge (Fin (Prediction.confidence p)) (Fin 0.70)); [reflexivity|].
  apply nge_Fin in Hc. rewrite Hc. reflexivity.
Qed.

(** C10.  Every recommendation returned for a prediction of confidence at
    least 0.60 is BUY when the predicted direction is "up" and SHORT
    otherwise (in particular when it is "down"); every returned
    recommendation has confidence at least [minConfidence]; so with
    [minConfidence >= 0.60] no returned recommendation is HOLD. *)
Theorem recommendations_spec (minConfidence : Q) (now : Z) (db : Database) :
  let recommendations := getTradingRecommendations minConfidence now db in
  (∀ r, In r recommendations →
     ∃ c, Recommendation.confidence r = Fin c ∧ minConfidence <= c
          ∧ (0.60 <= c →
               (Recommendation.predictedDirection r = "up" →
                  Recommendation.recommendation r = Advice_BUY)
               ∧ (Recommendation.predictedDirection r = "down" →
                    Recommendation.recommendation r = Advice_SHORT)
               ∧ (Recommendation.recommendation r = Advice_BUY
                  ∨ Recommendation.recommendation r = Advice_SHORT)))
  ∧ (0.60 <= minConfidence →
       ∀ r, In r recommendations →
         Recommendation.recommendation r = Advice_BUY
         ∨ Recommendation.recommendation r = Advice_SHORT).
Proof.
  cbv zeta. unfold getTradingRecommendations.
  assert (Hmain : ∀ r, In r (map (recommend db) (active minConfidence now db)) →
    ∃ p, r = recommend db p ∧ minConfidence <= Prediction.confidence p).
  { intros r Hr. apply in_map_iff in Hr. destruct Hr as (p & <- & Hp).
    exists p. split; [reflexivity|]. apply In_active in Hp. tauto. }
  split.
  - intros r Hr. destruct (Hmain r Hr) as (p & -> & Hc).
    exists (Prediction.confidence p). split; [reflexivity|]. split; [exact Hc|].
    intros H60. rewrite (recommend_confident db p H60). simpl.
    split; [intros ->; reflexivity|]. split; [intros ->; reflexivity|].
    destruct (String.eqb _ _); auto.
  - intros Hmin r Hr. destruct (Hmain r Hr) as (p & -> & Hc).
    rewrite (recommend_confident db p) by lra.
    destruct (String.eqb _ _); auto.
Qed.


(** The theorem on the two pending predictions of the example store, asked
    on day 2 with the default bar of 0.60. *)
Lemma recommendations_spec_witness :
  length (getTradingRecommendations 0.60 (day 2) overlapping_db) = 2%nat
  ∧ ∀ r, In r (getTradingRecommendations 0.60 (day 2) overlapping_db) →
      Recommendation.recommendation r = Advice_BUY
      ∨ Recommendation.recommendation r = Advice_SHORT.
Proof.
  split; [vm_compute; reflexivity|].
  refine (proj2 (recommendations_spec 0.60 (day 2) overlapping_db) _).
  discriminate.
Defined.

End Simulator.

(** ** Prediction validator: pending to resolved, once *)

Module Validator.
Import PredictionValidationJob.

Lemma resolve_reads_prices db db' p :
  stockPrice db = stockPrice db' → resolve db p = resolve db' p.
Proof.
  intros H. unfold resolve, findActualPrice, findPreviousPrice. rewrite H. reflexivity.
Qed.

Lemma update_isCorrect data p :
  Prediction.isCorrect (update data p) = Some (isCorrect data).
Proof. reflexivity. Qed.

Lemma selected_spec today p :
  selected today p = true
  ↔ (Prediction.targetDate p < today)%Z ∧ Prediction.isCorrect p = None.
Proof.
  unfold selected. rewrite andb_true_iff, Z.ltb_lt, bool_decide_eq_true. tauto.
Qed.

Lemma In_unvalidatedPredictions today db id p :
  In (id, p) (unvalidatedPredictions today db)
  ↔ prediction db !! id = Some p
    ∧ (Prediction.targetDate p < today)%Z ∧ Prediction.isCorrect p = None.
Proof.
  unfold unvalidatedPredictions. rewrite filter_In, <- list_elem_of_In.
  rewrite elem_of_map_to_list. simpl. rewrite selected_spec. tauto.
Qed.

Lemma NoDup_fst_filter {A B} (f : A * B → bool) (l : list (A * B)) :
  NoDup (map fst l) → NoDup (map fst (List.filter f l)).
Proof.
  induction l as [|x l IH]; simpl; intros H; [constructor|].
  apply NoDup_cons in H. destruct H as [Hx Hl].
  destruct (f x); simpl; [|apply IH, Hl].
  apply NoDup_cons. split; [|apply IH, Hl].
  intros Hin. apply Hx. apply list_elem_of_In in Hin. apply list_elem_of_In.
  apply in_map_iff in Hin. destruct Hin as (y & Hy & Hin).
  apply filter_In in Hin. apply in_map_iff. exists y. tauto.
Qed.

Lemma NoDup_unvalidatedPredictions today db :
  NoDup (map fst (unvalidatedPredictions today db)).
Proof. apply NoDup_fst_filter, NoDup_fst_map_to_list. Qed.

(** The store after the loop ran over the rows [l]. *)
Lemma foldl_validate_step (l : list (Z * Prediction.t)) cnt d :
  NoDup (map fst l) →
  (∀ id p, In (id, p) l → prediction d !! id = Some p) →
  let r := foldl validate_step (cnt, d) l in
  company r.2 = company d
  ∧ stockPrice r.2 = stockPrice d
  ∧ technicalIndicator r.2 = technicalIndicator d
  ∧ ∀ id, prediction r.2 !! id
          = (fun p => if bool_decide (id ∈ map fst l)
                      then match resolve d p with
                           | Some data => update data p
                           | None => p
                           end
                      else p) <$> prediction d !! id.
Proof.
  revert cnt d. induction l as [|[i q] l IH]; intros cnt d Hnd Hrows; cbv zeta.
  { simpl. repeat split. intros id. destruct (prediction d !! id); reflexivity. }
  change (map fst ((i, q) :: l)) with (i :: map fst l) in Hnd.
  apply NoDup_cons in Hnd. destruct Hnd as [Hi Hnd].
  assert (Hi' : ¬ In i (map fst l)) by (rewrite <- list_elem_of_In; exact Hi).
  change (foldl validate_step (cnt, d) ((i, q) :: l))
    with (foldl validate_step (validate_step (cnt, d) (i, q)) l).
  remember (validate_step (cnt, d) (i, q)) as st1 eqn:Est1.
  assert (Hst1 : company st1.2 = company d ∧ stockPrice st1.2 = stockPrice d
                 ∧ technicalIndicator st1.2 = technicalIndicator d
                 ∧ prediction st1.2
                   = match resolve d q with
                     | Some data => alter (update data) i (prediction d)
                     | None => prediction d
                     end).
  { subst st1. unfold validate_step. simpl. destruct (resolve d q); simpl; auto. }
  clear Est1.
  destruct Hst1 as (Hc1 & Hs1 & Ht1 & Hp1).
  destruct st1 as [cnt1 d1]. simpl in Hc1, Hs1, Ht1, Hp1.
  specialize (IH cnt1 d1 Hnd). cbv zeta in IH.
  destruct IH as (Hc & Hs & Ht & Hp).
  { intros id p Hin. rewrite Hp1.
    assert (id ≠ i).
    { intros ->. apply Hi'. apply in_map_iff. exists (i, p). auto. }
    destruct (resolve d q); [rewrite lookup_alter_ne by congruence|];
      apply Hrows; right; exact Hin. }
  split; [congruence|]. split; [congruence|]. split; [congruence|].
  intros id. rewrite Hp, Hp1.
  destruct (decide (id = i)) as [-> | Hne].
  - rewrite (bool_decide_eq_false_2 _ Hi).
    rewrite (bool_decide_eq_true_2 (i ∈ map fst ((i, q) :: l))) by (simpl; left).
    rewrite (Hrows i q) by (left; reflexivity).
    destruct (resolve d q) eqn:E.
    + rewrite lookup_alter_eq, (Hrows i q) by (left; reflexivity).
      simpl. rewrite E. reflexivity.
    + rewrite (Hrows i q) by (left; reflexivity). simpl. rewrite E. reflexivity.
  - assert (Hlk : match resolve d q with
                  | Some data => alter (update data) i (prediction d)
                  | None => prediction d
                  end !! id = prediction d !! id).
    { destruct (resolve d q); [apply lookup_alter_ne; congruence | reflexivity]. }
    rewrite Hlk. destruct (prediction d !! id) as [p|]; [|reflexivity]. simpl.
    rewrite (resolve_reads_prices d1 d p Hs1).
    destruct (bool_decide (id ∈ map fst l)) eqn:E.
    + apply bool_decide_eq_true in E.
      rewrite bool_decide_eq_true_2 by (simpl; right; exact E). reflexivity.
    + apply bool_decide_eq_false in E.
      rewrite bool_decide_eq_false_2; [reflexivity|].
      simpl. intros H. apply elem_of_cons in H. destruct H; [congruence | contradiction].
Qed.

(** One run maps [outcome] over the prediction table and touches nothing
    else. *)
Lemma validatePredictions_outcome now db :
  let db' := (validatePredictions now db).2 in
  company db' = company db
  ∧ stockPrice db' = stockPrice db
  ∧ technicalIndicator db' = technicalIndicator db
  ∧ prediction db' = outcome (startOfDay now) db <$> prediction db.
Proof.
  cbv zeta. unfold validatePredictions.
  pose proof (foldl_validate_step (unvalidatedPredictions (startOfDay now) db)
                (mkCounters 0 0 0) db
                (NoDup_unvalidatedPredictions _ _)) as H.
  cbv zeta in H. destruct H as (Hc & Hs & Ht & Hp).
  { intros id p Hin. apply In_unvalidatedPredictions in Hin. tauto. }
  split; [exact Hc|]. split; [exact Hs|]. split; [exact Ht|].
  apply map_eq. intros id. rewrite Hp, lookup_fmap.
  destruct (prediction db !! id) as [p|] eqn:E; [|reflexivity]. simpl. f_equal.
  unfold outcome. destruct (selected (startOfDay now) p) eqn:Hsel.
  - rewrite bool_decide_eq_true_2; [reflexivity|].
    apply list_elem_of_In, in_map_iff. exists (id, p). split; [reflexivity|].
    apply In_unvalidatedPredictions. apply selected_spec in Hsel. tauto.
  - rewrite bool_decide_eq_false_2; [reflexivity|].
    intros Hin. apply list_elem_of_In, in_map_iff in Hin.
    destruct Hin as ([id' p'] & Hid & Hin).
    simpl in Hid. subst id'. apply In_unvalidatedPredictions in Hin.
    destruct Hin as (Hlk & Hsel'). rewrite E in Hlk. injection Hlk as <-.
    apply selected_spec in Hsel'. congruence.
Qed.

Lemma foldl_validate_step_idle (l : list (Z * Prediction.t)) st :
  (∀ row, In row l → resolve st.2 row.2 = None) →
  foldl validate_step st l = st.
Proof.
  induction l as [|row l IH]; intros H; simpl; [reflexivity|].
  assert (E : validate_step st row = st).
  { unfold validate_step. destruct st as [cnt d]. simpl in H.
    rewrite (H row) by (left; reflexivity). reflexivity. }
  rewrite E. apply IH. intros row' Hin. apply H. right. exact Hin.
Qed.


Lemma outcome_cases today db p :
  outcome today db p = p
  ∨ ((Prediction.targetDate p < today)%Z ∧ Prediction.isCorrect p = None
     ∧ ∃ data, resolve db p = Some data ∧ outcome today db p = update data p).
Proof.
  unfold outcome. destruct (selected today p) eqn:Hsel; [|left; reflexivity].
  apply selected_spec in Hsel.
  destruct (resolve db p) as [data|]; [right | left; reflexivity].
  split; [tauto|]. split; [tauto|]. exists data. split; reflexivity.
Qed.

Lemma outcome_pending today db p :
  Prediction.isCorrect (outcome today db p) = None →
  outcome today db p = p
  ∧ (selected today p = true → resolve db p = None).
Proof.
  intros Hnull. destruct (outcome_cases today db p) as [E | (_ & _ & data & Hres & E)].
  - split; [exact E|]. intros Hsel. unfold outcome in Hnull. rewrite Hsel in Hnull.
    destruct (resolve db p); [discriminate | reflexivity].
  - rewrite E in Hnull. discriminate.
Qed.

Lemma startOfDay_floor now :
  (startOfDay now mod msPerDay = 0)%Z
  ∧ (startOfDay now ≤ now < startOfDay now + msPerDay)%Z.
Proof.
  unfold startOfDay, msPerDay.
  pose proof (Z.mod_pos_bound now 86400000 ltac:(lia)).
  split; [|lia].
  rewrite Zminus_mod, Zmod_mod, Z.sub_diag. reflexivity.
Qed.

(** C4.  The validator selects exactly the stored predictions whose target
    date is strictly before today (the clock floored to midnight) and whose
    [isCorrect] is still null; a run changes a prediction only by resolving a
    selected one, which sets [isCorrect]; a prediction that is already
    resolved is left untouched and is selected by no later run; and a second
    run on the same day with the same prices validates nothing and changes
    nothing. *)
Theorem resolved_at_most_once (now : Z) (db : Database) :
  let today := startOfDay now in
  let db' := (validatePredictions now db).2 in
  ((today mod msPerDay = 0)%Z ∧ (today ≤ now < today + msPerDay)%Z)
  ∧ (∀ id p, In (id, p) (unvalidatedPredictions today db)
             ↔ prediction db !! id = Some p
               ∧ (Prediction.targetDate p < today)%Z
               ∧ Prediction.isCorrect p = None)
  ∧ (∀ id p, prediction db !! id = Some p →
       prediction db' !! id = Some p
       ∨ ((Prediction.targetDate p < today)%Z ∧ Prediction.isCorrect p = None
          ∧ ∃ data, resolve db p = Some data
                    ∧ prediction db' !! id = Some (update data p)
                    ∧ Prediction.isCorrect (update data p) = Some (isCorrect data)))
  ∧ (∀ id p, prediction db !! id = Some p → is_Some (Prediction.isCorrect p) →
       prediction db' !! id = Some p)
  ∧ (∀ now' id p, In (id, p) (unvalidatedPredictions (startOfDay now') db') →
       Prediction.isCorrect p = None ∧ prediction db !! id = Some p)
  ∧ validatePredictions now db' = (mkCounters 0 0 0, db').
Proof.
  cbv zeta.
  destruct (validatePredictions_outcome now db) as (Hc & Hs & Ht & Hp).
  set (db' := (validatePredictions now db).2) in *.
  set (today := startOfDay now) in *.
  split; [apply startOfDay_floor|].
  split; [intros id p; apply In_unvalidatedPredictions|].
  assert (Hlk : ∀ id, prediction db' !! id = outcome today db <$> prediction db !! id).
  { intros id. rewrite Hp, lookup_fmap. reflexivity. }
  split.
  { intros id p Hid. rewrite Hlk, Hid. simpl.
    destruct (outcome_cases today db p) as [-> | (Hd & Hn & data & Hres & ->)].
    - left. reflexivity.
    - right. split; [exact Hd|]. split; [exact Hn|]. exists data. auto. }
  split.
  { intros id p Hid [b Hb]. rewrite Hlk, Hid. simpl. f_equal.
    destruct (outcome_cases today db p) as [E | (_ & Hn & _)]; [exact E | congruence]. }
  assert (Hsel : ∀ today' id p, In (id, p) (unvalidatedPredictions today' db') →
    Prediction.isCorrect p = None ∧ prediction db !! id = Some p
    ∧ (selected today p = true → resolve db p = None)).
  { intros today' id p Hin. apply In_unvalidatedPredictions in Hin.
    destruct Hin as (Hid & _ & Hnull). split; [exact Hnull|].
    rewrite Hlk in Hid. destruct (prediction db !! id) as [p0|]; [|discriminate].
    simpl in Hid. injection Hid as <-.
    destruct (outcome_pending today db p0 Hnull) as [E Hres].
    rewrite E. auto. }
  split.
  { intros now' id p Hin. destruct (Hsel _ _ _ Hin) as (H1 & H2 & _). auto. }
  unfold validatePredictions. fold today.
  apply foldl_validate_step_idle. simpl. intros [id p] Hin. simpl.
  destruct (Hsel _ _ _ Hin) as (Hnull & Hid & Hres).
  rewrite (resolve_reads_prices db' db p Hs). apply Hres.
  apply In_unvalidatedPredictions in Hin. apply selected_spec. tauto.
Qed.

(** The theorem on the example store: both predictions are due on day 5 and
    get resolved, and running the job again on day 5 validates nothing. *)
Lemma resolved_at_most_once_witness :
  validatePredictions (day 5) overlapping_db_validated
  = (mkCounters 0 0 0, overlapping_db_validated)
  ∧ (validatePredictions (day 5) overlapping_db).1 = mkCounters 2 2 0.
Proof.
  split.
  - exact (proj2 (proj2 (proj2 (proj2 (proj2
      (resolved_at_most_once (day 5) overlapping_db)))))).
  - vm_compute. reflexivity.
Defined.

End Validator.

(** ** The indicator bundle *)

Module Bundle.
Import TechnicalIndicators.
Import SMA RSI.

(** *** Loops that push one entry per iteration *)

Section PushLoops.

Context {S : Type}.
Variables (out : S → list number) (body : nat → S → S) (init : S).
Hypothesis Hpush : ∀ i s, ∃ x, out (body i s) = push (out s) x.
Hypothesis Hinit : out init = [].

Lemma loop_out_length n : length (out (for_loop n body init)) = n.
Proof.
  induction n as [|n IH]; [unfold for_loop; simpl; rewrite Hinit; reflexivity|].
  rewrite for_loop_S. destruct (Hpush n (for_loop n body init)) as [x ->].
  rewrite length_push, IH. reflexivity.
Qed.

Lemma loop_out_stable i n m :
  (i < n)%nat → (n ≤ m)%nat →
  get (out (for_loop m body init)) i = get (out (for_loop n body init)) i.
Proof.
  intros Hi Hnm. induction Hnm as [|m Hnm IH]; [reflexivity|].
  rewrite for_loop_S. destruct (Hpush m (for_loop m body init)) as [x ->].
  rewrite get_push_before by (rewrite loop_out_length; lia). exact IH.
Qed.

(** The entry at index [i] is the one iteration [i] pushed. *)
Lemma loop_out_get i n :
  (i < n)%nat →
  get (out (for_loop n body init)) i
  = get (out (body i (for_loop i body init))) i.
Proof.
  intros Hi. rewrite (loop_out_stable i (Datatypes.S i) n) by lia.
  rewrite for_loop_S. reflexivity.
Qed.

End PushLoops.

Lemma get_overflow (a : list number) i : (length a ≤ i)%nat → get a i = NaN.
Proof. intros H. unfold get. apply nth_overflow. exact H. Qed.

(** *** Entries before the lookback are undefined *)

Lemma calculateSMA_early prices p :
  undefined_before (Z.to_nat (p - 1)) (calculateSMA prices p).
Proof.
  intros i Hi. destruct (Nat.lt_ge_cases i (length prices)) as [Hlt | Hge].
  - rewrite calculateSMA_get by exact Hlt. unfold sma_at.
    destruct (Z.ltb_spec (Z.of_nat i) (p - 1)); [reflexivity | lia].
  - apply get_overflow. rewrite calculateSMA_length. exact Hge.
Qed.

Lemma calculateEMA_pushes prices p :
  let multiplier := ndiv (Fin 2) (ofZ (p + 1)) in
  let s := for_loop (Z.to_nat p) (fun i s =>
             if (i <? length prices)%nat then nadd s (get prices i) else s) (Fin 0) in
  let firstEMA := ndiv s (ofZ p) in
  ∀ i ema, ∃ x,
    (if (Z.of_nat i <? p - 1)%Z then push ema NaN
     else if (Z.of_nat i =? p - 1)%Z then push ema firstEMA
     else push ema (nadd (nmul (nsub (get prices i) (get ema (i - 1))) multiplier)
                         (get ema (i - 1))))
    = push ema x
    ∧ ((Z.of_nat i < p - 1)%Z → x = NaN).
Proof.
  intros multiplier s firstEMA i ema.
  destruct (Z.ltb_spec (Z.of_nat i) (p - 1)).
  - eexists; split; [reflexivity | reflexivity].
  - destruct (Z.of_nat i =? p - 1)%Z; eexists; (split; [reflexivity | lia]).
Qed.

Lemma calculateEMA_length prices p :
  length (calculateEMA prices p) = length prices.
Proof.
  unfold calculateEMA. apply (loop_out_length (fun ema => ema)); [|reflexivity].
  intros i ema. destruct (calculateEMA_pushes prices p i ema) as (x & -> & _). eauto.
Qed.

Lemma calculateEMA_early prices p :
  undefined_before (Z.to_nat (p - 1)) (calculateEMA prices p).
Proof.
  intros i Hi. destruct (Nat.lt_ge_cases i (length prices)) as [Hlt | Hge].
  - unfold calculateEMA.
    rewrite (loop_out_get (fun ema => ema)); [| |reflexivity|exact Hlt].
    + match goal with
      | |- get (if _ then push ?e _ else _) _ = _ =>
          destruct (calculateEMA_pushes prices p i e) as (x & -> & Hx);
          rewrite (get_push_at e x i), Hx; [reflexivity | lia |]
      end.
      apply (loop_out_length (fun ema => ema)); [|reflexivity].
      intros j ema. destruct (calculateEMA_pushes prices p j ema) as (y & -> & _). eauto.
    + intros j ema. destruct (calculateEMA_pushes prices p j ema) as (y & -> & _). eauto.
  - apply get_overflow. rewrite calculateEMA_length. exact Hge.
Qed.


Lemma calculateRSI_length prices p :
  length (calculateRSI prices p) = length prices.
Proof.
  unfold calculateRSI. apply (loop_out_length rsi); [|reflexivity].
  intros i st. apply rsi_step_pushes.
Qed.

Lemma calculateRSI_early prices p :
  undefined_before (Z.to_nat p) (calculateRSI prices p).
Proof.
  intros i Hi. destruct (Nat.lt_ge_cases i (length prices)) as [Hlt | Hge].
  - unfold calculateRSI.
    rewrite (loop_out_get rsi); [|apply rsi_step_pushes|reflexivity|exact Hlt].
    set (st := for_loop i _ _).
    assert (Hlen : length (rsi st) = i).
    { apply (loop_out_length rsi); [apply rsi_step_pushes | reflexivity]. }
    unfold rsi_step. destruct (i =? 0)%nat; simpl.
    + apply get_push_at, Hlen.
    + destruct (Z.ltb_spec (Z.of_nat i) p); [|lia]. simpl. apply get_push_at, Hlen.
  - apply get_overflow. rewrite calculateRSI_length. exact Hge.
Qed.

Lemma adx_step_pushes highs lows closes p i st :
  ∃ x, adx (adx_step highs lows closes p i st) = push (adx st) x.
Proof.
  unfold adx_step.
  repeat match goal with
         | |- context [if ?c then _ else _] => destruct c
         end; simpl; eexists; reflexivity.
Qed.

Lemma calculateADX_length highs lows closes p :
  length (calculateADX highs lows closes p) = length closes.
Proof.
  unfold calculateADX. apply (loop_out_length adx); [|reflexivity].
  intros i st. apply adx_step_pushes.
Qed.

Lemma calculateADX_early highs lows closes p :
  undefined_before (Z.to_nat (p * 2)) (calculateADX highs lows closes p).
Proof.
  intros i Hi. destruct (Nat.lt_ge_cases i (length closes)) as [Hlt | Hge].
  - unfold calculateADX.
    rewrite (loop_out_get adx); [|apply adx_step_pushes|reflexivity|exact Hlt].
    set (st := for_loop i _ _).
    assert (Hlen : length (adx st) = i).
    { apply (loop_out_length adx); [apply adx_step_pushes | reflexivity]. }
    unfold adx_step. destruct (i =? 0)%nat; simpl.
    + apply get_push_at, Hlen.
    + destruct (Z.ltb_spec (Z.of_nat i) (p * 2)); [|lia]. simpl. apply get_push_at, Hlen.
  - apply get_overflow. rewrite calculateADX_length. exact Hge.
Qed.

(** Padding the indicator of the defined tail back to full length. *)
Lemma filter_defined_le (a : list number) :
  (length (filter_defined a) ≤ length a)%nat.
Proof.
  induction a as [|x a IH]; simpl; [lia|]. destruct (isNaN x); simpl; lia.
Qed.

Lemma filter_defined_undefined_before k (a : list number) :
  undefined_before k a → (length (filter_defined a) ≤ length a - k)%nat.
Proof.
  revert k. induction a as [|x a IH]; intros k Hk; simpl; [lia|].
  destruct k as [|k].
  - pose proof (filter_defined_le (x :: a)) as H. simpl in H. lia.
  - assert (Hx : x = NaN) by (apply (Hk 0%nat); lia). subst x. simpl.
    apply IH. intros i Hi. apply (Hk (Datatypes.S i)). lia.
Qed.

Lemma get_fill_NaN_app n (g : list number) i :
  get (fill_NaN n ++ g) i
  = if (i <? Z.to_nat n)%nat then NaN else get g (i - Z.to_nat n).
Proof.
  unfold get, fill_NaN. destruct (Nat.ltb_spec i (Z.to_nat n)) as [H | H].
  - rewrite app_nth1 by (rewrite length_replicate; exact H).
    rewrite nth_lookup, lookup_replicate_2 by exact H. reflexivity.
  - rewrite app_nth2 by (rewrite length_replicate; exact H).
    rewrite length_replicate. reflexivity.
Qed.

Lemma padded_early (src g : list number) k e :
  undefined_before k src →
  length g = length (filter_defined src) →
  undefined_before e g →
  undefined_before (k + e)
    (fill_NaN (Z.of_nat (length src) - Z.of_nat (length g)) ++ g).
Proof.
  intros Hsrc Hlen Hg i Hi. rewrite get_fill_NaN_app.
  pose proof (filter_defined_undefined_before k src Hsrc) as Hle.
  destruct (Nat.ltb_spec i (Z.to_nat (Z.of_nat (length src) - Z.of_nat (length g))));
    [reflexivity|].
  destruct (Nat.le_gt_cases k (length src)) as [Hk | Hk].
  - apply Hg. lia.
  - apply get_overflow. lia.
Qed.

Lemma calculateMACD_macd_early prices fast slow signalPeriod :
  undefined_before (Z.to_nat (slow - 1))
    (macd (calculateMACD prices fast slow signalPeriod)).
Proof.
  intros i Hi. unfold calculateMACD. simpl.
  set (body := fun (i : nat) (macd : list number) => _).
  assert (Hpush : ∀ i s, ∃ x, body i s = push s x).
  { intros j s. subst body. simpl. destruct (_ || _); eexists; reflexivity. }
  destruct (Nat.lt_ge_cases i (length prices)) as [Hlt | Hge].
  - rewrite (loop_out_get (fun m => m) body); [|exact Hpush|reflexivity|exact Hlt].
    subst body. simpl.
    rewrite (calculateEMA_early prices slow i Hi). simpl.
    rewrite orb_true_r. apply get_push_at.
    apply (loop_out_length (fun m => m)); [exact Hpush | reflexivity].
  - apply get_overflow.
    rewrite (loop_out_length (fun m => m) body); [exact Hge | exact Hpush | reflexivity].
Qed.

Lemma calculateMACD_signal_early prices fast slow signalPeriod :
  undefined_before (Z.to_nat (slow - 1) + Z.to_nat (signalPeriod - 1))
    (signal (calculateMACD prices fast slow signalPeriod)).
Proof.
  pose proof (calculateMACD_macd_early prices fast slow signalPeriod) as Hm.
  unfold calculateMACD in *. simpl in *.
  apply padded_early; [exact Hm | apply calculateEMA_length | apply calculateEMA_early].
Qed.

Lemma get_imap (f : nat → number → number) (a : list number) i :
  (i < length a)%nat → get (imap f a) i = f i (get a i).
Proof.
  intros Hi. unfold get.
  destruct (lookup_lt_is_Some_2 a i Hi) as [x Hx].
  rewrite (nth_lookup_Some _ _ _ _ Hx).
  apply nth_lookup_Some. rewrite list_lookup_imap, Hx. reflexivity.
Qed.

Lemma calculateMACD_histogram_early prices fast slow signalPeriod :
  undefined_before (Z.to_nat (slow - 1) + Z.to_nat (signalPeriod - 1))
    (histogram (calculateMACD prices fast slow signalPeriod)).
Proof.
  pose proof (calculateMACD_signal_early prices fast slow signalPeriod) as Hs.
  unfold calculateMACD in *. simpl in *. intros i Hi.
  set (m := for_loop _ _ _) in *.
  destruct (Nat.lt_ge_cases i (length m)) as [Hlt | Hge].
  - rewrite get_imap by exact Hlt. rewrite (Hs i Hi). simpl.
    rewrite orb_true_r. reflexivity.
  - apply get_overflow. rewrite length_imap. exact Hge.
Qed.

Lemma calculateBollingerBands_early sqrtQ prices p stdDev :
  undefined_before (Z.to_nat (p - 1))
    (upper (calculateBollingerBands sqrtQ prices p stdDev))
  ∧ undefined_before (Z.to_nat (p - 1))
      (middle (calculateBollingerBands sqrtQ prices p stdDev))
  ∧ undefined_before (Z.to_nat (p - 1))
      (lower (calculateBollingerBands sqrtQ prices p stdDev)).
Proof.
  unfold calculateBollingerBands. simpl.
  set (body := fun (i : nat) (s : list number * list number) => _).
  assert (Hfst : ∀ i s, ∃ x, fst (body i s) = push (fst s) x).
  { intros i [u l]. subst body. simpl. destruct (_ <? _)%Z; eexists; reflexivity. }
  assert (Hsnd : ∀ i s, ∃ x, snd (body i s) = push (snd s) x).
  { intros i [u l]. subst body. simpl. destruct (_ <? _)%Z; eexists; reflexivity. }
  assert (Hband : ∀ (out : list number * list number → list number),
    (∀ i s, ∃ x, out (body i s) = push (out s) x) → out ([], []) = [] →
    (∀ i s, (Z.of_nat i < p - 1)%Z → out (body i s) = push (out s) NaN) →
    undefined_before (Z.to_nat (p - 1)) (out (for_loop (length prices) body ([], [])))).
  { intros out Hpush Hinit Hnan i Hi.
    destruct (Nat.lt_ge_cases i (length prices)) as [Hlt | Hge].
    - rewrite (loop_out_get out body); [|exact Hpush|exact Hinit|exact Hlt].
      rewrite Hnan by lia. apply get_push_at.
      apply (loop_out_length out); assumption.
    - apply get_overflow. rewrite (loop_out_length out); assumption. }
  split; [|split].
  - apply (Hband fst); [exact Hfst | reflexivity|].
    intros i [u l] Hi. subst body. simpl.
    destruct (Z.ltb_spec (Z.of_nat i) (p - 1)); [reflexivity | lia].
  - apply calculateSMA_early.
  - apply (Hband snd); [exact Hsnd | reflexivity|].
    intros i [u l] Hi. subst body. simpl.
    destruct (Z.ltb_spec (Z.of_nat i) (p - 1)); [reflexivity | lia].
Qed.

Lemma calculateStochastic_early highs lows closes p smoothK :
  undefined_before (Z.to_nat (p - 1) + Z.to_nat (smoothK - 1))
    (k (calculateStochastic highs lows closes p smoothK))
  ∧ undefined_before (Z.to_nat (p - 1) + Z.to_nat (smoothK - 1) + 2)
      (d (calculateStochastic highs lows closes p smoothK)).
Proof.
  unfold calculateStochastic. simpl.
  set (body := fun (i : nat) (k : list number) => _).
  assert (Hpush : ∀ i s, ∃ x, body i s = push s x).
  { intros i s. subst body. simpl. destruct (_ <? _)%Z; eexists; reflexivity. }
  set (raw := for_loop (length closes) body []).
  assert (Hraw : undefined_before (Z.to_nat (p - 1)) raw).
  { intros i Hi. subst raw.
    destruct (Nat.lt_ge_cases i (length closes)) as [Hlt | Hge].
    - rewrite (loop_out_get (fun k => k) body); [|exact Hpush|reflexivity|exact Hlt].
      subst body. simpl.
      destruct (Z.ltb_spec (Z.of_nat i) (p - 1)); [|lia].
      apply get_push_at. apply (loop_out_length (fun k => k)); [exact Hpush | reflexivity].
    - apply get_overflow.
      rewrite (loop_out_length (fun k => k) body); [exact Hge | exact Hpush | reflexivity]. }
  assert (Hk : undefined_before (Z.to_nat (p - 1) + Z.to_nat (smoothK - 1))
                 (fill_NaN (Z.of_nat (length raw)
                            - Z.of_nat (length (calculateSMA (filter_defined raw) smoothK)))
                  ++ calculateSMA (filter_defined raw) smoothK)).
  { apply padded_early; [exact Hraw | apply calculateSMA_length | apply calculateSMA_early]. }
  split; [exact Hk|].
  apply padded_early; [exact Hk | apply calculateSMA_length | apply (calculateSMA_early _ 3)].
Qed.

Lemma calculateATR_early highs lows closes p :
  undefined_before (Z.to_nat (p - 1)) (calculateATR highs lows closes p).
Proof. unfold calculateATR. apply calculateEMA_early. Qed.

End Bundle.

Module Snapshots.
Import TechnicalIndicators.
Import SMA RSI Bundle.

Lemma reported_optional v : reported v (optional v).
Proof. unfold reported, optional, defined. destruct (isNaN v); auto. Qed.

Lemma optional_NaN v : v = NaN → optional v = None.
Proof. intros ->. reflexivity. Qed.

(** C8.  [calculateAllIndicators] returns one record per input price, with
    that price's date; each field of the record at index [i] reports entry
    [i] of the array of its indicator function: absent when the entry is
    [NaN], the entry itself otherwise; and before the first index that
    function can compute the field is absent, never a number. *)
Theorem calculateAllIndicators_spec (sqrtQ : Q → Q) (priceData : list PriceData.t) :
  let results := calculateAllIndicators sqrtQ priceData in
  length results = length priceData
  ∧ ∀ i data, priceData !! i = Some data →
      ∃ r, results !! i = Some r
           ∧ IndicatorResult.date r = PriceData.date data
           ∧ Forall (fun '(field, values, lookback) =>
                       reported (get values i) (field r)
                       ∧ ((i < lookback)%nat → field r = None))
                    (indicator_fields sqrtQ priceData).
Proof.
  cbv zeta. split; [unfold calculateAllIndicators; apply length_imap|].
  intros i data Hdata. unfold calculateAllIndicators.
  rewrite list_lookup_imap, Hdata. simpl. eexists. split; [reflexivity|].
  split; [reflexivity|].
  pose proof (calculateBollingerBands_early sqrtQ (map PriceData.close priceData) 20 (Fin 2))
    as (Hbu & Hbm & Hbl).
  pose proof (calculateStochastic_early (map PriceData.high priceData)
                (map PriceData.low priceData) (map PriceData.close priceData) 14 3)
    as (Hsk & Hsd).
  unfold indicator_fields.
  repeat (apply Forall_cons; split; [split; [apply reported_optional|];
    intros Hi; simpl; apply optional_NaN|]); [..|constructor].
  - apply (calculateRSI_early _ 14). simpl. lia.
  - apply (calculateMACD_macd_early _ 12 26 9). simpl. lia.
  - apply (calculateMACD_signal_early _ 12 26 9). simpl. lia.
  - apply (calculateMACD_histogram_early _ 12 26 9). simpl. lia.
  - apply (calculateSMA_early _ 20). simpl. lia.
  - apply (calculateSMA_early _ 50). simpl. lia.
  - apply (calculateSMA_early _ 200). simpl. lia.
  - apply (calculateEMA_early _ 12). simpl. lia.
  - apply (calculateEMA_early _ 26). simpl. lia.
  - apply Hbu. simpl. lia.
  - apply Hbm. simpl. lia.
  - apply Hbl. simpl. lia.
  - apply Hsk. simpl. lia.
  - apply Hsd. simpl. lia.
  - apply (calculateATR_early _ _ _ 14). simpl. lia.
  - apply (calculateADX_early _ _ _ 14). simpl. lia.
Qed.


(** The theorem on the twelve-day history: the record of the last day has an
    EMA(12) and nothing else. *)
Lemma calculateAllIndicators_spec_witness :
  ∃ r, calculateAllIndicators example_sqrt
         (TechnicalIndicatorsService.priceData_of twelve_day_db example_company)
       !! 11%nat = Some r
       ∧ IndicatorResult.date r = day 12
       ∧ IndicatorResult.rsi14 r = None
       ∧ IndicatorResult.ema12 r = Some (Fin (1275 # 12)).
Proof.
  destruct (proj2 (calculateAllIndicators_spec example_sqrt
              (TechnicalIndicatorsService.priceData_of twelve_day_db example_company))
              11%nat
              (PriceData.mk (day 12) (Fin 113) (Fin 113) (Fin 113) (Fin 113) (Fin 1000))
              eq_refl)
    as (r & Hr & Hdate & Hfields).
  exists r. split; [exact Hr|]. split; [exact Hdate|].
  vm_compute in Hr. injection Hr as <-. split; reflexivity.
Defined.

(** ** The indicator pipeline *)

Import TechnicalIndicatorsService.

Lemma worth_saving_spec indicator :
  worth_saving indicator = true
  ↔ IndicatorResult.rsi14 indicator ≠ None ∨ IndicatorResult.sma20 indicator ≠ None.
Proof.
  unfold worth_saving. rewrite orb_true_iff, !bool_decide_eq_true. reflexivity.
Qed.

Lemma save_loop_upserts companyId indicators store n :
  foldl (fun '(savedCount, store) indicator =>
           if worth_saving indicator then
             (Datatypes.S savedCount, upsert companyId store indicator)
           else (savedCount, store)) (n, store) indicators
  = ((n + length (List.filter worth_saving indicators))%nat,
     foldl (upsert companyId) store (List.filter worth_saving indicators)).
Proof.
  revert n store. induction indicators as [|x l IH]; intros n store; simpl.
  - rewrite Nat.add_0_r. reflexivity.
  - destruct (worth_saving x); simpl; rewrite IH; [f_equal; lia | reflexivity].
Qed.

Lemma lookup_upsert_eq companyId store x :
  upsert companyId store x !! (companyId, IndicatorResult.date x)
  = Some (upserted (store !! (companyId, IndicatorResult.date x)) x).
Proof. unfold upsert. cbv zeta. apply lookup_insert_eq. Qed.

Lemma lookup_upsert_ne companyId store x key :
  key ≠ (companyId, IndicatorResult.date x) →
  upsert companyId store x !! key = store !! key.
Proof.
  intros Hk. unfold upsert. cbv zeta. apply lookup_insert_ne.
  intros E. apply Hk. symmetry. exact E.
Qed.

Lemma lookup_upserts_other companyId (l : list IndicatorResult.t) store date :
  ¬ In date (map IndicatorResult.date l) →
  foldl (upsert companyId) store l !! (companyId, date) = store !! (companyId, date).
Proof.
  revert store. induction l as [|x l IH]; intros store Hd; simpl; [reflexivity|].
  rewrite IH by (intros H; apply Hd; right; exact H).
  apply lookup_upsert_ne. intros [= E]. apply Hd. left. symmetry. exact E.
Qed.

Lemma lookup_upserts_saved companyId (l : list IndicatorResult.t) store x :
  NoDup (map IndicatorResult.date l) → In x l →
  foldl (upsert companyId) store l !! (companyId, IndicatorResult.date x)
  = Some (upserted (store !! (companyId, IndicatorResult.date x)) x).
Proof.
  revert store. induction l as [|y l IH]; intros store Hnd Hin; [destruct Hin|].
  simpl in Hnd. apply NoDup_cons in Hnd. destruct Hnd as [Hy Hnd].
  simpl. destruct Hin as [-> | Hin].
  - rewrite lookup_upserts_other by (rewrite <- list_elem_of_In; exact Hy).
    apply lookup_upsert_eq.
  - rewrite IH by assumption. rewrite lookup_upsert_ne; [reflexivity|].
    intros [= E]. apply Hy. rewrite <- E. apply list_elem_of_In, in_map, Hin.
Qed.

(** What an update writes and what it keeps, column by column. *)
Lemma updated_defined stored v : updated stored (Some v) = Some v.
Proof. reflexivity. Qed.

Lemma updated_undefined stored : updated stored None = stored.
Proof. reflexivity. Qed.

Lemma NoDup_dates_filter (f : IndicatorResult.t → bool) (l : list IndicatorResult.t) :
  NoDup (map IndicatorResult.date l) →
  NoDup (map IndicatorResult.date (List.filter f l)).
Proof.
  induction l as [|x l IH]; simpl; intros H; [constructor|].
  apply NoDup_cons in H. destruct H as [Hx Hl].
  destruct (f x); simpl; [|apply IH, Hl].
  apply NoDup_cons. split; [|apply IH, Hl].
  intros Hin. apply Hx. apply list_elem_of_In in Hin. apply list_elem_of_In.
  apply in_map_iff in Hin. destruct Hin as (y & Hy & Hin).
  apply filter_In in Hin. apply in_map_iff. exists y. tauto.
Qed.

Lemma NoDup_dates_inj (l : list IndicatorResult.t) x y :
  NoDup (map IndicatorResult.date l) → In x l → In y l →
  IndicatorResult.date x = IndicatorResult.date y → x = y.
Proof.
  induction l as [|z l IH]; intros Hnd Hx Hy E; [destruct Hx|].
  simpl in Hnd. apply NoDup_cons in Hnd. destruct Hnd as [Hz Hnd].
  rewrite list_elem_of_In in Hz.
  destruct Hx as [-> | Hx]; destruct Hy as [-> | Hy]; try reflexivity.
  - exfalso. apply Hz. rewrite E. apply in_map. exact Hy.
  - exfalso. apply Hz. rewrite <- E. apply in_map. exact Hx.
  - apply IH; assumption.
Qed.

Lemma calculateAllIndicators_dates sqrtQ priceData :
  map IndicatorResult.date (calculateAllIndicators sqrtQ priceData)
  = map PriceData.date priceData.
Proof.
  apply list_eq. intros i. unfold calculateAllIndicators.
  change (map IndicatorResult.date) with (fmap (M := list) IndicatorResult.date).
  change (map PriceData.date) with (fmap (M := list) PriceData.date).
  rewrite !list_lookup_fmap, list_lookup_imap.
  destruct (priceData !! i); reflexivity.
Qed.

(** C2, as the code has it.  For a known company the pipeline succeeds; it
    upserts, in order, exactly the indicator records in which [rsi14] or
    [sma20] is defined, and counts them.  So when the dates of the price
    history are distinct, a record with [rsi14] or [sma20] defined is
    upserted under its date: where the store had no snapshot of that date the
    record becomes the snapshot, and where it had one, each column takes the
    record's value where the record has one and keeps the stored value where
    it has none; for a record with neither [rsi14] nor [sma20] the stored
    snapshot of its date is left as it was. *)
Theorem snapshot_saved_iff_rsi14_or_sma20
    (sqrtQ : Q → Q) (ticker : string) (db : Database) (c : Company.t) :
  List.find (fun c => String.eqb (Company.ticker c) ticker) (company db) = Some c →
  let indicators := calculateAllIndicators sqrtQ (priceData_of db c) in
  let saved := List.filter worth_saving indicators in
  let result := (calculateAndSaveIndicators sqrtQ ticker db).1 in
  let db' := (calculateAndSaveIndicators sqrtQ ticker db).2 in
  success result = true
  ∧ savedCount result = length saved
  ∧ technicalIndicator db' = foldl (upsert (Company.id c)) (technicalIndicator db) saved
  ∧ (∀ indicator, In indicator saved
       ↔ In indicator indicators
         ∧ (IndicatorResult.rsi14 indicator ≠ None
            ∨ IndicatorResult.sma20 indicator ≠ None))
  ∧ (NoDup (map PriceData.date (priceData_of db c)) →
     ∀ i indicator, indicators !! i = Some indicator →
       let key := (Company.id c, IndicatorResult.date indicator) in
       (IndicatorResult.rsi14 indicator ≠ None ∨ IndicatorResult.sma20 indicator ≠ None →
          technicalIndicator db' !! key
          = Some (upserted (technicalIndicator db !! key) indicator)
          ∧ (technicalIndicator db !! key = None →
               technicalIndicator db' !! key = Some indicator)
          ∧ (∀ row, technicalIndicator db !! key = Some row →
               technicalIndicator db' !! key = Some (update_row row indicator)))
       ∧ (IndicatorResult.rsi14 indicator = None ∧ IndicatorResult.sma20 indicator = None →
            technicalIndicator db' !! key = technicalIndicator db !! key)).
Proof.
  intros Hfind. cbv zeta. unfold calculateAndSaveIndicators. rewrite Hfind.
  unfold save_loop. rewrite save_loop_upserts. simpl.
  set (indicators := calculateAllIndicators sqrtQ (priceData_of db c)).
  split; [reflexivity|]. split; [reflexivity|]. split; [reflexivity|].
  split.
  { intros indicator. rewrite filter_In, worth_saving_spec. reflexivity. }
  intros Hnd i indicator Hi.
  assert (Hnd' : NoDup (map IndicatorResult.date indicators)).
  { subst indicators. rewrite calculateAllIndicators_dates. exact Hnd. }
  assert (Hin : In indicator indicators).
  { apply list_elem_of_In, list_elem_of_lookup. eauto. }
  split.
  - intros Hw.
    assert (Hsaved : foldl (upsert (Company.id c)) (technicalIndicator db)
                       (List.filter worth_saving indicators)
                     !! (Company.id c, IndicatorResult.date indicator)
                     = Some (upserted (technicalIndicator db
                                        !! (Company.id c, IndicatorResult.date indicator))
                               indicator)).
    { apply lookup_upserts_saved.
      - apply NoDup_dates_filter, Hnd'.
      - apply filter_In. split; [exact Hin | apply worth_saving_spec, Hw]. }
    split; [exact Hsaved|]. split.
    + intros Hnone. rewrite Hsaved, Hnone. reflexivity.
    + intros row Hrow. rewrite Hsaved, Hrow. reflexivity.
  - intros [Hr Hs]. apply lookup_upserts_other.
    intros Hd. apply in_map_iff in Hd. destruct Hd as (y & Hy & Hyin).
    apply filter_In in Hyin. destruct Hyin as [Hyin Hyw].
    assert (y = indicator) by (apply (NoDup_dates_inj indicators); assumption).
    subst y. apply worth_saving_spec in Hyw. destruct Hyw; contradiction.
Qed.

(** The theorem on the fifteen-day history: exactly one snapshot is saved,
    that of day 15, the first day with an RSI; the record of day 12, which
    has only an EMA(12), leaves the store as it was.  Over a store that
    already holds a snapshot of day 15, the run replaces the stored RSI by
    the computed one and keeps the stored SMA(200), for which the record has
    no value. *)
Lemma snapshot_saved_iff_rsi14_or_sma20_witness :
  savedCount (calculateAndSaveIndicators example_sqrt "EQNR.OL" fifteen_day_db).1
  = 1%nat
  ∧ map fst (map_to_list (technicalIndicator
       (calculateAndSaveIndicators example_sqrt "EQNR.OL" fifteen_day_db).2))
    = [(1%Z, day 15)]
  ∧ technicalIndicator
      (calculateAndSaveIndicators example_sqrt "EQNR.OL" fifteen_day_db).2
    !! (1%Z, day 12) = None
  ∧ (∃ r, calculateAllIndicators example_sqrt
            (priceData_of fifteen_day_db_with_row example_company) !! 14%nat = Some r
          ∧ IndicatorResult.sma200 r = None
          ∧ IndicatorResult.rsi14 r ≠ IndicatorResult.rsi14 earlier_row
          ∧ technicalIndicator
              (calculateAndSaveIndicators example_sqrt "EQNR.OL"
                 fifteen_day_db_with_row).2 !! (1%Z, day 15)
            = Some (update_row earlier_row r)
          ∧ IndicatorResult.rsi14 (update_row earlier_row r) = IndicatorResult.rsi14 r
          ∧ IndicatorResult.sma200 (update_row earlier_row r) = Some (Fin 104)).
Proof.
  pose proof (snapshot_saved_iff_rsi14_or_sma20 example_sqrt "EQNR.OL"
                fifteen_day_db example_company eq_refl) as H.
  cbv zeta in H. destruct H as (_ & Hcount & Hstore & _ & Hdates).
  split; [rewrite Hcount; vm_compute; reflexivity|].
  split; [rewrite Hstore; vm_compute; reflexivity|].
  assert (Hnd : NoDup (map PriceData.date (priceData_of fifteen_day_db example_company))).
  { apply (bool_decide_unpack _). vm_compute. exact I. }
  split.
  { destruct (lookup_lt_is_Some_2
                (calculateAllIndicators example_sqrt
                   (priceData_of fifteen_day_db example_company)) 11%nat)
      as [r Hr]; [vm_compute; lia|].
    pose proof (proj2 (Hdates Hnd 11%nat r Hr)) as Hkeep.
    vm_compute in Hr. injection Hr as <-.
    exact (Hkeep (conj eq_refl eq_refl)). }
  pose proof (snapshot_saved_iff_rsi14_or_sma20 example_sqrt "EQNR.OL"
                fifteen_day_db_with_row example_company eq_refl) as H'.
  cbv zeta in H'. destruct H' as (_ & _ & _ & _ & Hrows).
  destruct (lookup_lt_is_Some_2
              (calculateAllIndicators example_sqrt
                 (priceData_of fifteen_day_db_with_row example_company)) 14%nat)
    as [r Hr]; [vm_compute; lia|].
  exists r. split; [exact Hr|].
  pose proof (proj1 (Hrows Hnd 14%nat r Hr)) as Hsave.
  vm_compute in Hr. injection Hr as <-.
  split; [reflexivity|]. split; [discriminate|].
  split; [|split; reflexivity].
  apply Hsave; [left; discriminate|]. reflexivity.
Defined.

(** C2 as stated fails: in the twelve-day history the record of day 12 has
    a defined indicator value, its EMA(12), but neither an RSI nor an
    SMA(20); the pipeline saves no snapshot at all. *)
Lemma snapshot_with_only_ema12_not_saved_counterexample :
  (∃ r, calculateAllIndicators example_sqrt (priceData_of twelve_day_db example_company)
        !! 11%nat = Some r
        ∧ IndicatorResult.date r = day 12
        ∧ IndicatorResult.ema12 r = Some (Fin (1275 # 12)))
  ∧ savedCount (calculateAndSaveIndicators example_sqrt "EQNR.OL" twelve_day_db).1
    = 0%nat
  ∧ technicalIndicator (calculateAndSaveIndicators example_sqrt "EQNR.OL" twelve_day_db).2
    !! (1%Z, day 12) = None.
Proof.
  split; [|split].
  - eexists. split; [vm_compute; reflexivity|]. split; reflexivity.
  - vm_compute. reflexivity.
  - vm_compute. reflexivity.
Qed.

End Snapshots.

(** ** Exponential moving average *)

Module EMA.
Import TechnicalIndicators.
Import SMA RSI Bundle.

Lemma nadd_NaN_r x : nadd x NaN = NaN.
Proof. destruct x; reflexivity. Qed.

(** The entry at [period - 1] is the seed. *)
Lemma calculateEMA_seed_entry prices p :
  (1 ≤ p)%Z → (Z.to_nat (p - 1) < length prices)%nat →
  get (calculateEMA prices p) (Z.to_nat (p - 1))
  = ndiv (for_loop (Z.to_nat p) (fun i s =>
            if (i <? length prices)%nat then nadd s (get prices i) else s) (Fin 0))
         (ofZ p).
Proof.
  intros Hp Hlt. unfold calculateEMA.
  set (body := fun (i : nat) (ema : list number) => _).
  assert (Hpush : ∀ i s, ∃ x, body i s = push s x).
  { intros j ema. destruct (calculateEMA_pushes prices p j ema) as (y & Hy & _).
    exists y. exact Hy. }
  rewrite (loop_out_get (fun e => e) body); [|exact Hpush|reflexivity|exact Hlt].
  subst body. simpl.
  destruct (Z.ltb_spec (Z.of_nat (Z.to_nat (p - 1))) (p - 1)); [lia|].
  destruct (Z.eqb_spec (Z.of_nat (Z.to_nat (p - 1))) (p - 1)); [|lia].
  apply get_push_at. apply (loop_out_length (fun e => e)); [exact Hpush | reflexivity].
Qed.

(** Every later entry is obtained from the one before it. *)
Lemma calculateEMA_recurrence prices p i :
  (1 ≤ i)%nat → (p - 1 < Z.of_nat i)%Z → (i < length prices)%nat →
  get (calculateEMA prices p) i
  = nadd (nmul (nsub (get prices i) (get (calculateEMA prices p) (i - 1)))
               (ndiv (Fin 2) (ofZ (p + 1))))
         (get (calculateEMA prices p) (i - 1)).
Proof.
  intros Hi Hp Hlt. unfold calculateEMA.
  set (body := fun (i : nat) (ema : list number) => _).
  assert (Hpush : ∀ i s, ∃ x, body i s = push s x).
  { intros j ema. destruct (calculateEMA_pushes prices p j ema) as (y & Hy & _).
    exists y. exact Hy. }
  rewrite (loop_out_stable (fun e => e) body [] Hpush eq_refl (i - 1) i (length prices))
    by lia.
  rewrite (loop_out_get (fun e => e) body); [|exact Hpush|reflexivity|exact Hlt].
  set (st := for_loop i body []).
  assert (Hlen : length st = i).
  { apply (loop_out_length (fun e => e)); [exact Hpush | reflexivity]. }
  subst body. simpl.
  destruct (Z.ltb_spec (Z.of_nat i) (p - 1)); [lia|].
  destruct (Z.eqb_spec (Z.of_nat i) (p - 1)); [lia|].
  apply get_push_at. exact Hlen.
Qed.

(** With a period below one the first entry is computed from a read outside
    the array. *)
Lemma calculateEMA_first_undefined prices p :
  (p < 1)%Z → get (calculateEMA prices p) 0 = NaN.
Proof.
  intros Hp. destruct (Nat.lt_ge_cases 0 (length prices)) as [Hlt | Hge].
  - unfold calculateEMA.
    set (body := fun (i : nat) (ema : list number) => _).
    assert (Hpush : ∀ i s, ∃ x, body i s = push s x).
    { intros j ema. destruct (calculateEMA_pushes prices p j ema) as (y & Hy & _).
      exists y. exact Hy. }
    rewrite (loop_out_get (fun e => e) body); [|exact Hpush|reflexivity|exact Hlt].
    subst body. cbv beta.
    destruct (Z.ltb_spec (Z.of_nat 0) (p - 1)); [lia|].
    destruct (Z.eqb_spec (Z.of_nat 0) (p - 1)); [lia|].
    unfold for_loop. simpl foldl. unfold push. simpl app. unfold get at 1. simpl nth.
    apply nadd_NaN_r.
  - apply get_overflow. rewrite calculateEMA_length. exact Hge.
Qed.

(** The seed of a finite series. *)
Lemma seed_sum (values : list Q) n :
  (n ≤ length values)%nat →
  for_loop n (fun i s =>
    if (i <? length (map Fin values))%nat then nadd s (get (map Fin values) i) else s)
    (Fin 0)
  = Fin (foldl Qplus 0 (take n values)).
Proof.
  induction n as [|n IH]; intros Hn; [reflexivity|].
  rewrite for_loop_S, IH by lia. rewrite length_map.
  destruct (Nat.ltb_spec n (length values)); [|lia].
  rewrite get_Fin by lia. simpl nadd.
  rewrite (take_S_r values n (nth n values 0)).
  - rewrite foldl_app. reflexivity.
  - destruct (lookup_lt_is_Some_2 values n) as [x Hx]; [lia|].
    rewrite Hx. f_equal. symmetry. apply nth_lookup_Some with (d := 0). exact Hx.
Qed.

(** *** Entries of the EMA of a finite series *)

Section Entries.

Variables (values : list Q) (p : Z) (P : Q → Prop).
Hypothesis Hp : (1 ≤ p)%Z.
Hypothesis Hseed :
  (Z.to_nat p ≤ length values)%nat →
  P (foldl Qplus 0 (take (Z.to_nat p) values) / inject_Z p).
Hypothesis Hstep : ∀ e i,
  (i < length values)%nat → P e → P ((nth i values 0 - e) * smoothing p + e).

Lemma multiplier_Fin : ndiv (Fin 2) (ofZ (p + 1)) = Fin (smoothing p).
Proof.
  clear Hseed Hstep.
  unfold ofZ, smoothing. apply ndiv_Fin_nonzero.
  pose proof (inject_Z_pos (p + 1) ltac:(lia)). lra.
Qed.

Lemma seed_Fin :
  (Z.to_nat (p - 1) < length values)%nat →
  get (calculateEMA (map Fin values) p) (Z.to_nat (p - 1))
  = Fin (foldl Qplus 0 (take (Z.to_nat p) values) / inject_Z p).
Proof.
  clear Hseed Hstep.
  intros Hlt. rewrite calculateEMA_seed_entry; [|exact Hp|rewrite length_map; exact Hlt].
  rewrite seed_sum by lia. unfold ofZ. apply ndiv_Fin_nonzero.
  pose proof (inject_Z_pos p ltac:(lia)). lra.
Qed.

Lemma step_Fin i prev :
  (p ≤ Z.of_nat i)%Z → (i < length values)%nat →
  get (calculateEMA (map Fin values) p) (i - 1) = Fin prev →
  get (calculateEMA (map Fin values) p) i
  = Fin ((nth i values 0 - prev) * smoothing p + prev).
Proof.
  clear Hseed Hstep.
  intros Hi Hlt Hprev.
  rewrite calculateEMA_recurrence; [|lia|lia|rewrite length_map; exact Hlt].
  rewrite Hprev, multiplier_Fin, get_Fin by exact Hlt. reflexivity.
Qed.

Lemma calculateEMA_entries i :
  (p - 1 ≤ Z.of_nat i)%Z → (i < length values)%nat →
  ∃ q, get (calculateEMA (map Fin values) p) i = Fin q ∧ P q.
Proof.
  induction i as [|i IH]; intros Hi Hlt.
  - replace 0%nat with (Z.to_nat (p - 1)) by lia.
    rewrite seed_Fin by lia. eexists. split; [reflexivity|]. apply Hseed. lia.
  - destruct (Z.eq_dec (Z.of_nat (S i)) (p - 1)%Z) as [Heq | Hne].
    + replace (S i) with (Z.to_nat (p - 1)) by lia.
      rewrite seed_Fin by lia. eexists. split; [reflexivity|]. apply Hseed. lia.
    + destruct IH as (prev & Hprev & HP); [lia | lia |].
      rewrite (step_Fin (S i) prev); [|lia|exact Hlt|].
      * eexists. split; [reflexivity|]. apply Hstep; [exact Hlt | exact HP].
      * rewrite Nat.sub_succ, Nat.sub_0_r. exact Hprev.
Qed.

End Entries.

Lemma Qsum_bounded lo hi (l : list Q) :
  bounded lo hi l →
  inject_Z (Z.of_nat (length l)) * lo <= Qsum l
  ∧ Qsum l <= inject_Z (Z.of_nat (length l)) * hi.
Proof.
  induction 1 as [|x l [Hlo Hhi] _ [IHlo IHhi]].
  - change (inject_Z (Z.of_nat (length (@nil Q)))) with 0. unfold Qsum. simpl. lra.
  - change (Qsum (x :: l)) with (x + Qsum l).
    change (length (x :: l)) with (S (length l)).
    rewrite Nat2Z.inj_succ. unfold Z.succ. rewrite inject_Z_plus.
    change (inject_Z 1) with 1. split; lra.
Qed.

Lemma smoothing_range p : (1 ≤ p)%Z → 0 < smoothing p ∧ smoothing p <= 1.
Proof.
  intros Hp. unfold smoothing.
  assert (H2 : 2 <= inject_Z (p + 1)).
  { change 2 with (inject_Z 2). rewrite <- Zle_Qle. lia. }
  split.
  - apply Qdiv_pos; lra.
  - apply Qle_shift_div_r; lra.
Qed.

Lemma Qsum_nonneg (l : list Q) : Forall (fun q => 0 <= q) l → 0 <= Qsum l.
Proof.
  induction 1 as [|x l Hx _ IH]; [unfold Qsum; simpl; lra|].
  change (Qsum (x :: l)) with (x + Qsum l). lra.
Qed.

Lemma seed_nonneg (values : list Q) p :
  (1 ≤ p)%Z → Forall (fun v => 0 <= v) values →
  0 <= foldl Qplus 0 (take (Z.to_nat p) values) / inject_Z p.
Proof.
  intros Hp Hv. apply Qdiv_nonneg; [|apply inject_Z_pos; lia].
  rewrite foldl_Qplus_Qsum.
  pose proof (Qsum_nonneg (take (Z.to_nat p) values) (Forall_take _ _ _ Hv)). lra.
Qed.

Lemma step_nonneg m e v :
  0 < m → m <= 1 → 0 <= e → 0 <= v → 0 <= (v - e) * m + e.
Proof.
  intros Hm0 Hm1 He Hv.
  assert (E : (v - e) * m + e == m * v + (1 - m) * e) by ring.
  rewrite E.
  pose proof (Qmult_le_0_compat m v ltac:(lra) Hv).
  pose proof (Qmult_le_0_compat (1 - m) e ltac:(lra) He).
  lra.
Qed.

(** X1. the EMA is defined from index [period - 1] on; it starts at the mean
    of the first [period] prices and then moves towards each new price by the
    fraction 2 / (period + 1). *)
Theorem calculateEMA_spec (values : list Q) (p : Z) :
  (1 ≤ p)%Z →
  let ema := calculateEMA (map Fin values) p in
  let L := length values in
  length ema = L
  ∧ (∀ i, (i < L)%nat → defined (get ema i) ↔ (p - 1 ≤ Z.of_nat i)%Z)
  ∧ ((Z.to_nat p ≤ L)%nat →
       get ema (Z.to_nat (p - 1)) ~= Fin (mean (take (Z.to_nat p) values)))
  ∧ (∀ i, (p ≤ Z.of_nat i)%Z → (i < L)%nat →
       ∃ prev cur, get ema (i - 1) = Fin prev ∧ get ema i = Fin cur
         ∧ cur == (nth i values 0 - prev) * smoothing p + prev).
Proof.
  intros Hp ema L. subst ema L.
  split; [rewrite calculateEMA_length, length_map; reflexivity|].
  split; [|split].
  - intros i Hi. split.
    + intros Hdef. destruct (Z.lt_ge_cases (Z.of_nat i) (p - 1)) as [Hlt | Hge]; [|exact Hge].
      rewrite (calculateEMA_early (map Fin values) p i) in Hdef by lia. discriminate.
    + intros Hge.
      destruct (calculateEMA_entries values p (fun _ => True) Hp (fun _ => I)
                  (fun _ _ _ _ => I) i Hge Hi) as (q & -> & _).
      reflexivity.
  - intros Hlen. rewrite seed_Fin by lia. unfold mean. simpl.
    rewrite foldl_Qplus_Qsum, length_take, Nat.min_l, Z2Nat.id by lia.
    pose proof (inject_Z_pos p ltac:(lia)). field. lra.
  - intros i Hge Hi.
    destruct (calculateEMA_entries values p (fun _ => True) Hp (fun _ => I)
                (fun _ _ _ _ => I) (i - 1)) as (prev & Hprev & _); [lia | lia |].
    exists prev. eexists. split; [exact Hprev|].
    split; [apply (step_Fin values p Hp i prev Hge Hi Hprev) | reflexivity].
Qed.

Lemma calculateEMA_spec_witness :
  get (calculateEMA (map Fin [10; 12; 14; 10]) 2) 1 ~= Fin (mean [10; 12])
  ∧ defined (get (calculateEMA (map Fin [10; 12; 14; 10]) 2) 3).
Proof.
  pose proof (calculateEMA_spec [10; 12; 14; 10] 2 ltac:(lia)) as H.
  cbv zeta in H. destruct H as (_ & Hdef & Hseed & _).
  split; [apply Hseed; simpl; lia | apply (Hdef 3%nat); simpl; lia].
Defined.

(** X2. an EMA of prices that are not negative is never negative: every
    entry is the [NaN] marker or a finite value of at least 0. *)
Theorem calculateEMA_nonneg (values : list Q) (p : Z) :
  (1 ≤ p)%Z → Forall (fun v => 0 <= v) values →
  Forall marker_or_nonneg (calculateEMA (map Fin values) p).
Proof.
  intros Hp Hv. apply List.Forall_forall. intros x Hx.
  destruct (In_nth _ _ NaN Hx) as (i & Hi & <-).
  rewrite calculateEMA_length, length_map in Hi.
  change (nth i (calculateEMA (map Fin values) p) NaN)
    with (get (calculateEMA (map Fin values) p) i).
  destruct (Z.lt_ge_cases (Z.of_nat i) (p - 1)) as [Hlt | Hge].
  - left. apply calculateEMA_early. lia.
  - right.
    destruct (calculateEMA_entries values p (fun q => 0 <= q) Hp) with (i := i)
      as (q & Hq & Hq0); [| |exact Hge|exact Hi|].
    + intros _. apply seed_nonneg; assumption.
    + intros e j Hj He. destruct (smoothing_range p Hp) as [Hm0 Hm1].
      apply step_nonneg; [exact Hm0 | exact Hm1 | exact He |].
      rewrite List.Forall_forall in Hv. apply Hv. apply nth_In. exact Hj.
    + exists q. split; [exact Hq | exact Hq0].
Qed.

Lemma calculateEMA_nonneg_witness :
  Forall marker_or_nonneg (calculateEMA (map Fin [10; 12; 14; 10]) 2).
Proof.
  apply calculateEMA_nonneg; [lia|].
  repeat constructor; simpl; lra.
Defined.

End EMA.

(** ** Shape of the indicator arrays *)

Module Shape.
Import TechnicalIndicators.
Import SMA RSI Bundle EMA.

Lemma padded_length (src g : list number) :
  (length g ≤ length src)%nat →
  length (fill_NaN (Z.of_nat (length src) - Z.of_nat (length g)) ++ g) = length src.
Proof.
  intros H. unfold fill_NaN. rewrite length_app, length_replicate. lia.
Qed.

(** X3. every array an indicator function returns has one entry per input
    price. *)
Theorem indicator_arrays_keep_the_input_length (sqrtQ : Q → Q)
    (prices highs lows closes : list number) (p fast slow signalPeriod smoothK : Z)
    (stdDev : number) :
  let macdData := calculateMACD prices fast slow signalPeriod in
  let bollinger := calculateBollingerBands sqrtQ prices p stdDev in
  let stochastic := calculateStochastic highs lows closes p smoothK in
  length (calculateSMA prices p) = length prices
  ∧ length (calculateEMA prices p) = length prices
  ∧ length (calculateRSI prices p) = length prices
  ∧ length (macd macdData) = length prices
  ∧ length (signal macdData) = length prices
  ∧ length (histogram macdData) = length prices
  ∧ length (upper bollinger) = length prices
  ∧ length (middle bollinger) = length prices
  ∧ length (lower bollinger) = length prices
  ∧ length (k stochastic) = length closes
  ∧ length (d stochastic) = length closes
  ∧ length (calculateATR highs lows closes p) = length closes
  ∧ length (calculateADX highs lows closes p) = length closes.
Proof.
  intros macdData bollinger stochastic.
  assert (Hmacd : length (macd macdData) = length prices).
  { subst macdData. unfold calculateMACD. simpl.
    apply (loop_out_length (fun m => m)); [|reflexivity].
    intros i s. simpl. destruct (_ || _); eexists; reflexivity. }
  assert (Hsignal : length (signal macdData) = length prices).
  { rewrite <- Hmacd. subst macdData. unfold calculateMACD. simpl.
    apply padded_length. rewrite calculateEMA_length. apply filter_defined_le. }
  assert (Hk : length (k stochastic) = length closes).
  { subst stochastic. unfold calculateStochastic. simpl.
    rewrite padded_length by (rewrite calculateSMA_length; apply filter_defined_le).
    apply (loop_out_length (fun m => m)); [|reflexivity].
    intros i s. simpl. destruct (_ <? _)%Z; eexists; reflexivity. }
  repeat match goal with |- _ ∧ _ => split end.
  - apply calculateSMA_length.
  - apply calculateEMA_length.
  - apply calculateRSI_length.
  - exact Hmacd.
  - exact Hsignal.
  - rewrite <- Hmacd. subst macdData. unfold calculateMACD. simpl. apply length_imap.
  - subst bollinger. unfold calculateBollingerBands. simpl.
    apply (loop_out_length fst); [|reflexivity].
    intros i [u l]. simpl. destruct (_ <? _)%Z; eexists; reflexivity.
  - apply calculateSMA_length.
  - subst bollinger. unfold calculateBollingerBands. simpl.
    apply (loop_out_length snd); [|reflexivity].
    intros i [u l]. simpl. destruct (_ <? _)%Z; eexists; reflexivity.
  - exact Hk.
  - rewrite <- Hk. subst stochastic. unfold calculateStochastic. simpl.
    apply padded_length. rewrite calculateSMA_length. apply filter_defined_le.
  - unfold calculateATR. rewrite calculateEMA_length.
    apply (loop_out_length (fun m => m)); [|reflexivity].
    intros i s. eexists; reflexivity.
  - apply calculateADX_length.
Qed.

(** *** Later prices never change earlier entries *)

Lemma get_app_before (a b : list number) i :
  (i < length a)%nat → get (a ++ b) i = get a i.
Proof. intros H. unfold get. apply app_nth1. exact H. Qed.

Lemma slice_app_before {A} (a b : list A) (s e : Z) :
  (0 ≤ s)%Z → (0 ≤ e)%Z → (e ≤ Z.of_nat (length a))%Z →
  slice (a ++ b) s e = slice a s e.
Proof.
  intros Hs He Hle. unfold slice. rewrite length_app.
  destruct (Z.ltb_spec s 0); [lia|]. destruct (Z.ltb_spec e 0); [lia|].
  rewrite (Z.min_l e), (Z.min_l e) by lia.
  destruct (Z.le_gt_cases s (Z.of_nat (length a))) as [Hsa | Hsa].
  - rewrite (Z.min_l s), (Z.min_l s) by lia.
    rewrite drop_app_le by lia. apply take_app_le. rewrite length_drop. lia.
  - replace (Z.to_nat (e - Z.min s (Z.of_nat (length a + length b)))) with 0%nat by lia.
    replace (Z.to_nat (e - Z.min s (Z.of_nat (length a)))) with 0%nat by lia.
    reflexivity.
Qed.

Lemma sma_at_app_before prices more p i :
  (i < length prices)%nat → sma_at (prices ++ more) p i = sma_at prices p i.
Proof.
  intros Hi. unfold sma_at.
  destruct (Z.ltb_spec (Z.of_nat i) (p - 1)); [reflexivity|].
  rewrite slice_app_before by lia. reflexivity.
Qed.

Lemma calculateSMA_app_before prices more p :
  agree_before (length prices) (calculateSMA (prices ++ more) p) (calculateSMA prices p).
Proof.
  intros i Hi. rewrite !calculateSMA_get by (rewrite ?length_app; lia).
  apply sma_at_app_before. exact Hi.
Qed.

Lemma seed_app_before prices more n :
  (n ≤ length prices)%nat →
  for_loop n (fun i s =>
    if (i <? length (prices ++ more))%nat then nadd s (get (prices ++ more) i) else s)
    (Fin 0)
  = for_loop n (fun i s =>
      if (i <? length prices)%nat then nadd s (get prices i) else s) (Fin 0).
Proof.
  intros Hn. apply for_loop_ext. intros i s Hi. rewrite length_app.
  destruct (Nat.ltb_spec i (length prices)); [|lia].
  destruct (Nat.ltb_spec i (length prices + length more)); [|lia].
  rewrite get_app_before by lia. reflexivity.
Qed.

Lemma calculateEMA_app_before prices more p :
  agree_before (length prices) (calculateEMA (prices ++ more) p) (calculateEMA prices p).
Proof.
  intros i. induction i as [|i IH]; intros Hi.
  - destruct (Z.lt_ge_cases p 1) as [Hp | Hp].
    + rewrite !calculateEMA_first_undefined by exact Hp. reflexivity.
    + destruct (Z.eq_dec p 1%Z) as [-> | Hne].
      * pose proof (calculateEMA_seed_entry (prices ++ more) 1 ltac:(lia)
                      ltac:(rewrite length_app; simpl; lia)) as H1.
        pose proof (calculateEMA_seed_entry prices 1 ltac:(lia) ltac:(simpl; lia)) as H2.
        change (Z.to_nat (1 - 1)) with 0%nat in H1, H2.
        rewrite H1, H2, seed_app_before by (simpl; lia). reflexivity.
      * rewrite !calculateEMA_early by lia. reflexivity.
  - destruct (Z.lt_ge_cases (Z.of_nat (S i)) (p - 1)) as [Hlt | Hge].
    + rewrite !calculateEMA_early by lia. reflexivity.
    + destruct (Z.eq_dec (Z.of_nat (S i)) (p - 1)%Z) as [Heq | Hne].
      * replace (S i) with (Z.to_nat (p - 1)) by lia.
        rewrite (calculateEMA_seed_entry (prices ++ more) p), (calculateEMA_seed_entry prices p);
          [|lia|lia|lia|rewrite length_app; lia].
        rewrite seed_app_before by lia. reflexivity.
      * rewrite (calculateEMA_recurrence (prices ++ more) p (S i)),
                (calculateEMA_recurrence prices p (S i));
          [|lia|lia|lia|lia|lia|rewrite length_app; lia].
        rewrite Nat.sub_succ, Nat.sub_0_r, IH by lia.
        rewrite get_app_before by lia. reflexivity.
Qed.

Lemma calculateRSI_app_before prices more p :
  agree_before (length prices) (calculateRSI (prices ++ more) p) (calculateRSI prices p).
Proof.
  intros i Hi. unfold calculateRSI.
  rewrite (loop_out_stable rsi _ (mkRSI [] [] [] (Fin 0) (Fin 0))
             (rsi_step_pushes (prices ++ more) p) eq_refl
             i (length prices) (length (prices ++ more)))
    by (rewrite ?length_app; lia).
  f_equal. f_equal. apply for_loop_ext. intros j st Hj. unfold rsi_step.
  rewrite !get_app_before by lia. reflexivity.
Qed.

Lemma trueRange_app_before highs lows closes moreH moreL moreC i :
  (i < length highs)%nat → (i < length lows)%nat → (i < length closes)%nat →
  trueRange (highs ++ moreH) (lows ++ moreL) (closes ++ moreC) i
  = trueRange highs lows closes i.
Proof.
  intros Hh Hl Hc. unfold trueRange. rewrite !get_app_before by lia. reflexivity.
Qed.

Lemma calculateADX_app_before highs lows closes moreH moreL moreC p :
  length highs = length closes → length lows = length closes →
  agree_before (length closes)
    (calculateADX (highs ++ moreH) (lows ++ moreL) (closes ++ moreC) p)
    (calculateADX highs lows closes p).
Proof.
  intros Hh Hl i Hi. unfold calculateADX.
  rewrite (loop_out_stable adx _ (mkADX [] [] [] [])
             (adx_step_pushes (highs ++ moreH) (lows ++ moreL) (closes ++ moreC) p) eq_refl
             i (length closes) (length (closes ++ moreC)))
    by (rewrite ?length_app; lia).
  f_equal. f_equal. apply for_loop_ext. intros j st Hj. unfold adx_step.
  rewrite !trueRange_app_before by lia.
  rewrite !get_app_before by lia. reflexivity.
Qed.

Lemma calculateATR_app_before highs lows closes moreH moreL moreC p :
  length highs = length closes → length lows = length closes →
  agree_before (length closes)
    (calculateATR (highs ++ moreH) (lows ++ moreL) (closes ++ moreC) p)
    (calculateATR highs lows closes p).
Proof.
  intros Hh Hl. unfold calculateATR. rewrite !for_loop_push.
  rewrite length_app, seq_app, map_app. simpl.
  rewrite (map_ext_in _ (trueRange highs lows closes) (seq 0 (length closes))).
  - pose proof (calculateEMA_app_before
                  (map (trueRange highs lows closes) (seq 0 (length closes)))
                  (map (trueRange (highs ++ moreH) (lows ++ moreL) (closes ++ moreC))
                     (seq (length closes) (length moreC))) p) as H.
    rewrite length_map, length_seq in H. exact H.
  - intros j Hj. apply in_seq in Hj. apply trueRange_app_before; lia.
Qed.

Lemma calculateBollingerBands_app_before sqrtQ prices more p stdDev :
  agree_before (length prices)
    (upper (calculateBollingerBands sqrtQ (prices ++ more) p stdDev))
    (upper (calculateBollingerBands sqrtQ prices p stdDev))
  ∧ agree_before (length prices)
      (lower (calculateBollingerBands sqrtQ (prices ++ more) p stdDev))
      (lower (calculateBollingerBands sqrtQ prices p stdDev)).
Proof.
  unfold calculateBollingerBands. simpl.
  set (body := fun (prices : list number) (i : nat) (s : list number * list number) =>
    let '(upper, lower) := s in
    if (Z.of_nat i <? p - 1)%Z then (push upper NaN, push lower NaN)
    else
      let slice := slice prices (Z.of_nat i - p + 1) (Z.of_nat i + 1) in
      let mean := get (calculateSMA prices p) i in
      let variance :=
        ndiv (foldl (fun sum price =>
                       nadd sum (nmul (nsub price mean) (nsub price mean)))
                    (Fin 0) slice)
             (ofZ p) in
      let sd := Math_sqrt sqrtQ variance in
      (push upper (nadd mean (nmul stdDev sd)),
       push lower (nsub mean (nmul stdDev sd)))).
  change (agree_before (length prices)
            (fst (for_loop (length (prices ++ more)) (body (prices ++ more)) ([], [])))
            (fst (for_loop (length prices) (body prices) ([], [])))
          ∧ agree_before (length prices)
            (snd (for_loop (length (prices ++ more)) (body (prices ++ more)) ([], [])))
            (snd (for_loop (length prices) (body prices) ([], [])))).
  assert (Hfst : ∀ pr i s, ∃ x, fst (body pr i s) = push (fst s) x).
  { intros pr i [u l]. subst body. simpl. destruct (_ <? _)%Z; eexists; reflexivity. }
  assert (Hsnd : ∀ pr i s, ∃ x, snd (body pr i s) = push (snd s) x).
  { intros pr i [u l]. subst body. simpl. destruct (_ <? _)%Z; eexists; reflexivity. }
  assert (Hloop : for_loop (length prices) (body (prices ++ more)) ([], [])
                  = for_loop (length prices) (body prices) ([], [])).
  { apply for_loop_ext. intros i [u l] Hi. subst body. cbv beta iota zeta.
    destruct (Z.ltb_spec (Z.of_nat i) (p - 1)); [reflexivity|].
    rewrite slice_app_before by lia.
    rewrite (calculateSMA_app_before prices more p i Hi). reflexivity. }
  split; intros i Hi.
  - rewrite (loop_out_stable fst _ ([], []) (Hfst (prices ++ more)) eq_refl
               i (length prices) (length (prices ++ more)))
      by (rewrite ?length_app; lia).
    rewrite Hloop. reflexivity.
  - rewrite (loop_out_stable snd _ ([], []) (Hsnd (prices ++ more)) eq_refl
               i (length prices) (length (prices ++ more)))
      by (rewrite ?length_app; lia).
    rewrite Hloop. reflexivity.
Qed.

(** X4. the indicators computed from closing prices look back only: appending
    later prices to a series leaves every entry already computed as it
    was. *)
Theorem close_indicators_ignore_later_prices (sqrtQ : Q → Q)
    (prices more : list number) (p : Z) (stdDev : number) :
  let n := length prices in
  agree_before n (calculateSMA (prices ++ more) p) (calculateSMA prices p)
  ∧ agree_before n (calculateEMA (prices ++ more) p) (calculateEMA prices p)
  ∧ agree_before n (calculateRSI (prices ++ more) p) (calculateRSI prices p)
  ∧ agree_before n
      (upper (calculateBollingerBands sqrtQ (prices ++ more) p stdDev))
      (upper (calculateBollingerBands sqrtQ prices p stdDev))
  ∧ agree_before n
      (middle (calculateBollingerBands sqrtQ (prices ++ more) p stdDev))
      (middle (calculateBollingerBands sqrtQ prices p stdDev))
  ∧ agree_before n
      (lower (calculateBollingerBands sqrtQ (prices ++ more) p stdDev))
      (lower (calculateBollingerBands sqrtQ prices p stdDev)).
Proof.
  intros n. subst n.
  destruct (calculateBollingerBands_app_before sqrtQ prices more p stdDev) as [Hu Hl].
  split; [apply calculateSMA_app_before|].
  split; [apply calculateEMA_app_before|].
  split; [apply calculateRSI_app_before|].
  split; [exact Hu|]. split; [apply calculateSMA_app_before | exact Hl].
Qed.

(** X5. the indicators computed from daily ranges look back only as well:
    appending later days leaves the ATR and ADX entries already computed as
    they were. *)
Theorem range_indicators_ignore_later_days
    (highs lows closes moreH moreL moreC : list number) (p : Z) :
  length highs = length closes → length lows = length closes →
  agree_before (length closes)
    (calculateATR (highs ++ moreH) (lows ++ moreL) (closes ++ moreC) p)
    (calculateATR highs lows closes p)
  ∧ agree_before (length closes)
      (calculateADX (highs ++ moreH) (lows ++ moreL) (closes ++ moreC) p)
      (calculateADX highs lows closes p).
Proof.
  intros Hh Hl.
  split; [apply calculateATR_app_before | apply calculateADX_app_before]; assumption.
Qed.

Lemma range_indicators_ignore_later_days_witness :
  get (calculateATR ([Fin 3; Fin 4] ++ [Fin 9]) ([Fin 1; Fin 2] ++ [Fin 0])
         ([Fin 2; Fin 3] ++ [Fin 5]) 2) 1
  = get (calculateATR [Fin 3; Fin 4] [Fin 1; Fin 2] [Fin 2; Fin 3] 2) 1.
Proof.
  exact (proj1 (range_indicators_ignore_later_days
                  [Fin 3; Fin 4] [Fin 1; Fin 2] [Fin 2; Fin 3]
                  [Fin 9] [Fin 0] [Fin 5] 2 eq_refl eq_refl) 1%nat ltac:(simpl; lia)).
Defined.

End Shape.

(** ** More on the relative strength index *)

Module Wilder.
Import TechnicalIndicators.
Import SMA RSI Bundle.

Lemma rsi_of_flat a b : zero a → zero b → rsi_of a b ~= Fin 50.
Proof.
  intros (qa & -> & Ha) (qb & -> & Hb). unfold rsi_of. simpl.
  rewrite (proj2 (Qeq_bool_iff qb 0) Hb), (proj2 (Qeq_bool_iff qa 0) Ha).
  simpl. reflexivity.
Qed.

Lemma gain_loss_flat values j :
  change values j == 0 → zero (gain_at values j) ∧ zero (loss_at values j).
Proof.
  intros Hc. unfold gain_at, loss_at, ngt.
  rewrite (proj2 (nlt_Fin_false 0 (change values j))) by lra.
  rewrite (proj2 (nlt_Fin_false (change values j) 0)) by lra.
  split; exists 0; split; reflexivity.
Qed.

(** X6. while the price has not moved, the RSI is 50. *)
Theorem calculateRSI_flat (values : list Q) (p : Z) (i : nat) :
  (1 ≤ p)%Z → (p ≤ Z.of_nat i)%Z → (i < length values)%nat →
  (∀ j, (0 < j ≤ i)%nat → change values j == 0) →
  get (calculateRSI (map Fin values) p) i ~= Fin 50.
Proof.
  intros Hp Hpi Hi Hflat.
  apply (calculateRSI_monotone zero zero (Fin 50) values p i
           preserved_zero preserved_zero rsi_of_flat Hp Hpi Hi).
  intros j Hj. apply gain_loss_flat, Hflat, Hj.
Qed.

Lemma calculateRSI_flat_witness :
  get (calculateRSI (map Fin [7; 7; 7; 9]) 2) 2 ~= Fin 50.
Proof.
  apply calculateRSI_flat; [lia | simpl; lia | simpl; lia |].
  intros j Hj. assert (Hcases : j = 1%nat ∨ j = 2%nat) by lia.
  destruct Hcases as [-> | ->]; reflexivity.
Defined.

(** The entry pushed from index [period] on is the RSI of the new
    averages. *)
Lemma rsi_step_late prices p i st :
  (1 ≤ i)%nat → (p ≤ Z.of_nat i)%Z →
  rsi (rsi_step prices p i st)
  = push (rsi st) (rsi_of (avgGain (rsi_step prices p i st))
                          (avgLoss (rsi_step prices p i st))).
Proof.
  intros Hi Hp. unfold rsi_step.
  destruct (Nat.eqb_spec i 0); [lia|].
  destruct (Z.ltb_spec (Z.of_nat i) p); [lia|].
  destruct (Z.of_nat i =? p)%Z; reflexivity.
Qed.

Lemma calculateRSI_late (values : list Q) (p : Z) (i : nat) :
  (1 ≤ p)%Z → (p ≤ Z.of_nat i)%Z → (i < length values)%nat →
  within 0 100 (get (calculateRSI (map Fin values) p) i).
Proof.
  intros Hp Hpi Hi. unfold calculateRSI.
  rewrite (loop_out_get rsi);
    [|apply rsi_step_pushes|reflexivity|rewrite length_map; exact Hi].
  pose proof (rsi_loop_invariant values p i ltac:(lia)) as Hinv.
  set (st := for_loop i _ _) in *.
  pose proof (rsi_step_invariant values p i st Hi Hinv) as Hinv'.
  rewrite rsi_step_late by lia.
  rewrite get_push_at by apply (rsi_inv_rsi_length _ _ _ Hinv).
  pose proof (rsi_inv_averages _ _ _ Hinv') as Havg.
  unfold averages_ok in Havg.
  destruct (Z.compare_spec p 0) as [? | ? | _]; [lia | lia |].
  destruct Havg as (a & b & -> & -> & Ha & Hb).
  apply rsi_of_same_sign. left. split; assumption.
Qed.

(** X7. on finite prices the RSI is defined exactly from index [period]
    on; there are [L - period] defined entries. *)
Theorem calculateRSI_defined_from_period (values : list Q) (p : Z) :
  (1 ≤ p)%Z →
  let rsi := calculateRSI (map Fin values) p in
  let L := length values in
  (∀ i, (i < L)%nat → defined (get rsi i) ↔ (p ≤ Z.of_nat i)%Z)
  ∧ count_defined rsi = (L - Z.to_nat p)%nat.
Proof.
  intros Hp rsi L. subst rsi L.
  assert (Hiff : ∀ i, (i < length values)%nat →
            defined (get (calculateRSI (map Fin values) p) i) ↔ (p ≤ Z.of_nat i)%Z).
  { intros i Hi. split.
    - intros Hdef. destruct (Z.lt_ge_cases (Z.of_nat i) p) as [Hlt | Hge]; [|exact Hge].
      rewrite (calculateRSI_early (map Fin values) p i) in Hdef by lia. discriminate.
    - intros Hge. destruct (calculateRSI_late values p i Hp Hge Hi) as (r & -> & _).
      reflexivity. }
  split; [exact Hiff|].
  assert (Hmap : calculateRSI (map Fin values) p
                 = map (get (calculateRSI (map Fin values) p)) (seq 0 (length values))).
  { apply nth_ext with (d := NaN) (d' := NaN).
    - rewrite length_map, length_seq, calculateRSI_length, length_map. reflexivity.
    - intros i Hi. rewrite calculateRSI_length, length_map in Hi.
      symmetry.
      exact (get_map_seq (get (calculateRSI (map Fin values) p)) (length values) i Hi). }
  rewrite Hmap. apply count_defined_map_seq.
  intros i Hi. rewrite <- (Nat2Z.id i) at 2.
  rewrite (Hiff i Hi). split; intros H; lia.
Qed.

Lemma calculateRSI_defined_from_period_witness :
  count_defined (calculateRSI (map Fin [7; 8; 7; 9]) 2) = 2%nat.
Proof.
  exact (proj2 (calculateRSI_defined_from_period [7; 8; 7; 9] 2 ltac:(lia))).
Defined.

End Wilder.

(** ** Bands and oscillators *)

Module Bands.
Import TechnicalIndicators.
Import SMA RSI Bundle EMA Shape.

Lemma slice_Fin_window (values : list Q) (p : Z) (i : nat) :
  (0 < p)%Z → (i < length values)%nat → (p - 1 ≤ Z.of_nat i)%Z →
  slice (map Fin values) (Z.of_nat i - p + 1) (Z.of_nat i + 1)
  = map Fin (window values (Z.to_nat p) i).
Proof.
  intros Hp Hi Hpi.
  rewrite slice_window by (rewrite ?length_map; lia).
  replace (Z.to_nat (Z.of_nat i + 1 - (Z.of_nat i - p + 1))) with (Z.to_nat p) by lia.
  replace (Z.to_nat (Z.of_nat i - p + 1)) with (i + 1 - Z.to_nat p)%nat by lia.
  rewrite skipn_map, firstn_map. reflexivity.
Qed.

Lemma bounded_window lo hi (values : list Q) p i :
  bounded lo hi values → bounded lo hi (window values p i).
Proof. intros H. unfold window, bounded. apply Forall_take, Forall_drop, H. Qed.

Lemma mean_bounded lo hi (w : list Q) p :
  (1 ≤ p)%Z → bounded lo hi w → length w = Z.to_nat p →
  lo <= foldl Qplus 0 w / inject_Z p ∧ foldl Qplus 0 w / inject_Z p <= hi.
Proof.
  intros Hp Hb Hlen.
  pose proof (Qsum_bounded lo hi w Hb) as [Hl Hh].
  rewrite Hlen, Z2Nat.id in Hl, Hh by lia.
  pose proof (inject_Z_pos p ltac:(lia)) as Hpos.
  rewrite foldl_Qplus_Qsum.
  split.
  - apply Qle_shift_div_l; [exact Hpos | lra].
  - apply Qle_shift_div_r; [exact Hpos | lra].
Qed.

(** A moving average stays within the range of its input. *)
Lemma calculateSMA_within lo hi (values : list Q) p :
  (1 ≤ p)%Z → bounded lo hi values →
  Forall (marker_or_within lo hi) (calculateSMA (map Fin values) p).
Proof.
  intros Hp Hb. rewrite calculateSMA_map. apply List.Forall_forall.
  intros x Hx. apply in_map_iff in Hx. destruct Hx as (i & <- & Hi).
  apply in_seq in Hi. rewrite length_map in Hi.
  destruct (Z.lt_ge_cases (Z.of_nat i) (p - 1)) as [Hlt | Hge].
  - left. unfold sma_at. destruct (Z.ltb_spec (Z.of_nat i) (p - 1)); [reflexivity | lia].
  - right. rewrite sma_at_window by lia. eexists. split; [reflexivity|].
    apply mean_bounded; [exact Hp | apply bounded_window, Hb|].
    apply window_length; lia.
Qed.

(** *** Bollinger bands *)

Lemma squares_Fin (m a : Q) (w : list Q) :
  foldl (fun sum price => nadd sum (nmul (nsub price (Fin m)) (nsub price (Fin m))))
        (Fin a) (map Fin w)
  = Fin (foldl (fun s v => s + (v - m) * (v - m)) a w).
Proof.
  revert a. induction w as [|x w IH]; intros a; [reflexivity|].
  simpl map. simpl foldl. exact (IH (a + (x - m) * (x - m))).
Qed.

Lemma square_nonneg (x : Q) : 0 <= x * x.
Proof.
  destruct (Qlt_le_dec x 0) as [H | H].
  - assert (E : x * x == (- x) * (- x)) by ring. rewrite E.
    apply Qmult_le_0_compat; lra.
  - apply Qmult_le_0_compat; exact H.
Qed.

Lemma squares_nonneg (m a : Q) (w : list Q) :
  0 <= a → 0 <= foldl (fun s v => s + (v - m) * (v - m)) a w.
Proof.
  revert a. induction w as [|x w IH]; intros a Ha; [exact Ha|].
  simpl. apply IH. pose proof (square_nonneg (x - m)). lra.
Qed.

Lemma Math_sqrt_nonneg sqrtQ v : 0 <= v → Math_sqrt sqrtQ (Fin v) = Fin (sqrtQ v).
Proof.
  intros Hv. unfold Math_sqrt. destruct (v ?= 0) eqn:E; try reflexivity.
  apply Qlt_alt in E. lra.
Qed.

(** The three entries at an index with a full window. *)
Lemma band_entries (sqrtQ : Q → Q) (values : list Q) (p : Z) (kq : Q) (i : nat) :
  (1 ≤ p)%Z → (p - 1 ≤ Z.of_nat i)%Z → (i < length values)%nat →
  let bands := calculateBollingerBands sqrtQ (map Fin values) p (Fin kq) in
  let w := window values (Z.to_nat p) i in
  let m := foldl Qplus 0 w / inject_Z p in
  let v := foldl (fun s x => s + (x - m) * (x - m)) 0 w / inject_Z p in
  get (upper bands) i = Fin (m + kq * sqrtQ v)
  ∧ get (middle bands) i = Fin m
  ∧ get (lower bands) i = Fin (m - kq * sqrtQ v)
  ∧ 0 <= v.
Proof.
  intros Hp Hpi Hi bands w m v.
  assert (Hv : 0 <= v).
  { subst v. apply Qdiv_nonneg; [apply squares_nonneg; lra|].
    apply inject_Z_pos. lia. }
  assert (Hmid : get (calculateSMA (map Fin values) p) i = Fin m).
  { rewrite calculateSMA_get by (rewrite length_map; exact Hi).
    apply sma_at_window; lia. }
  assert (Hsd : Math_sqrt sqrtQ
            (ndiv (foldl (fun sum price =>
                     nadd sum (nmul (nsub price (Fin m)) (nsub price (Fin m))))
                     (Fin 0)
                     (slice (map Fin values) (Z.of_nat i - p + 1) (Z.of_nat i + 1)))
                  (ofZ p))
          = Fin (sqrtQ v)).
  { rewrite slice_Fin_window by lia. fold w. rewrite squares_Fin.
    unfold ofZ. rewrite ndiv_Fin_nonzero
      by (pose proof (inject_Z_pos p ltac:(lia)); lra).
    apply Math_sqrt_nonneg. exact Hv. }
  subst bands. unfold calculateBollingerBands. simpl.
  set (body := fun (i : nat) (s : list number * list number) => _).
  assert (Hfst : ∀ i s, ∃ x, fst (body i s) = push (fst s) x).
  { intros j [u l]. subst body. simpl. destruct (_ <? _)%Z; eexists; reflexivity. }
  assert (Hsnd : ∀ i s, ∃ x, snd (body i s) = push (snd s) x).
  { intros j [u l]. subst body. simpl. destruct (_ <? _)%Z; eexists; reflexivity. }
  pose proof (loop_out_length fst body ([], []) Hfst eq_refl i) as Hlu.
  pose proof (loop_out_length snd body ([], []) Hsnd eq_refl i) as Hll.
  rewrite (loop_out_get fst body ([], []) Hfst eq_refl i (length (map Fin values)))
    by (rewrite length_map; exact Hi).
  rewrite (loop_out_get snd body ([], []) Hsnd eq_refl i (length (map Fin values)))
    by (rewrite length_map; exact Hi).
  destruct (for_loop i body ([], [])) as [u l]. simpl in Hlu, Hll.
  subst body. cbv beta iota zeta.
  destruct (Z.ltb_spec (Z.of_nat i) (p - 1)); [lia|].
  rewrite Hmid, Hsd. simpl fst. simpl snd.
  rewrite !get_push_at by assumption.
  split; [reflexivity|]. split; [reflexivity|]. split; [reflexivity | exact Hv].
Qed.

(** X8. where the window is full, the Bollinger bands are finite, the
    middle band is the moving average, the upper and lower bands lie at the
    same distance above and below it, and (for a non-negative width factor)
    lower <= middle <= upper. *)
Theorem bollinger_bands_ordered (sqrtQ : Q → Q) (values : list Q) (p : Z)
    (kq : Q) (i : nat) :
  (∀ q, 0 <= q → 0 <= sqrtQ q) →
  0 <= kq → (1 ≤ p)%Z → (p - 1 ≤ Z.of_nat i)%Z → (i < length values)%nat →
  let bands := calculateBollingerBands sqrtQ (map Fin values) p (Fin kq) in
  ∃ lo mid up,
    get (lower bands) i = Fin lo
    ∧ get (middle bands) i = Fin mid
    ∧ get (upper bands) i = Fin up
    ∧ mid == mean (window values (Z.to_nat p) i)
    ∧ up - mid == mid - lo
    ∧ lo <= mid ∧ mid <= up.
Proof.
  intros Hsqrt Hk Hp Hpi Hi bands.
  destruct (band_entries sqrtQ values p kq i Hp Hpi Hi) as (Hu & Hm & Hl & Hv).
  fold bands in Hu, Hm, Hl.
  set (w := window values (Z.to_nat p) i) in *.
  set (m := foldl Qplus 0 w / inject_Z p) in *.
  set (v := foldl (fun s x => s + (x - m) * (x - m)) 0 w / inject_Z p) in *.
  pose proof (Hsqrt v Hv) as Hs.
  exists (m - kq * sqrtQ v), m, (m + kq * sqrtQ v).
  split; [exact Hl|]. split; [exact Hm|]. split; [exact Hu|].
  split.
  { subst m. unfold mean. subst w. rewrite window_length by lia.
    rewrite foldl_Qplus_Qsum, Z2Nat.id by lia.
    pose proof (inject_Z_pos p ltac:(lia)). field. lra. }
  split; [ring|].
  assert (0 <= kq * sqrtQ v) by (apply Qmult_le_0_compat; assumption).
  split; lra.
Qed.

Lemma example_sqrt_nonneg q : 0 <= q → 0 <= example_sqrt q.
Proof.
  intros _. unfold example_sqrt. change 0 with (inject_Z 0).
  rewrite <- Zle_Qle. apply Z.sqrt_nonneg.
Qed.

Lemma bollinger_bands_ordered_witness :
  ∃ lo mid up,
    get (lower (calculateBollingerBands example_sqrt (map Fin [1; 3]) 2 (Fin 2))) 1
    = Fin lo
    ∧ get (middle (calculateBollingerBands example_sqrt (map Fin [1; 3]) 2 (Fin 2))) 1
      = Fin mid
    ∧ get (upper (calculateBollingerBands example_sqrt (map Fin [1; 3]) 2 (Fin 2))) 1
      = Fin up
    ∧ mid == mean (window [1; 3] (Z.to_nat 2) 1)
    ∧ up - mid == mid - lo
    ∧ lo <= mid ∧ mid <= up.
Proof.
  apply (bollinger_bands_ordered example_sqrt [1; 3] 2 2 1 example_sqrt_nonneg);
    [lra | lia | simpl; lia | simpl; lia].
Defined.

End Bands.

(** ** Stochastic oscillator *)

Module Oscillator.
Import TechnicalIndicators.
Import SMA RSI Bundle EMA Shape Bands.

Lemma nmax_Fin a b :
  ∃ m, nmax (Fin a) (Fin b) = Fin m ∧ a <= m ∧ b <= m.
Proof.
  unfold nmax. destruct (nlt (Fin a) (Fin b)) eqn:E.
  - apply nlt_Fin in E. exists b. split; [reflexivity | lra].
  - apply nlt_Fin_false in E. exists a. split; [reflexivity | lra].
Qed.

Lemma nmin_Fin a b :
  ∃ m, nmin (Fin a) (Fin b) = Fin m ∧ m <= a ∧ m <= b.
Proof.
  unfold nmin. destruct (nlt (Fin b) (Fin a)) eqn:E.
  - apply nlt_Fin in E. exists b. split; [reflexivity | lra].
  - apply nlt_Fin_false in E. exists a. split; [reflexivity | lra].
Qed.

Lemma foldl_nmax_Fin a (l : list Q) :
  ∃ m, foldl nmax (Fin a) (map Fin l) = Fin m ∧ a <= m ∧ Forall (fun x => x <= m) l.
Proof.
  revert a. induction l as [|x l IH]; intros a.
  - exists a. split; [reflexivity|]. split; [lra | constructor].
  - change (foldl nmax (Fin a) (map Fin (x :: l)))
      with (foldl nmax (nmax (Fin a) (Fin x)) (map Fin l)).
    destruct (nmax_Fin a x) as (m1 & -> & Ha & Hx).
    destruct (IH m1) as (m & Hm & Hm1 & Hall). exists m.
    split; [exact Hm|]. split; [lra|].
    constructor; [lra | exact Hall].
Qed.

Lemma foldl_nmin_Fin a (l : list Q) :
  ∃ m, foldl nmin (Fin a) (map Fin l) = Fin m ∧ m <= a ∧ Forall (fun x => m <= x) l.
Proof.
  revert a. induction l as [|x l IH]; intros a.
  - exists a. split; [reflexivity|]. split; [lra | constructor].
  - change (foldl nmin (Fin a) (map Fin (x :: l)))
      with (foldl nmin (nmin (Fin a) (Fin x)) (map Fin l)).
    destruct (nmin_Fin a x) as (m1 & -> & Ha & Hx).
    destruct (IH m1) as (m & Hm & Hm1 & Hall). exists m.
    split; [exact Hm|]. split; [lra|].
    constructor; [lra | exact Hall].
Qed.

(** The highest and the lowest of a non-empty window of finite values. *)
Lemma Math_max_Fin (l : list Q) :
  l ≠ [] → ∃ m, Math_max (map Fin l) = Fin m ∧ Forall (fun x => x <= m) l.
Proof.
  destruct l as [|x l]; [congruence|]. intros _. unfold Math_max.
  change (foldl nmax NInf (map Fin (x :: l))) with (foldl nmax (Fin x) (map Fin l)).
  destruct (foldl_nmax_Fin x l) as (m & Hm & Hx & Hall).
  exists m. split; [exact Hm|]. constructor; assumption.
Qed.

Lemma Math_min_Fin (l : list Q) :
  l ≠ [] → ∃ m, Math_min (map Fin l) = Fin m ∧ Forall (fun x => m <= x) l.
Proof.
  destruct l as [|x l]; [congruence|]. intros _. unfold Math_min.
  change (foldl nmin PInf (map Fin (x :: l))) with (foldl nmin (Fin x) (map Fin l)).
  destruct (foldl_nmin_Fin x l) as (m & Hm & Hx & Hall).
  exists m. split; [exact Hm|]. constructor; assumption.
Qed.

(** The window that ends at index [i] contains the value at [i]. *)
Lemma In_window (values : list Q) (p i : nat) :
  (0 < p)%nat → (i < length values)%nat → (p - 1 ≤ i)%nat →
  In (nth i values 0) (window values p i).
Proof.
  intros Hp Hi Hpi.
  assert (E : nth (p - 1) (window values p i) 0 = nth i values 0).
  { unfold window. rewrite nth_firstn.
    destruct (Nat.ltb_spec (p - 1) p); [|lia].
    rewrite nth_skipn. f_equal. lia. }
  rewrite <- E. apply nth_In. rewrite window_length by assumption. lia.
Qed.

Lemma stochastic_value_within lo hi c :
  lo <= c → c <= hi →
  within 0 100
    (if nseq (Fin lo) (Fin hi) then Fin 50
     else nmul (ndiv (nsub (Fin c) (Fin lo)) (nsub (Fin hi) (Fin lo))) (Fin 100)).
Proof.
  intros Hlo Hhi. simpl nseq. destruct (Qeq_bool lo hi) eqn:E.
  - exists 50. split; [reflexivity | lra].
  - apply Qeq_bool_false in E. assert (Hlt : 0 < hi - lo) by lra.
    simpl nsub. rewrite ndiv_Fin_nonzero by lra. simpl nmul.
    eexists. split; [reflexivity|].
    assert (H0 : 0 <= (c + - lo) / (hi + - lo)) by (apply Qdiv_nonneg; lra).
    assert (H1 : (c + - lo) / (hi + - lo) <= 1) by (apply Qle_shift_div_r; lra).
    lra.
Qed.

Lemma within_finite_list lo hi (l : list number) :
  Forall (within lo hi) l → ∃ qs, l = map Fin qs ∧ bounded lo hi qs.
Proof.
  induction 1 as [|x l (q & -> & Hq) _ (qs & -> & Hqs)].
  - exists []. split; [reflexivity | constructor].
  - exists (q :: qs). split; [reflexivity | constructor; assumption].
Qed.

Lemma filter_defined_within lo hi (l : list number) :
  Forall (marker_or_within lo hi) l → Forall (within lo hi) (filter_defined l).
Proof.
  induction 1 as [|x l Hx _ IH]; [constructor|].
  unfold filter_defined. simpl. destruct Hx as [-> | (q & -> & Hq)]; simpl.
  - exact IH.
  - constructor; [exists q; split; [reflexivity | exact Hq] | exact IH].
Qed.

Lemma padded_within lo hi n (g : list number) :
  Forall (marker_or_within lo hi) g →
  Forall (marker_or_within lo hi) (fill_NaN n ++ g).
Proof.
  intros Hg. apply Forall_app. split; [|exact Hg].
  unfold fill_NaN. apply Forall_replicate. left. reflexivity.
Qed.

(** Smoothing and padding a line with entries in [lo, hi]. *)
Lemma smoothed_within lo hi (line : list number) p n :
  (1 ≤ p)%Z → Forall (marker_or_within lo hi) line →
  Forall (marker_or_within lo hi)
    (fill_NaN n ++ calculateSMA (filter_defined line) p).
Proof.
  intros Hp Hline. apply padded_within.
  destruct (within_finite_list lo hi _ (filter_defined_within lo hi line Hline))
    as (qs & -> & Hqs).
  apply calculateSMA_within; assumption.
Qed.

(** X9. when each close lies between the low and the high of its day,
    both lines of the stochastic oscillator stay within 0 and 100. *)
Theorem calculateStochastic_range (highs lows closes : list Q) (p smoothK : Z) :
  (1 ≤ p)%Z → (1 ≤ smoothK)%Z →
  length highs = length closes → length lows = length closes →
  (∀ i, (i < length closes)%nat →
     nth i lows 0 <= nth i closes 0 ∧ nth i closes 0 <= nth i highs 0) →
  let stochastic :=
    calculateStochastic (map Fin highs) (map Fin lows) (map Fin closes) p smoothK in
  Forall (marker_or_within 0 100) (k stochastic)
  ∧ Forall (marker_or_within 0 100) (d stochastic).
Proof.
  intros Hp Hs Hh Hl Hday stochastic. subst stochastic.
  unfold calculateStochastic. simpl.
  set (raw := for_loop _ _ _).
  assert (Hraw : Forall (marker_or_within 0 100) raw).
  { subst raw.
    set (f := fun i : nat =>
      if (Z.of_nat i <? p - 1)%Z then NaN
      else
        if nseq (Math_min (slice (map Fin lows) (Z.of_nat i - p + 1) (Z.of_nat i + 1)))
                (Math_max (slice (map Fin highs) (Z.of_nat i - p + 1) (Z.of_nat i + 1)))
        then Fin 50
        else nmul (ndiv (nsub (get (map Fin closes) i)
                           (Math_min (slice (map Fin lows) (Z.of_nat i - p + 1)
                                        (Z.of_nat i + 1))))
                     (nsub (Math_max (slice (map Fin highs) (Z.of_nat i - p + 1)
                                        (Z.of_nat i + 1)))
                        (Math_min (slice (map Fin lows) (Z.of_nat i - p + 1)
                                     (Z.of_nat i + 1)))))
               (Fin 100)).
    rewrite (for_loop_ext _ _ (fun i acc => push acc (f i))).
    2:{ intros i s _. subst f. cbv beta zeta. destruct (_ <? _)%Z; reflexivity. }
    rewrite for_loop_push. apply List.Forall_forall.
    intros x Hx. apply in_map_iff in Hx. destruct Hx as (i & <- & Hi).
    apply in_seq in Hi. rewrite length_map in Hi. subst f. cbv beta.
    destruct (Z.ltb_spec (Z.of_nat i) (p - 1)); [left; reflexivity|]. right.
    rewrite !slice_Fin_window by lia.
    assert (Hne : ∀ values : list Q, length values = length closes →
              window values (Z.to_nat p) i ≠ []).
    { intros values Hv Hw.
      pose proof (window_length values (Z.to_nat p) i ltac:(lia) ltac:(lia) ltac:(lia))
        as Hlen.
      rewrite Hw in Hlen. simpl in Hlen. lia. }
    destruct (Math_max_Fin _ (Hne highs Hh)) as (hi & -> & Hhi).
    destruct (Math_min_Fin _ (Hne lows Hl)) as (lo & -> & Hlo).
    rewrite get_Fin by lia.
    rewrite List.Forall_forall in Hhi, Hlo.
    pose proof (Hhi _ (In_window highs (Z.to_nat p) i ltac:(lia) ltac:(lia) ltac:(lia))).
    pose proof (Hlo _ (In_window lows (Z.to_nat p) i ltac:(lia) ltac:(lia) ltac:(lia))).
    destruct (Hday i ltac:(lia)).
    apply stochastic_value_within; lra. }
  assert (Hk : Forall (marker_or_within 0 100)
                 (fill_NaN (Z.of_nat (length raw)
                            - Z.of_nat (length (calculateSMA (filter_defined raw) smoothK)))
                  ++ calculateSMA (filter_defined raw) smoothK)).
  { apply smoothed_within; assumption. }
  split; [exact Hk|].
  apply smoothed_within; [lia | exact Hk].
Qed.

Lemma calculateStochastic_range_witness :
  Forall (marker_or_within 0 100)
    (k (calculateStochastic (map Fin [3; 5; 4]) (map Fin [1; 2; 2])
          (map Fin [2; 4; 3]) 2 1)).
Proof.
  refine (proj1 (calculateStochastic_range [3; 5; 4] [1; 2; 2] [2; 4; 3] 2 1
                   ltac:(lia) ltac:(lia) eq_refl eq_refl _)).
  intros i Hi. simpl in Hi.
  assert (Hcases : i = 0%nat ∨ i = 1%nat ∨ i = 2%nat) by lia.
  destruct Hcases as [-> | [-> | ->]]; simpl; split; lra.
Defined.

End Oscillator.

(** ** Directional index and average true range *)

Module Directional.
Import TechnicalIndicators.
Import SMA RSI Bundle EMA Shape Bands Oscillator.

Section FiniteDays.

Variables (highs lows closes : list Q).
Hypothesis Hh : length highs = length closes.
Hypothesis Hl : length lows = length closes.


(** After the first day the true range is a maximum that includes an
    absolute value. *)
Lemma trueRange_later i :
  (1 ≤ i)%nat → (i < length closes)%nat → nonneg (trueRange (map Fin highs) (map Fin lows) (map Fin closes) i).
Proof.
  intros Hi Hlt. unfold trueRange. destruct (Nat.eqb_spec i 0); [lia|].
  rewrite !get_Fin by lia.
  set (a := nth i highs 0 - nth i lows 0).
  set (b := Qabs (nth i highs 0 - nth (i - 1) closes 0)).
  set (c := Qabs (nth i lows 0 - nth (i - 1) closes 0)).
  change (nonneg (Math_max (map Fin [a; b; c]))).
  destruct (Math_max_Fin [a; b; c] ltac:(discriminate)) as (m & -> & Hall).
  exists m. split; [reflexivity|].
  inversion Hall as [|? ? _ Hall']. inversion Hall' as [|? ? Hb _]. subst.
  pose proof (Qabs_nonneg (nth i highs 0 - nth (i - 1) closes 0)). subst b. lra.
Qed.

Lemma trueRange_first :
  (0 < length closes)%nat →
  trueRange (map Fin highs) (map Fin lows) (map Fin closes) 0 = Fin (nth 0 highs 0 - nth 0 lows 0).
Proof. intros Hlt. unfold trueRange. simpl. rewrite !get_Fin by lia. reflexivity. Qed.

Lemma movement_nonneg a b :
  nonneg (if ngt (Fin a) (Fin b) && ngt (Fin a) (Fin 0) then Fin a else Fin 0).
Proof.
  destruct (ngt (Fin a) (Fin b)) eqn:E1; destruct (ngt (Fin a) (Fin 0)) eqn:E2;
    cbn [andb]; try (exists 0; split; [reflexivity | lra]).
  unfold ngt in E2. apply nlt_Fin in E2. exists a. split; [reflexivity | lra].
Qed.

Lemma adx_step_fields (H L C : list number) p i st :
  plusDM (adx_step H L C p i st)
  = push (plusDM st)
      (if (i =? 0)%nat then Fin 0
       else
         let highDiff := nsub (get H i) (get H (i - 1)) in
         let lowDiff := nsub (get L (i - 1)) (get L i) in
         if ngt highDiff lowDiff && ngt highDiff (Fin 0) then highDiff else Fin 0)
  ∧ minusDM (adx_step H L C p i st)
    = push (minusDM st)
        (if (i =? 0)%nat then Fin 0
         else
           let highDiff := nsub (get H i) (get H (i - 1)) in
           let lowDiff := nsub (get L (i - 1)) (get L i) in
           if ngt lowDiff highDiff && ngt lowDiff (Fin 0) then lowDiff else Fin 0)
  ∧ tr (adx_step H L C p i st) = push (tr st) (trueRange H L C i).
Proof.
  unfold adx_step. destruct (i =? 0)%nat; [repeat split|].
  destruct (_ <? _)%Z; repeat split.
Qed.

Lemma adx_step_invariant p n st :
  (n < length closes)%nat →
  adx_invariant n st →
  adx_invariant (S n)
    (adx_step (map Fin highs) (map Fin lows) (map Fin closes) p n st).
Proof.
  intros Hn [Ha Hp Hm Ht HP HM HT].
  destruct (adx_step_pushes (map Fin highs) (map Fin lows) (map Fin closes) p n st)
    as [x Hx].
  destruct (adx_step_fields (map Fin highs) (map Fin lows) (map Fin closes) p n st)
    as (Eplus & Eminus & Etr).
  split; rewrite ?Hx, ?Eplus, ?Eminus, ?Etr, ?length_push; try lia.
  - apply Forall_push; [exact HP|]. destruct (Nat.eqb_spec n 0).
    + exists 0. split; [reflexivity | lra].
    + cbv zeta. rewrite !get_Fin by lia. apply movement_nonneg.
  - apply Forall_push; [exact HM|]. destruct (Nat.eqb_spec n 0).
    + exists 0. split; [reflexivity | lra].
    + cbv zeta. rewrite !get_Fin by lia. apply movement_nonneg.
  - destruct (Nat.eq_dec n 0%nat) as [-> | Hn0].
    + destruct (tr st); [constructor | discriminate].
    + rewrite drop_1_push by (intros E; rewrite E in Ht; simpl in Ht; lia).
      apply Forall_push; [exact HT | apply trueRange_later; lia].
Qed.

Lemma adx_loop_invariant p n :
  (n ≤ length closes)%nat →
  adx_invariant n (for_loop n (adx_step (map Fin highs) (map Fin lows) (map Fin closes) p) (mkADX [] [] [] [])).
Proof.
  induction n as [|n IH]; intros Hn.
  - split; simpl; try reflexivity; constructor.
  - rewrite for_loop_S. apply adx_step_invariant; [lia | apply IH; lia].
Qed.

End FiniteDays.

Lemma average_nonneg (l : list number) p :
  (1 ≤ p)%Z → Forall nonneg l → nonneg (ndiv (sum l) (ofZ p)).
Proof.
  intros Hp Hl. destruct (sum_nonneg_from 0 l ltac:(lra) Hl) as (q & Hq & Hq0).
  unfold sum. rewrite Hq. unfold ofZ.
  pose proof (inject_Z_pos p ltac:(lia)) as Hpos.
  rewrite ndiv_Fin_nonzero by lra.
  exists (q / inject_Z p). split; [reflexivity|]. apply Qdiv_nonneg; assumption.
Qed.

(** A directional indicator: the share of the average true range. *)
Lemma indicator_nonneg a t :
  0 <= a → 0 <= t →
  nonneg (if nseq (Fin t) (Fin 0) then Fin 0
          else nmul (ndiv (Fin a) (Fin t)) (Fin 100)).
Proof.
  intros Ha Ht. simpl nseq. destruct (Qeq_bool t 0) eqn:E.
  - exists 0. split; [reflexivity | lra].
  - apply Qeq_bool_false in E. rewrite ndiv_Fin_nonzero by exact E. simpl.
    eexists. split; [reflexivity|].
    assert (0 <= a / t) by (apply Qdiv_nonneg; lra). lra.
Qed.

(** The directional index of two indicators. *)
Lemma index_within x y :
  0 <= x → 0 <= y →
  within 0 100
    (if nseq (nadd (Fin x) (Fin y)) (Fin 0) then Fin 0
     else nmul (ndiv (nabs (nsub (Fin x) (Fin y))) (nadd (Fin x) (Fin y))) (Fin 100)).
Proof.
  intros Hx Hy. simpl nadd. simpl nseq. destruct (Qeq_bool (x + y) 0) eqn:E.
  - exists 0. split; [reflexivity | lra].
  - apply Qeq_bool_false in E.
    change (nsub (Fin x) (Fin y)) with (Fin (x - y)).
    change (nabs (Fin (x - y))) with (Fin (Qabs (x - y))).
    rewrite ndiv_Fin_nonzero by exact E.
    change (within 0 100 (Fin (Qabs (x - y) / (x + y) * 100))).
    eexists. split; [reflexivity|].
    assert (Hs : 0 < x + y) by lra.
    assert (H0 : 0 <= Qabs (x - y) / (x + y)).
    { apply Qdiv_nonneg; [apply Qabs_nonneg | exact Hs]. }
    assert (H1 : Qabs (x - y) / (x + y) <= 1).
    { apply Qle_shift_div_r; [exact Hs|].
      apply Qabs_Qle_condition. split; lra. }
    lra.
Qed.

Lemma Forall_window_tail (P : number → Prop) (a : list number) (s e : Z) :
  (1 ≤ s)%Z → (s ≤ e)%Z → (e ≤ Z.of_nat (length a))%Z →
  Forall P (drop 1 a) → Forall P (slice a s e).
Proof.
  intros Hs Hse Hle Ha. rewrite slice_window by lia.
  apply Forall_take.
  replace (Z.to_nat s) with (1 + (Z.to_nat s - 1))%nat by lia.
  rewrite <- drop_drop. apply Forall_drop. exact Ha.
Qed.

(** From index [2 * period] on the entry pushed is the directional index of
    the windows of the new state. *)
Lemma adx_step_late highs lows closes p i st :
  (1 ≤ i)%nat → (p * 2 ≤ Z.of_nat i)%Z →
  let st' := adx_step highs lows closes p i st in
  let window (a : list number) := slice a (Z.of_nat i - p + 1) (Z.of_nat i + 1) in
  let avgPlusDM := ndiv (sum (window (plusDM st'))) (ofZ p) in
  let avgMinusDM := ndiv (sum (window (minusDM st'))) (ofZ p) in
  let avgTR := ndiv (sum (window (tr st'))) (ofZ p) in
  let plusDI :=
    if nseq avgTR (Fin 0) then Fin 0 else nmul (ndiv avgPlusDM avgTR) (Fin 100) in
  let minusDI :=
    if nseq avgTR (Fin 0) then Fin 0 else nmul (ndiv avgMinusDM avgTR) (Fin 100) in
  adx st'
  = push (adx st)
      (if nseq (nadd plusDI minusDI) (Fin 0) then Fin 0
       else nmul (ndiv (nabs (nsub plusDI minusDI)) (nadd plusDI minusDI)) (Fin 100)).
Proof.
  intros Hi Hp. unfold adx_step.
  destruct (Nat.eqb_spec i 0); [lia|].
  destruct (Z.ltb_spec (Z.of_nat i) (p * 2)); [lia|]. reflexivity.
Qed.

Lemma calculateADX_late (highs lows closes : list Q) (p : Z) (i : nat) :
  length highs = length closes → length lows = length closes →
  (1 ≤ p)%Z → (p * 2 ≤ Z.of_nat i)%Z → (i < length closes)%nat →
  within 0 100
    (get (calculateADX (map Fin highs) (map Fin lows) (map Fin closes) p) i).
Proof.
  intros Hh Hl Hp Hpi Hi. unfold calculateADX.
  rewrite (loop_out_get adx);
    [|apply adx_step_pushes|reflexivity|rewrite length_map; exact Hi].
  pose proof (adx_loop_invariant highs lows closes Hh Hl p i ltac:(lia)) as Hinv.
  set (st := for_loop i _ _) in *.
  pose proof (adx_step_invariant highs lows closes Hh Hl p i st Hi Hinv) as Hinv'.
  rewrite adx_step_late by lia.
  rewrite get_push_at by apply (adx_inv_adx_length _ _ Hinv).
  set (st' := adx_step _ _ _ p i st) in *.
  destruct Hinv' as [_ HpL HmL HtL HP HM HT].
  destruct (average_nonneg (slice (plusDM st') (Z.of_nat i - p + 1) (Z.of_nat i + 1)) p Hp)
    as (a & -> & Ha); [apply Forall_slice, HP|].
  destruct (average_nonneg (slice (minusDM st') (Z.of_nat i - p + 1) (Z.of_nat i + 1)) p Hp)
    as (b & -> & Hb); [apply Forall_slice, HM|].
  destruct (average_nonneg (slice (tr st') (Z.of_nat i - p + 1) (Z.of_nat i + 1)) p Hp)
    as (t & -> & Ht); [apply Forall_window_tail; [lia | lia | lia | exact HT]|].
  destruct (indicator_nonneg a t Ha Ht) as (x & -> & Hx).
  destruct (indicator_nonneg b t Hb Ht) as (y & -> & Hy).
  apply index_within; assumption.
Qed.

(** X10. on finite prices the ADX is defined exactly from index
    [2 * period] on, and every entry lies in [0, 100]. *)
Theorem calculateADX_range (highs lows closes : list Q) (p : Z) :
  (1 ≤ p)%Z → length highs = length closes → length lows = length closes →
  let adx := calculateADX (map Fin highs) (map Fin lows) (map Fin closes) p in
  Forall (marker_or_within 0 100) adx
  ∧ (∀ i, (i < length closes)%nat → defined (get adx i) ↔ (2 * p ≤ Z.of_nat i)%Z).
Proof.
  intros Hp Hh Hl adx. subst adx. split.
  - apply List.Forall_forall. intros x Hx.
    destruct (In_nth _ _ NaN Hx) as (i & Hi & <-).
    rewrite calculateADX_length, length_map in Hi.
    destruct (Z.lt_ge_cases (Z.of_nat i) (p * 2)) as [Hlt | Hge].
    + left. apply calculateADX_early. lia.
    + right. apply calculateADX_late; assumption.
  - intros i Hi. split.
    + intros Hdef.
      destruct (Z.lt_ge_cases (Z.of_nat i) (p * 2)) as [Hlt | Hge]; [|lia].
      rewrite (calculateADX_early _ _ _ p i) in Hdef by lia. discriminate.
    + intros Hge.
      destruct (calculateADX_late highs lows closes p i Hh Hl Hp ltac:(lia) Hi)
        as (r & -> & _).
      reflexivity.
Qed.

Lemma calculateADX_range_witness :
  Forall (marker_or_within 0 100)
    (calculateADX (map Fin [3; 5; 4]) (map Fin [1; 2; 2]) (map Fin [2; 4; 3]) 1).
Proof.
  exact (proj1 (calculateADX_range [3; 5; 4] [1; 2; 2] [2; 4; 3] 1
                  ltac:(lia) eq_refl eq_refl)).
Defined.

(** *** Average true range *)

Lemma nonneg_finite_list (l : list number) :
  Forall nonneg l → ∃ qs, l = map Fin qs ∧ Forall (fun q => 0 <= q) qs.
Proof.
  induction 1 as [|x l (q & -> & Hq) _ (qs & -> & Hqs)].
  - exists []. split; [reflexivity | constructor].
  - exists (q :: qs). split; [reflexivity | constructor; assumption].
Qed.

(** The true ranges of finite days on which the high is not below the
    low. *)
Lemma trueRanges_nonneg (highs lows closes : list Q) :
  length highs = length closes → length lows = length closes →
  (∀ i, (i < length closes)%nat → nth i lows 0 <= nth i highs 0) →
  Forall nonneg
    (map (trueRange (map Fin highs) (map Fin lows) (map Fin closes))
       (seq 0 (length closes))).
Proof.
  intros Hh Hl Hday. apply List.Forall_forall. intros x Hx.
  apply in_map_iff in Hx. destruct Hx as (i & <- & Hi). apply in_seq in Hi.
  destruct (Nat.eq_dec i 0%nat) as [-> | Hne].
  - rewrite trueRange_first by lia. eexists. split; [reflexivity|].
    pose proof (Hday 0%nat ltac:(lia)). lra.
  - apply trueRange_later; [exact Hh | exact Hl | lia | lia].
Qed.

Lemma calculateATR_late (highs lows closes : list Q) (p : Z) (i : nat) :
  length highs = length closes → length lows = length closes →
  (∀ i, (i < length closes)%nat → nth i lows 0 <= nth i highs 0) →
  (1 ≤ p)%Z → (p - 1 ≤ Z.of_nat i)%Z → (i < length closes)%nat →
  nonneg (get (calculateATR (map Fin highs) (map Fin lows) (map Fin closes) p) i).
Proof.
  intros Hh Hl Hday Hp Hpi Hi. unfold calculateATR.
  rewrite for_loop_push, length_map.
  destruct (nonneg_finite_list _ (trueRanges_nonneg highs lows closes Hh Hl Hday))
    as (trs & Etrs & Htrs).
  rewrite Etrs.
  assert (Hlen : length trs = length closes).
  { rewrite <- (length_map Fin trs), <- Etrs, length_map, length_seq. reflexivity. }
  destruct (calculateEMA_entries trs p (fun q => 0 <= q) Hp) with (i := i)
    as (q & Hq & Hq0); [| |exact Hpi|lia|].
  - intros _. apply Qdiv_nonneg; [|apply inject_Z_pos; lia].
    rewrite foldl_Qplus_Qsum.
    pose proof (EMA.Qsum_nonneg (take (Z.to_nat p) trs) (Forall_take _ _ _ Htrs)). lra.
  - intros e j Hj He. destruct (smoothing_range p Hp) as [Hm0 Hm1].
    rewrite List.Forall_forall in Htrs.
    pose proof (Htrs _ (nth_In trs 0 Hj)) as Hv.
    assert (E : (nth j trs 0 - e) * smoothing p + e
                == smoothing p * nth j trs 0 + (1 - smoothing p) * e) by ring.
    rewrite E.
    pose proof (Qmult_le_0_compat (smoothing p) (nth j trs 0) ltac:(lra) Hv).
    pose proof (Qmult_le_0_compat (1 - smoothing p) e ltac:(lra) He).
    lra.
  - exists q. split; [exact Hq | exact Hq0].
Qed.

(** X11. on finite days whose high is not below their low, the ATR is
    defined exactly from index [period - 1] on and is never negative. *)
Theorem calculateATR_nonneg (highs lows closes : list Q) (p : Z) :
  (1 ≤ p)%Z → length highs = length closes → length lows = length closes →
  (∀ i, (i < length closes)%nat → nth i lows 0 <= nth i highs 0) →
  let atr := calculateATR (map Fin highs) (map Fin lows) (map Fin closes) p in
  Forall marker_or_nonneg atr
  ∧ (∀ i, (i < length closes)%nat → defined (get atr i) ↔ (p - 1 ≤ Z.of_nat i)%Z).
Proof.
  intros Hp Hh Hl Hday atr. subst atr. split.
  - apply List.Forall_forall. intros x Hx.
    destruct (In_nth _ _ NaN Hx) as (i & Hi & <-).
    assert (Hlen : length (calculateATR (map Fin highs) (map Fin lows)
                             (map Fin closes) p) = length closes).
    { unfold calculateATR.
      rewrite calculateEMA_length, for_loop_push, length_map, length_seq, length_map.
      reflexivity. }
    rewrite Hlen in Hi.
    destruct (Z.lt_ge_cases (Z.of_nat i) (p - 1)) as [Hlt | Hge].
    + left. apply calculateATR_early. lia.
    + right. apply calculateATR_late; assumption.
  - intros i Hi. split.
    + intros Hdef.
      destruct (Z.lt_ge_cases (Z.of_nat i) (p - 1)) as [Hlt | Hge]; [|lia].
      rewrite (calculateATR_early _ _ _ p i) in Hdef by lia. discriminate.
    + intros Hge.
      destruct (calculateATR_late highs lows closes p i Hh Hl Hday Hp Hge Hi)
        as (r & -> & _).
      reflexivity.
Qed.

Lemma calculateATR_nonneg_witness :
  Forall marker_or_nonneg
    (calculateATR (map Fin [3; 5; 4]) (map Fin [1; 2; 2]) (map Fin [2; 4; 3]) 2).
Proof.
  refine (proj1 (calculateATR_nonneg [3; 5; 4] [1; 2; 2] [2; 4; 3] 2
                   ltac:(lia) eq_refl eq_refl _)).
  intros i Hi. simpl in Hi.
  assert (Hcases : i = 0%nat ∨ i = 1%nat ∨ i = 2%nat) by lia.
  destruct Hcases as [-> | [-> | ->]]; simpl; lra.
Defined.

End Directional.

(** ** Moving average convergence/divergence *)

Module Convergence.
Import TechnicalIndicators.
Import SMA RSI Bundle EMA Shape Bands.

(** An array that is undefined before index [k] and finite from there on:
    its defined entries are its tail from [k]. *)
Lemma defined_tail (a : list number) (k : nat) :
  (∀ i, (i < length a)%nat →
     ((i < k)%nat → get a i = NaN) ∧ ((k ≤ i)%nat → is_finite (get a i))) →
  ∃ qs, filter_defined a = map Fin qs
        ∧ drop k a = map Fin qs
        ∧ length qs = (length a - k)%nat.
Proof.
  revert k. induction a as [|x a IH]; intros k H.
  - exists []. rewrite drop_nil. repeat split.
  - destruct k as [|k].
    + destruct (H 0%nat ltac:(simpl; lia)) as [_ Hx].
      specialize (Hx ltac:(lia)). unfold get in Hx. simpl in Hx.
      destruct x as [| | |q]; try contradiction.
      destruct (IH 0%nat) as (qs & Hf & Hd & Hlen).
      { intros i Hi. destruct (H (S i) ltac:(simpl; lia)) as [_ Hfin].
        split; [lia|]. intros _. apply Hfin. lia. }
      exists (q :: qs). simpl. rewrite drop_0 in Hd.
      unfold filter_defined in *. simpl. rewrite Hf.
      split; [reflexivity|]. split; [rewrite Hd; reflexivity|].
      rewrite Hlen. lia.
    + destruct (H 0%nat ltac:(simpl; lia)) as [Hx _].
      specialize (Hx ltac:(lia)). unfold get in Hx. simpl in Hx. subst x.
      destruct (IH k) as (qs & Hf & Hd & Hlen).
      { intros i Hi. destruct (H (S i) ltac:(simpl; lia)) as [Hnan Hfin].
        split; [intros Hk; apply Hnan; lia | intros Hk; apply Hfin; lia]. }
      exists qs. simpl. split; [exact Hf|]. split; [exact Hd | exact Hlen].
Qed.

(** The MACD line, entry by entry. *)
Lemma macd_entry prices fast slow signalPeriod i :
  (i < length prices)%nat →
  get (macd (calculateMACD prices fast slow signalPeriod)) i
  = if isNaN (get (calculateEMA prices fast) i) || isNaN (get (calculateEMA prices slow) i)
    then NaN
    else nsub (get (calculateEMA prices fast) i) (get (calculateEMA prices slow) i).
Proof.
  intros Hi. unfold calculateMACD. simpl.
  set (body := fun (i : nat) (macd : list number) => _).
  assert (Hpush : ∀ i s, ∃ x, body i s = push s x).
  { intros j s. subst body. simpl. destruct (_ || _); eexists; reflexivity. }
  rewrite (loop_out_get (fun m => m) body); [|exact Hpush|reflexivity|exact Hi].
  pose proof (loop_out_length (fun m => m) body [] Hpush eq_refl i) as Hlen.
  subst body. cbv beta.
  destruct (_ || _); apply get_push_at; exact Hlen.
Qed.

Lemma macd_length prices fast slow signalPeriod :
  length (macd (calculateMACD prices fast slow signalPeriod)) = length prices.
Proof.
  unfold calculateMACD. simpl.
  apply (loop_out_length (fun m => m)); [|reflexivity].
  intros i s. simpl. destruct (_ || _); eexists; reflexivity.
Qed.

Lemma calculateEMA_finite (values : list Q) (p : Z) (i : nat) :
  (1 ≤ p)%Z → (p - 1 ≤ Z.of_nat i)%Z → (i < length values)%nat →
  ∃ q, get (calculateEMA (map Fin values) p) i = Fin q.
Proof.
  intros Hp Hpi Hi.
  destruct (calculateEMA_entries values p (fun _ => True) Hp (fun _ => I)
              (fun _ _ _ _ => I) i Hpi Hi) as (q & Hq & _).
  exists q. exact Hq.
Qed.

Lemma macd_line (values : list Q) fast slow signalPeriod i :
  (1 ≤ fast)%Z → (fast ≤ slow)%Z → (i < length values)%nat →
  let m := macd (calculateMACD (map Fin values) fast slow signalPeriod) in
  ((Z.of_nat i < slow - 1)%Z → get m i = NaN)
  ∧ ((slow - 1 ≤ Z.of_nat i)%Z →
       is_finite (get m i)
       ∧ get m i = nsub (get (calculateEMA (map Fin values) fast) i)
                        (get (calculateEMA (map Fin values) slow) i)).
Proof.
  intros Hf Hfs Hi m. subst m.
  rewrite macd_entry by (rewrite length_map; exact Hi). split.
  - intros Hlt. rewrite (calculateEMA_early (map Fin values) slow i) by lia.
    simpl. rewrite orb_true_r. reflexivity.
  - intros Hge.
    destruct (calculateEMA_finite values fast i Hf ltac:(lia) Hi) as (a & ->).
    destruct (calculateEMA_finite values slow i ltac:(lia) Hge Hi) as (b & ->).
    simpl. split; [exact I | reflexivity].
Qed.

(** X12. on finite prices the MACD line is the difference of the two EMAs
    from index [slow - 1] on; the signal line is the EMA of that defined part,
    shifted back to the same indices, so that signal and histogram are
    defined from index [slow + signal - 2] on; and the histogram is the MACD
    line minus the signal line. *)
Theorem calculateMACD_spec (values : list Q) (fast slow signalPeriod : Z) :
  (1 ≤ fast)%Z → (fast ≤ slow)%Z → (1 ≤ signalPeriod)%Z →
  let m := calculateMACD (map Fin values) fast slow signalPeriod in
  let k := Z.to_nat (slow - 1) in
  let L := length values in
  signal m
  = fill_NaN (Z.of_nat (Nat.min k L)) ++ calculateEMA (drop k (macd m)) signalPeriod
  ∧ (∀ i, (i < L)%nat →
       (defined (get (macd m) i) ↔ (slow - 1 ≤ Z.of_nat i)%Z)
       ∧ (defined (get (signal m) i) ↔ (slow + signalPeriod - 2 ≤ Z.of_nat i)%Z)
       ∧ (defined (get (histogram m) i) ↔ (slow + signalPeriod - 2 ≤ Z.of_nat i)%Z)
       ∧ ((slow - 1 ≤ Z.of_nat i)%Z →
            get (macd m) i
            = nsub (get (calculateEMA (map Fin values) fast) i)
                   (get (calculateEMA (map Fin values) slow) i))
       ∧ ((slow + signalPeriod - 2 ≤ Z.of_nat i)%Z →
            get (histogram m) i = nsub (get (macd m) i) (get (signal m) i))).
Proof.
  intros Hf Hfs Hs m k L.
  pose proof (macd_length (map Fin values) fast slow signalPeriod) as Hlen.
  rewrite length_map in Hlen. fold m L in Hlen.
  assert (Hline : ∀ i, (i < L)%nat →
            ((i < k)%nat → get (macd m) i = NaN)
            ∧ ((k ≤ i)%nat → is_finite (get (macd m) i))).
  { intros i Hi.
    destruct (macd_line values fast slow signalPeriod i Hf Hfs Hi) as [Hnan Hfin].
    fold m in Hnan, Hfin. split.
    - intros Hk. apply Hnan. lia.
    - intros Hk. apply Hfin. lia. }
  destruct (defined_tail (macd m) k) as (qs & Hfilter & Hdrop & Hqs).
  { rewrite Hlen. exact Hline. }
  rewrite Hlen in Hqs.
  assert (Hsignal : signal m
            = fill_NaN (Z.of_nat (Nat.min k L)) ++ calculateEMA (map Fin qs) signalPeriod).
  { subst m. unfold calculateMACD in *. simpl in *.
    rewrite Hfilter, Hlen, calculateEMA_length, length_map, Hqs.
    f_equal. unfold fill_NaN. f_equal. lia. }
  assert (Hsig : ∀ i, (i < L)%nat →
            ((Z.of_nat i < slow + signalPeriod - 2)%Z → get (signal m) i = NaN)
            ∧ ((slow + signalPeriod - 2 ≤ Z.of_nat i)%Z → is_finite (get (signal m) i))).
  { intros i Hi. rewrite Hsignal, get_fill_NaN_app, Nat2Z.id.
    destruct (Nat.ltb_spec i (Nat.min k L)) as [Hlt | Hge].
    - split; [reflexivity | lia].
    - replace (Nat.min k L) with k by lia. split.
      + intros Hlt. apply calculateEMA_early. lia.
      + intros Hge'.
        destruct (calculateEMA_finite qs signalPeriod (i - k) Hs) as (q & ->);
          [lia | lia | exact I]. }
  split; [rewrite Hsignal, Hdrop; reflexivity|].
  intros i Hi.
  destruct (macd_line values fast slow signalPeriod i Hf Hfs Hi) as [Hnan Hfin].
  fold m in Hnan, Hfin.
  destruct (Hsig i Hi) as [Hsnan Hsfin].
  assert (Hhist : get (histogram m) i
            = if isNaN (get (macd m) i) || isNaN (get (signal m) i) then NaN
              else nsub (get (macd m) i) (get (signal m) i)).
  { subst m. unfold calculateMACD in *. simpl in *.
    rewrite get_imap by (rewrite Hlen; exact Hi). reflexivity. }
  split; [|split; [|split; [|split]]].
  - split.
    + intros Hdef.
      destruct (Z.lt_ge_cases (Z.of_nat i) (slow - 1)) as [Hlt | Hge]; [|exact Hge].
      rewrite Hnan in Hdef by exact Hlt. discriminate.
    + intros Hge. destruct (Hfin Hge) as [Hfinite _].
      destruct (get (macd m) i); try contradiction. reflexivity.
  - split.
    + intros Hdef.
      destruct (Z.lt_ge_cases (Z.of_nat i) (slow + signalPeriod - 2)) as [Hlt | Hge];
        [|exact Hge].
      rewrite Hsnan in Hdef by exact Hlt. discriminate.
    + intros Hge. specialize (Hsfin Hge).
      destruct (get (signal m) i); try contradiction. reflexivity.
  - rewrite Hhist. split.
    + intros Hdef.
      destruct (Z.lt_ge_cases (Z.of_nat i) (slow + signalPeriod - 2)) as [Hlt | Hge];
        [|exact Hge].
      rewrite Hsnan in Hdef by exact Hlt. simpl in Hdef.
      rewrite orb_true_r in Hdef. discriminate.
    + intros Hge. specialize (Hsfin Hge).
      destruct (Hfin ltac:(lia)) as [Hfinite _].
      destruct (get (macd m) i); try contradiction.
      destruct (get (signal m) i); try contradiction. reflexivity.
  - intros Hge. apply Hfin. exact Hge.
  - intros Hge. rewrite Hhist. specialize (Hsfin Hge).
    destruct (Hfin ltac:(lia)) as [Hfinite _].
    destruct (get (macd m) i); try contradiction.
    destruct (get (signal m) i); try contradiction. reflexivity.
Qed.

Lemma calculateMACD_spec_witness :
  defined (get (signal (calculateMACD (map Fin [10; 12; 11; 13]) 1 2 2)) 2)
  ∧ get (histogram (calculateMACD (map Fin [10; 12; 11; 13]) 1 2 2)) 2
    = nsub (get (macd (calculateMACD (map Fin [10; 12; 11; 13]) 1 2 2)) 2)
           (get (signal (calculateMACD (map Fin [10; 12; 11; 13]) 1 2 2)) 2).
Proof.
  pose proof (calculateMACD_spec [10; 12; 11; 13] 1 2 2
                ltac:(lia) ltac:(lia) ltac:(lia)) as H.
  cbv zeta in H. destruct H as [_ H].
  destruct (H 2%nat ltac:(simpl; lia)) as (_ & Hsig & _ & _ & Hhist).
  split; [apply Hsig; lia | apply Hhist; lia].
Defined.

End Convergence.

(** ** The indicator pipeline as a store operation *)

Module Pipeline.
Import TechnicalIndicators TechnicalIndicatorsService TrackedIndicators.
Import SMA RSI Bundle Snapshots Wilder.

Lemma calculateAndSaveIndicators_unknown sqrtQ ticker db :
  company_of db ticker = None →
  calculateAndSaveIndicators sqrtQ ticker db
  = (mkResult false 0 (Some ("Company " +:+ ticker +:+ " not found")), db).
Proof. intros H. unfold calculateAndSaveIndicators. unfold company_of in H. rewrite H. reflexivity. Qed.

Lemma calculateAndSaveIndicators_known sqrtQ ticker db c :
  company_of db ticker = Some c →
  calculateAndSaveIndicators sqrtQ ticker db
  = (mkResult true
       (length (List.filter worth_saving (calculateAllIndicators sqrtQ (priceData_of db c))))
       None,
     mkDatabase (company db) (stockPrice db) (prediction db)
       (foldl (upsert (Company.id c)) (technicalIndicator db)
          (List.filter worth_saving (calculateAllIndicators sqrtQ (priceData_of db c))))).
Proof.
  intros H. unfold calculateAndSaveIndicators. unfold company_of in H. rewrite H.
  unfold save_loop. rewrite save_loop_upserts. reflexivity.
Qed.

Lemma lookup_upserts_notin companyId (l : list IndicatorResult.t) store key :
  ¬ In key (map (fun x => (companyId, IndicatorResult.date x)) l) →
  foldl (upsert companyId) store l !! key = store !! key.
Proof.
  revert store. induction l as [|x l IH]; intros store Hkey; [reflexivity|].
  simpl. rewrite IH by (intros Hin; apply Hkey; right; exact Hin).
  apply lookup_upsert_ne. intros E. apply Hkey. left. symmetry. exact E.
Qed.

Lemma lookup_upserts_keeps companyId (l : list IndicatorResult.t) store key :
  is_Some (store !! key) → is_Some (foldl (upsert companyId) store l !! key).
Proof.
  revert store. induction l as [|x l IH]; intros store Hkey; [exact Hkey|].
  simpl. apply IH.
  destruct (decide (key = (companyId, IndicatorResult.date x))) as [-> | Hne].
  - rewrite lookup_upsert_eq. eauto.
  - rewrite lookup_upsert_ne by exact Hne. exact Hkey.
Qed.

(** Updates compose, and an update of a row by itself changes nothing. *)
Lemma updated_assoc a b c : updated (updated a b) c = updated a (updated b c).
Proof. destruct c; reflexivity. Qed.

Lemma updated_idem a : updated a a = a.
Proof. destruct a; reflexivity. Qed.

Lemma update_row_assoc a b c :
  update_row (update_row a b) c = update_row a (update_row b c).
Proof. unfold update_row. cbn [IndicatorResult.date
  IndicatorResult.rsi14 IndicatorResult.macd IndicatorResult.macdSignal
  IndicatorResult.macdHistogram IndicatorResult.sma20 IndicatorResult.sma50
  IndicatorResult.sma200 IndicatorResult.ema12 IndicatorResult.ema26
  IndicatorResult.bollingerUpper IndicatorResult.bollingerMiddle
  IndicatorResult.bollingerLower IndicatorResult.stochasticK
  IndicatorResult.stochasticD IndicatorResult.atr14 IndicatorResult.adx14].
  rewrite !updated_assoc. reflexivity.
Qed.

Lemma update_row_idem a : update_row a a = a.
Proof. unfold update_row. rewrite !updated_idem. destruct a. reflexivity. Qed.

Lemma foldl_update_row_assoc a b (l : list IndicatorResult.t) :
  foldl update_row (update_row a b) l = update_row a (foldl update_row b l).
Proof.
  revert b. induction l as [|x l IH]; intros b; [reflexivity|].
  simpl. rewrite update_row_assoc. apply IH.
Qed.

(** The snapshot a key holds after a run of upserts: the stored one, upserted
    in turn by the records of that key. *)
Lemma lookup_upserts companyId (l : list IndicatorResult.t) store key :
  foldl (upsert companyId) store l !! key
  = foldl (fun row x => Some (upserted row x)) (store !! key)
      (List.filter (fun x => bool_decide (key = (companyId, IndicatorResult.date x))) l).
Proof.
  revert store. induction l as [|x l IH]; intros store; [reflexivity|].
  change (foldl (upsert companyId) store (x :: l))
    with (foldl (upsert companyId) (upsert companyId store x) l).
  rewrite IH. cbn [List.filter].
  destruct (decide (key = (companyId, IndicatorResult.date x))) as [-> | Hne].
  - rewrite bool_decide_eq_true_2 by reflexivity.
    rewrite lookup_upsert_eq. reflexivity.
  - rewrite bool_decide_eq_false_2 by exact Hne.
    rewrite lookup_upsert_ne by exact Hne. reflexivity.
Qed.

Lemma foldl_upserted_Some a (l : list IndicatorResult.t) :
  foldl (fun row x => Some (upserted row x)) (Some a) l
  = Some (foldl update_row a l).
Proof.
  revert a. induction l as [|x l IH]; intros a; [reflexivity|].
  simpl. apply IH.
Qed.

Lemma foldl_upserted_twice row (l : list IndicatorResult.t) :
  foldl (fun row x => Some (upserted row x))
    (foldl (fun row x => Some (upserted row x)) row l) l
  = foldl (fun row x => Some (upserted row x)) row l.
Proof.
  destruct l as [|x l]; [reflexivity|].
  assert (Hrun : ∀ a, foldl (fun row x => Some (upserted row x)) (Some a) (x :: l)
                      = Some (update_row a (foldl update_row x l))).
  { intros a. rewrite foldl_upserted_Some. simpl.
    rewrite foldl_update_row_assoc. reflexivity. }
  destruct row as [a|].
  - rewrite !Hrun. rewrite update_row_assoc, update_row_idem. reflexivity.
  - change (foldl (fun row x => Some (upserted row x)) None (x :: l))
      with (foldl (fun row x => Some (upserted row x)) (Some x) l).
    rewrite foldl_upserted_Some, Hrun, update_row_idem. reflexivity.
Qed.

(** Saving the same records a second time changes nothing. *)
Lemma upserts_idempotent companyId (l : list IndicatorResult.t) store :
  foldl (upsert companyId) (foldl (upsert companyId) store l) l
  = foldl (upsert companyId) store l.
Proof.
  apply map_eq. intros key. rewrite !lookup_upserts. apply foldl_upserted_twice.
Qed.

Lemma priceData_of_reads_prices db db' c :
  stockPrice db = stockPrice db' → priceData_of db c = priceData_of db' c.
Proof. intros H. unfold priceData_of. rewrite H. reflexivity. Qed.

(** X13. the pipeline writes indicator snapshots of the named company and
    nothing else.  For an unknown ticker it reports the failure and leaves the
    store as it was; otherwise companies, prices and predictions are
    untouched, the snapshots of every other company are untouched, and no
    snapshot is ever removed. *)
Theorem calculateAndSaveIndicators_frame (sqrtQ : Q → Q) (ticker : string)
    (db : Database) :
  let result := (calculateAndSaveIndicators sqrtQ ticker db).1 in
  let db' := (calculateAndSaveIndicators sqrtQ ticker db).2 in
  company db' = company db
  ∧ stockPrice db' = stockPrice db
  ∧ prediction db' = prediction db
  ∧ (company_of db ticker = None →
       result = mkResult false 0 (Some ("Company " +:+ ticker +:+ " not found"))
       ∧ db' = db)
  ∧ (∀ c, company_of db ticker = Some c →
       success result = true ∧ error result = None
       ∧ ∀ companyId date, companyId ≠ Company.id c →
           technicalIndicator db' !! (companyId, date)
           = technicalIndicator db !! (companyId, date))
  ∧ (∀ key, is_Some (technicalIndicator db !! key) →
            is_Some (technicalIndicator db' !! key)).
Proof.
  intros result db'. subst result db'.
  destruct (company_of db ticker) as [c|] eqn:Hc.
  - rewrite (calculateAndSaveIndicators_known sqrtQ ticker db c Hc). simpl.
    split; [reflexivity|]. split; [reflexivity|]. split; [reflexivity|].
    split; [discriminate|]. split.
    + intros c' [= <-]. split; [reflexivity|]. split; [reflexivity|].
      intros companyId date Hne. apply lookup_upserts_notin.
      intros Hin. apply in_map_iff in Hin. destruct Hin as (x & [= E _] & _).
      apply Hne. symmetry. exact E.
    + intros key Hkey. apply lookup_upserts_keeps. exact Hkey.
  - rewrite (calculateAndSaveIndicators_unknown sqrtQ ticker db Hc). simpl.
    split; [reflexivity|]. split; [reflexivity|]. split; [reflexivity|].
    split; [intros _; split; reflexivity|]. split; [discriminate|].
    intros key Hkey. exact Hkey.
Qed.

(** X14. the pipeline is idempotent: run again on the store it produced,
    it reports the same result and leaves that store as it is. *)
Theorem calculateAndSaveIndicators_idempotent (sqrtQ : Q → Q) (ticker : string)
    (db : Database) :
  let first := calculateAndSaveIndicators sqrtQ ticker db in
  calculateAndSaveIndicators sqrtQ ticker first.2 = first.
Proof.
  intros first. subst first.
  destruct (company_of db ticker) as [c|] eqn:Hc.
  - rewrite (calculateAndSaveIndicators_known sqrtQ ticker db c Hc). simpl.
    rewrite (calculateAndSaveIndicators_known sqrtQ ticker _ c) by exact Hc.
    simpl. unfold priceData_of. simpl. rewrite upserts_idempotent. reflexivity.
  - rewrite (calculateAndSaveIndicators_unknown sqrtQ ticker db Hc). simpl.
    apply calculateAndSaveIndicators_unknown. exact Hc.
Qed.

(** *** How many snapshots are saved *)

Lemma closes_finite db c :
  map PriceData.close (priceData_of db c)
  = map Fin (map StockPrice.close
      (by_date_asc (List.filter (fun price =>
         (StockPrice.companyId price =? Company.id c)%Z) (stockPrice db)))).
Proof. unfold priceData_of. rewrite !map_map. reflexivity. Qed.

(** The entries of a list that pass a test which holds exactly from index
    [k] on. *)
Lemma filter_from_index {A} (f : A → bool) (l : list A) (k : nat) :
  (∀ i x, l !! i = Some x → f x = true ↔ (k ≤ i)%nat) →
  length (List.filter f l) = (length l - k)%nat.
Proof.
  induction l as [|x l IH] using rev_ind; intros H; [reflexivity|].
  rewrite List.filter_app, !length_app, IH.
  - simpl.
    pose proof (H (length l) x (list_lookup_middle l [] x (length l) eq_refl)) as Hx.
    destruct (f x); simpl.
    + assert (k ≤ length l)%nat by (apply Hx; reflexivity). lia.
    + assert (¬ (k ≤ length l)%nat) by (intros Hk; apply Hx in Hk; discriminate). lia.
  - intros i y Hy. apply H. apply lookup_app_l_Some. exact Hy.
Qed.

Lemma worth_saving_from_index sqrtQ db c i r :
  calculateAllIndicators sqrtQ (priceData_of db c) !! i = Some r →
  worth_saving r = true ↔ (14 ≤ i)%nat.
Proof.
  intros Hr. unfold calculateAllIndicators in Hr.
  rewrite list_lookup_imap in Hr.
  destruct (priceData_of db c !! i) as [data|] eqn:Hdata; [|discriminate].
  apply lookup_lt_Some in Hdata.
  simpl in Hr. injection Hr as <-. rewrite worth_saving_spec. simpl.
  rewrite closes_finite in *.
  set (values := map StockPrice.close _) in *.
  assert (Hlen : length values = length (priceData_of db c)).
  { rewrite <- (length_map Fin values). subst values. rewrite <- closes_finite.
    apply length_map. }
  split.
  - intros [Hrsi | Hsma].
    + destruct (Nat.le_gt_cases 14 i) as [H | H]; [exact H|]. exfalso. apply Hrsi.
      apply optional_NaN. apply (calculateRSI_early _ 14). simpl. lia.
    + destruct (Nat.le_gt_cases 14 i) as [H | H]; [exact H|]. exfalso. apply Hsma.
      apply optional_NaN. apply (calculateSMA_early _ 20). simpl. lia.
  - intros Hi. left.
    destruct (calculateRSI_late values 14 i ltac:(lia) ltac:(lia) ltac:(lia))
      as (q & -> & _).
    discriminate.
Qed.

(** X15. of a company's price history the pipeline saves the snapshots
    from the fifteenth day on and no others: the record of index [i] passes
    the guard exactly when [14 <= i], [savedCount] is the length of the
    history less 14, and a history of at most 14 days leaves the store as it
    was. *)
Theorem pipeline_saves_from_the_fifteenth_day (sqrtQ : Q → Q) (ticker : string)
    (db : Database) (c : Company.t) :
  company_of db ticker = Some c →
  let history := priceData_of db c in
  let indicators := calculateAllIndicators sqrtQ history in
  let run := calculateAndSaveIndicators sqrtQ ticker db in
  (∀ i r, indicators !! i = Some r → worth_saving r = true ↔ (14 ≤ i)%nat)
  ∧ savedCount run.1 = (length history - 14)%nat
  ∧ ((length history ≤ 14)%nat → run.2 = db).
Proof.
  intros Hc history indicators run. subst history indicators run.
  rewrite (calculateAndSaveIndicators_known sqrtQ ticker db c Hc). simpl.
  assert (Hcount : length (List.filter worth_saving
                     (calculateAllIndicators sqrtQ (priceData_of db c)))
                   = (length (priceData_of db c) - 14)%nat).
  { rewrite (filter_from_index worth_saving _ 14).
    - unfold calculateAllIndicators. rewrite length_imap. reflexivity.
    - intros i r. apply worth_saving_from_index. }
  split; [intros i r; apply worth_saving_from_index|].
  split; [exact Hcount|].
  intros Hshort.
  destruct (List.filter worth_saving
              (calculateAllIndicators sqrtQ (priceData_of db c))) as [|x l].
  - simpl. destruct db. reflexivity.
  - simpl in Hcount. lia.
Qed.

Lemma pipeline_saves_from_the_fifteenth_day_witness :
  savedCount (calculateAndSaveIndicators example_sqrt "EQNR.OL" fifteen_day_db).1
  = 1%nat
  ∧ (calculateAndSaveIndicators example_sqrt "EQNR.OL" twelve_day_db).2
    = twelve_day_db.
Proof.
  pose proof (pipeline_saves_from_the_fifteenth_day example_sqrt "EQNR.OL"
                fifteen_day_db example_company eq_refl) as H15.
  pose proof (pipeline_saves_from_the_fifteenth_day example_sqrt "EQNR.OL"
                twelve_day_db example_company eq_refl) as H12.
  cbv zeta in H15, H12.
  destruct H15 as (_ & Hcount & _). destruct H12 as (_ & _ & Hsame).
  split; [rewrite Hcount; vm_compute; reflexivity|].
  apply Hsame. vm_compute. lia.
Defined.

(** *** All tracked companies *)

Lemma company_of_reads_companies db db' ticker :
  company db = company db' → company_of db ticker = company_of db' ticker.
Proof. intros H. unfold company_of. rewrite H. reflexivity. Qed.

(** The result of a run depends on the companies and the prices only. *)
Lemma result_reads_prices sqrtQ ticker db db' :
  company db = company db' → stockPrice db = stockPrice db' →
  (calculateAndSaveIndicators sqrtQ ticker db).1
  = (calculateAndSaveIndicators sqrtQ ticker db').1.
Proof.
  intros Hcompany Hprices.
  pose proof (company_of_reads_companies db db' ticker Hcompany) as Hc.
  destruct (company_of db' ticker) as [c|] eqn:Hc'.
  - rewrite (calculateAndSaveIndicators_known sqrtQ ticker db c Hc),
            (calculateAndSaveIndicators_known sqrtQ ticker db' c Hc').
    simpl. rewrite (priceData_of_reads_prices db db' c Hprices). reflexivity.
  - rewrite (calculateAndSaveIndicators_unknown sqrtQ ticker db Hc),
            (calculateAndSaveIndicators_unknown sqrtQ ticker db' Hc').
    reflexivity.
Qed.

Lemma run_keeps_tables sqrtQ ticker db :
  company (calculateAndSaveIndicators sqrtQ ticker db).2 = company db
  ∧ stockPrice (calculateAndSaveIndicators sqrtQ ticker db).2 = stockPrice db
  ∧ prediction (calculateAndSaveIndicators sqrtQ ticker db).2 = prediction db.
Proof.
  destruct (company_of db ticker) as [c|] eqn:Hc.
  - rewrite (calculateAndSaveIndicators_known sqrtQ ticker db c Hc). repeat split.
  - rewrite (calculateAndSaveIndicators_unknown sqrtQ ticker db Hc). repeat split.
Qed.

Lemma foldl_batch_step sqrtQ db (companies : list Company.t) st :
  company (state_db st) = company db →
  stockPrice (state_db st) = stockPrice db →
  prediction (state_db st) = prediction db →
  let st' := foldl (batch_step sqrtQ) st companies in
  let added := map (fun c => detail_of sqrtQ db (Company.ticker c)) companies in
  results st' = results st ++ added
  ∧ state_successful st'
    = (state_successful st + length (List.filter detail_success added))%nat
  ∧ state_failed st'
    = (state_failed st
       + length (List.filter (fun d => negb (detail_success d)) added))%nat
  ∧ company (state_db st') = company db
  ∧ stockPrice (state_db st') = stockPrice db
  ∧ prediction (state_db st') = prediction db.
Proof.
  revert st. induction companies as [|c companies IH]; intros st Hco Hpr Hpd.
  - simpl. rewrite app_nil_r, !Nat.add_0_r. repeat split; assumption.
  - simpl foldl.
    destruct (run_keeps_tables sqrtQ (Company.ticker c) (state_db st))
      as (Hco' & Hpr' & Hpd').
    pose proof (result_reads_prices sqrtQ (Company.ticker c) (state_db st) db Hco Hpr)
      as Hres.
    destruct (IH (batch_step sqrtQ st c)) as (Hr & Hs & Hf & Hco2 & Hpr2 & Hpd2).
    { simpl. congruence. }
    { simpl. congruence. }
    { simpl. congruence. }
    cbv zeta in *. rewrite Hr, Hs, Hf.
    split; [|split; [|split; [|repeat split; assumption]]].
    + simpl. unfold push, detail_of. rewrite Hres, <- app_assoc. reflexivity.
    + simpl. unfold detail_of at 2. rewrite Hres. simpl.
      destruct (success _); simpl; lia.
    + simpl. unfold detail_of at 2. rewrite Hres. simpl.
      destruct (success _); simpl; lia.
Qed.

(** X16. the batch over all tracked companies reports, in store order,
    for each tracked company exactly what a single run of the pipeline on the
    original store reports for its ticker; [total] is the number of tracked
    companies and of details, [successful] and [failed] count the details
    with and without success and add up to [total]; companies, prices and
    predictions are untouched. *)
Theorem calculateAllTrackedIndicators_spec (sqrtQ : Q → Q)
    (isTracked : Company.t → bool) (db : Database) :
  let companies := List.filter isTracked (company db) in
  let run := calculateAllTrackedIndicators sqrtQ isTracked db in
  details run.1 = map (fun c => detail_of sqrtQ db (Company.ticker c)) companies
  ∧ total run.1 = length (details run.1)
  ∧ successful run.1 = length (List.filter detail_success (details run.1))
  ∧ failed run.1
    = length (List.filter (fun d => negb (detail_success d)) (details run.1))
  ∧ total run.1 = (successful run.1 + failed run.1)%nat
  ∧ company run.2 = company db
  ∧ stockPrice run.2 = stockPrice db
  ∧ prediction run.2 = prediction db.
Proof.
  intros companies run. subst run. unfold calculateAllTrackedIndicators. fold companies.
  destruct (foldl_batch_step sqrtQ db companies (mkBatchState [] 0 0 db)
              eq_refl eq_refl eq_refl) as (Hr & Hs & Hf & Hco & Hpr & Hpd).
  cbv zeta in *. simpl in *.
  rewrite Hr, Hs, Hf.
  split; [reflexivity|]. split; [rewrite length_map; reflexivity|].
  split; [reflexivity|]. split; [reflexivity|].
  split; [|repeat split; assumption].
  set (added := map _ companies).
  replace (length companies) with (length added) by (subst added; apply length_map).
  clear. induction added as [|d added IH]; [reflexivity|].
  simpl. destruct (detail_success d); simpl; lia.
Qed.

End Pipeline.

(** ** The validator as a store operation *)

Module Resolution.
Import PredictionValidationJob.
Import RSI Metrics Validator.

(** *** Looking up the two prices *)

#[global] Instance key_le_transitive {A} (key : A → Z) : Transitive (key_le key).
Proof. intros a b c. unfold key_le. lia. Qed.

#[global] Instance key_le_total {A} (key : A → Z) : Total (key_le key).
Proof. intros a b. unfold key_le. lia. Qed.

(** The head of a sorted selection: none when nothing is selected, otherwise
    a selected row whose key is least. *)
Lemma head_orderBy_asc {A} (key : A → Z) (f : A → bool) (l : list A) :
  (head (orderBy_asc key (List.filter f l)) = None
   ↔ ∀ x, In x l → f x = false)
  ∧ (∀ x, head (orderBy_asc key (List.filter f l)) = Some x →
       In x l ∧ f x = true
       ∧ ∀ y, In y l → f y = true → (key x ≤ key y)%Z).
Proof.
  unfold orderBy_asc.
  pose proof (merge_sort_Permutation (key_le key) (List.filter f l)) as Hperm.
  pose proof (StronglySorted_merge_sort (key_le key) (List.filter f l)) as Hsorted.
  destruct (merge_sort (key_le key) (List.filter f l)) as [|x sorted] eqn:E; simpl.
  - apply Permutation_nil_l in Hperm. split.
    + split; [|reflexivity]. intros _ y Hy.
      destruct (f y) eqn:Hf; [|reflexivity].
      assert (Hin : In y (List.filter f l)) by (apply filter_In; split; assumption).
      rewrite <- Hperm in Hin. destruct Hin.
    + intros y [=].
  - split.
    + split; [discriminate|]. intros Hnone.
      assert (Hin : In x (List.filter f l)).
      { apply (Permutation_in x Hperm). left. reflexivity. }
      apply filter_In in Hin. destruct Hin as [Hin Hf].
      rewrite (Hnone x Hin) in Hf. discriminate.
    + intros y [= <-].
      assert (Hin : In x (List.filter f l)).
      { apply (Permutation_in x Hperm). left. reflexivity. }
      apply filter_In in Hin. destruct Hin as [Hin Hf].
      split; [exact Hin|]. split; [exact Hf|].
      intros y Hy Hfy.
      assert (Hy' : In y (x :: sorted)).
      { apply (Permutation_in y (Permutation_sym Hperm)).
        apply filter_In. split; assumption. }
      destruct Hy' as [<- | Hy'']; [lia|].
      apply StronglySorted_inv in Hsorted. destruct Hsorted as [_ Hall].
      rewrite List.Forall_forall in Hall. exact (Hall y Hy'').
Qed.

Lemma head_orderBy_desc {A} (key : A → Z) (f : A → bool) (l : list A) :
  (head (orderBy_desc key (List.filter f l)) = None
   ↔ ∀ x, In x l → f x = false)
  ∧ (∀ x, head (orderBy_desc key (List.filter f l)) = Some x →
       In x l ∧ f x = true
       ∧ ∀ y, In y l → f y = true → (key y ≤ key x)%Z).
Proof.
  destruct (head_orderBy_asc (fun a => (- key a)%Z) f l) as [Hnone Hsome].
  split; [exact Hnone|].
  intros x Hx. destruct (Hsome x Hx) as (Hin & Hf & Hleast).
  split; [exact Hin|]. split; [exact Hf|].
  intros y Hy Hfy. specialize (Hleast y Hy Hfy). lia.
Qed.

Lemma on_target_day_spec p price :
  (StockPrice.companyId price =? Prediction.companyId p)%Z
  && (Prediction.targetDate p <=? StockPrice.date price)%Z
  && (StockPrice.date price <? Prediction.targetDate p + msPerDay)%Z = true
  ↔ on_target_day p price.
Proof.
  unfold on_target_day.
  rewrite !andb_true_iff, Z.eqb_eq, Z.leb_le, Z.ltb_lt. tauto.
Qed.

Lemma known_at_prediction_spec p price :
  (StockPrice.companyId price =? Prediction.companyId p)%Z
  && (StockPrice.date price <=? Prediction.predictionDate p)%Z = true
  ↔ known_at_prediction p price.
Proof.
  unfold known_at_prediction. rewrite andb_true_iff, Z.eqb_eq, Z.leb_le. tauto.
Qed.

Lemma not_true_iff_false' (b : bool) (P : Prop) : (b = true ↔ P) → (b = false ↔ ¬ P).
Proof.
  intros H. destruct b; split; intros H'.
  - discriminate.
  - exfalso. apply H', H. reflexivity.
  - intros HP. apply H in HP. discriminate.
  - reflexivity.
Qed.

(** X17. the validator resolves a prediction with the earliest price of
    its company within the target day and the latest price at or before the
    prediction date; a prediction is passed over exactly when one of the two
    does not exist. *)
Theorem price_lookup_spec (db : Database) (p : Prediction.t) :
  (findActualPrice db p = None
   ↔ ∀ price, In price (stockPrice db) → ¬ on_target_day p price)
  ∧ (∀ actual, findActualPrice db p = Some actual →
       In actual (stockPrice db) ∧ on_target_day p actual
       ∧ ∀ price, In price (stockPrice db) → on_target_day p price →
           (StockPrice.date actual ≤ StockPrice.date price)%Z)
  ∧ (findPreviousPrice db p = None
     ↔ ∀ price, In price (stockPrice db) → ¬ known_at_prediction p price)
  ∧ (∀ previous, findPreviousPrice db p = Some previous →
       In previous (stockPrice db) ∧ known_at_prediction p previous
       ∧ ∀ price, In price (stockPrice db) → known_at_prediction p price →
           (StockPrice.date price ≤ StockPrice.date previous)%Z)
  ∧ (resolve db p = None
     ↔ findActualPrice db p = None ∨ findPreviousPrice db p = None).
Proof.
  unfold findActualPrice, findPreviousPrice, by_date_asc, by_date_desc.
  set (fa := fun price : StockPrice.t => _ && _ && _).
  set (fp := fun price : StockPrice.t => _ && _).
  destruct (head_orderBy_asc StockPrice.date fa (stockPrice db)) as [Hanone Hasome].
  destruct (head_orderBy_desc StockPrice.date fp (stockPrice db)) as [Hpnone Hpsome].
  assert (Hfa : ∀ price, fa price = true ↔ on_target_day p price).
  { intros price. apply on_target_day_spec. }
  assert (Hfp : ∀ price, fp price = true ↔ known_at_prediction p price).
  { intros price. apply known_at_prediction_spec. }
  split; [|split; [|split; [|split]]].
  - rewrite Hanone. split; intros H price Hin.
    + apply (not_true_iff_false' _ _ (Hfa price)). apply H, Hin.
    + apply (not_true_iff_false' _ _ (Hfa price)). apply H, Hin.
  - intros actual Ha. destruct (Hasome actual Ha) as (Hin & Hf & Hleast).
    split; [exact Hin|]. split; [apply Hfa, Hf|].
    intros price Hprice Hday. apply Hleast; [exact Hprice | apply Hfa, Hday].
  - rewrite Hpnone. split; intros H price Hin.
    + apply (not_true_iff_false' _ _ (Hfp price)). apply H, Hin.
    + apply (not_true_iff_false' _ _ (Hfp price)). apply H, Hin.
  - intros previous Hp. destruct (Hpsome previous Hp) as (Hin & Hf & Hleast).
    split; [exact Hin|]. split; [apply Hfp, Hf|].
    intros price Hprice Hday. apply Hleast; [exact Hprice | apply Hfp, Hday].
  - unfold resolve, findActualPrice, findPreviousPrice, by_date_asc, by_date_desc.
    fold fa fp.
    destruct (head (orderBy_asc StockPrice.date (List.filter fa (stockPrice db))));
      [|split; [left; reflexivity | reflexivity]].
    destruct (head (orderBy_desc StockPrice.date (List.filter fp (stockPrice db)))).
    + split; [discriminate | intros [H | H]; discriminate].
    + split; [right; reflexivity | reflexivity].
Qed.

(** *** The outcome written for a resolved prediction *)

Lemma ngt_nlt_close a b :
  (ngt (nsub (Fin a) (Fin b)) (Fin 0) = true ↔ b < a)
  ∧ (nlt (nsub (Fin a) (Fin b)) (Fin 0) = true ↔ a < b).
Proof.
  change (nsub (Fin a) (Fin b)) with (Fin (a - b)).
  rewrite ngt_Fin, nlt_Fin. split; split; intros; lra.
Qed.

Lemma actualDirection_of_cases a b :
  (b < a ∧ actualDirection_of (nsub (Fin a) (Fin b)) = "up")
  ∨ (a < b ∧ actualDirection_of (nsub (Fin a) (Fin b)) = "down")
  ∨ (a == b ∧ actualDirection_of (nsub (Fin a) (Fin b)) = "flat").
Proof.
  destruct (ngt_nlt_close a b) as [Hgt Hlt]. unfold actualDirection_of.
  destruct (ngt (nsub (Fin a) (Fin b)) (Fin 0)) eqn:Eg.
  - left. split; [apply Hgt; reflexivity | reflexivity].
  - destruct (nlt (nsub (Fin a) (Fin b)) (Fin 0)) eqn:El.
    + right. left. split; [apply Hlt; reflexivity | reflexivity].
    + right. right. split; [|reflexivity].
      destruct (Qlt_le_dec b a) as [H | H]; [apply Hgt in H; discriminate|].
      destruct (Qlt_le_dec a b) as [H' | H']; [apply Hlt in H'; discriminate|].
      lra.
Qed.

(** X18. the direction written for a resolved prediction is "up", "down"
    or "flat" as the close on the target day is above, below or equal to the
    close at prediction time; the prediction counts as correct exactly when it
    said "up" and the price rose or said "down" and the price fell (so a flat
    outcome is never correct); the confidence-weighted score is the
    confidence, to four decimals, of a correct prediction and 0 of any
    other. *)
Theorem enrichment_direction_spec (p : Prediction.t)
    (actual previous : StockPrice.t) :
  let e := enrichment_of p actual previous in
  let a := StockPrice.close actual in
  let b := StockPrice.close previous in
  ((b < a ∧ actualDirection e = "up")
   ∨ (a < b ∧ actualDirection e = "down")
   ∨ (a == b ∧ actualDirection e = "flat"))
  ∧ (isCorrect e = true
     ↔ (Prediction.predictedDirection p = "up" ∧ b < a)
       ∨ (Prediction.predictedDirection p = "down" ∧ a < b))
  ∧ actualPrice e = Fin a
  ∧ confidenceWeightedScore e
    = toFixed 4 (if isCorrect e then Fin (Prediction.confidence p) else Fin 0)
  ∧ (isCorrect e = false → confidenceWeightedScore e ~= Fin 0).
Proof.
  intros e a b. subst e. unfold enrichment_of. simpl. unfold actualChange_of.
  fold a b.
  split; [apply actualDirection_of_cases|].
  split; [|split; [reflexivity|split; [reflexivity|]]].
  - unfold isCorrect_of.
    rewrite orb_true_iff, !andb_true_iff, !String.eqb_eq.
    destruct (actualDirection_of_cases a b) as [[H ->] | [[H ->] | [H ->]]].
    + split.
      * intros [[Hp _] | [_ Hd]]; [left; split; assumption | discriminate].
      * intros [[Hp _] | [_ Hd]]; [left; split; [exact Hp | reflexivity] | lra].
    + split.
      * intros [[_ Hu] | [Hp _]]; [discriminate | right; split; assumption].
      * intros [[_ Hu] | [Hp _]]; [lra | right; split; [exact Hp | reflexivity]].
    + split.
      * intros [[_ Hu] | [_ Hd]]; discriminate.
      * intros [[_ Hu] | [_ Hd]]; lra.
  - intros ->. vm_compute. reflexivity.
Qed.

(** X19. the price error of a resolved prediction is computed only for a
    non-zero predicted price; it is then the distance between predicted and
    actual close relative to the actual close, in percent, and never negative
    (it is infinite when the actual close is 0). *)
Theorem priceErrorPercent_spec (p : Prediction.t) (actualPrice : StockPrice.t) :
  let a := StockPrice.close actualPrice in
  match priceErrorPercent_of p actualPrice with
  | None =>
      Prediction.predictedPrice p = None
      ∨ ∃ q, Prediction.predictedPrice p = Some q ∧ q == 0
  | Some x =>
      ∃ q, Prediction.predictedPrice p = Some q ∧ ¬ q == 0
           ∧ ((a == 0 ∧ x = PInf)
              ∨ (¬ a == 0
                 ∧ ∃ r, x = Fin r ∧ 0 <= r ∧ r == Qabs ((q - a) / a) * 100))
  end.
Proof.
  intros a. unfold priceErrorPercent_of. fold a.
  destruct (Prediction.predictedPrice p) as [q|]; [|left; reflexivity].
  destruct (truthy (Fin q)) eqn:Et.
  - assert (Hq : ¬ q == 0).
    { intros Hq. apply truthy_Fin in Hq. congruence. }
    exists q. split; [reflexivity|]. split; [exact Hq|].
    change (nsub (Fin q) (Fin a)) with (Fin (q - a)).
    destruct (Qeq_bool a 0) eqn:Ea.
    + apply Qeq_bool_iff in Ea. left. split; [exact Ea|].
      unfold ndiv. rewrite (proj2 (Qeq_bool_iff a 0) Ea).
      destruct (q - a ?= 0) eqn:Ec.
      * apply Qeq_alt in Ec. exfalso. apply Hq. lra.
      * reflexivity.
      * reflexivity.
    + apply Qeq_bool_false in Ea. right. split; [exact Ea|].
      rewrite ndiv_Fin_nonzero by exact Ea.
      change (nmul (nabs (Fin ((q - a) / a))) (Fin 100))
        with (Fin (Qabs ((q - a) / a) * 100)).
      eexists. split; [reflexivity|]. split; [|reflexivity].
      pose proof (Qabs_nonneg ((q - a) / a)). lra.
  - right. exists q. split; [reflexivity|]. apply truthy_Fin. exact Et.
Qed.

(** *** Counters and frame of a run *)

Lemma validate_step_reads_prices st row :
  stockPrice (validate_step st row).2 = stockPrice st.2.
Proof.
  destruct st as [cnt d]. unfold validate_step.
  destruct (resolve d row.2); reflexivity.
Qed.

Lemma validate_step_counts db cnt d row :
  stockPrice d = stockPrice db →
  let r := validate_step (cnt, d) row in
  validated r.1 = (validated cnt + (if resolvable db row.2 then 1 else 0))%nat
  ∧ correct r.1 = (correct cnt + (if resolved_correct db row.2 then 1 else 0))%nat
  ∧ incorrect r.1
    = (incorrect cnt
       + (if resolvable db row.2 && negb (resolved_correct db row.2) then 1 else 0))%nat
  ∧ stockPrice r.2 = stockPrice db.
Proof.
  intros Hd. cbv zeta. unfold validate_step, resolvable, resolved_correct.
  rewrite <- (resolve_reads_prices d db row.2 Hd).
  destruct (resolve d row.2) as [data|].
  - destruct (isCorrect data); simpl; (split; [lia|]; split; [lia|]; split; [lia|]);
      exact Hd.
  - simpl. split; [lia|]. split; [lia|]. split; [lia|]. exact Hd.
Qed.

Lemma foldl_validate_step_counts db (l : list (Z * Prediction.t)) cnt d :
  stockPrice d = stockPrice db →
  let r := foldl validate_step (cnt, d) l in
  validated r.1
  = (validated cnt + length (List.filter (fun row => resolvable db row.2) l))%nat
  ∧ correct r.1
    = (correct cnt + length (List.filter (fun row => resolved_correct db row.2) l))%nat
  ∧ incorrect r.1
    = (incorrect cnt
       + length (List.filter (fun row =>
           resolvable db row.2 && negb (resolved_correct db row.2)) l))%nat.
Proof.
  revert cnt d. induction l as [|row l IH]; intros cnt d Hd.
  - simpl. rewrite !Nat.add_0_r. repeat split.
  - cbv zeta.
    change (foldl validate_step (cnt, d) (row :: l))
      with (foldl validate_step (validate_step (cnt, d) row) l).
    destruct (validate_step_counts db cnt d row Hd) as (Hv & Hc & Hi & Hd').
    cbv zeta in Hv, Hc, Hi, Hd'.
    destruct (validate_step (cnt, d) row) as [cnt' d']. simpl in Hv, Hc, Hi, Hd'.
    destruct (IH cnt' d' Hd') as (Hv' & Hc' & Hi'). cbv zeta in *.
    rewrite Hv', Hc', Hi', Hv, Hc, Hi. simpl List.filter.
    destruct (resolvable db row.2); destruct (resolved_correct db row.2); simpl;
      repeat split; lia.
Qed.

(** X20. the counters a run returns: [validated] is the number of
    selected predictions for which both prices are found, [correct] the
    number of those resolved as correct, and [validated] is [correct] plus
    [incorrect]. *)
Theorem validatePredictions_counts (now : Z) (db : Database) :
  let selection := unvalidatedPredictions (startOfDay now) db in
  let counters := (validatePredictions now db).1 in
  validated counters
  = length (List.filter (fun row => resolvable db row.2) selection)
  ∧ correct counters
    = length (List.filter (fun row => resolved_correct db row.2) selection)
  ∧ validated counters = (correct counters + incorrect counters)%nat
  ∧ (validated counters ≤ length selection)%nat.
Proof.
  intros selection counters. subst counters. unfold validatePredictions.
  fold selection.
  destruct (foldl_validate_step_counts db selection (mkCounters 0 0 0) db eq_refl)
    as (Hv & Hc & Hi).
  cbv zeta in *. simpl in Hv, Hc, Hi. rewrite Hv, Hc, Hi.
  split; [reflexivity|]. split; [reflexivity|]. split.
  - clear. induction selection as [|row l IH]; [reflexivity|].
    simpl. unfold resolved_correct, resolvable in *.
    destruct (resolve db row.2) as [data|]; simpl; [|exact IH].
    destruct (isCorrect data); simpl; lia.
  - clear. induction selection as [|row l IH]; [reflexivity|].
    simpl. destruct (resolvable db row.2); simpl; lia.
Qed.

Lemma update_same_forecast data p : same_forecast p (update data p).
Proof. repeat split. Qed.

Lemma same_forecast_refl p : same_forecast p p.
Proof. repeat split. Qed.

(** X21. a run of the validator changes nothing but the enrichment of
    predictions: companies, prices and indicator snapshots are untouched, no
    prediction is added or removed, and every prediction keeps its forecast
    (company, dates, direction, predicted price and change, confidence). *)
Theorem validatePredictions_frame (now : Z) (db : Database) :
  let db' := (validatePredictions now db).2 in
  company db' = company db
  ∧ stockPrice db' = stockPrice db
  ∧ technicalIndicator db' = technicalIndicator db
  ∧ (∀ id, is_Some (prediction db' !! id) ↔ is_Some (prediction db !! id))
  ∧ (∀ id p', prediction db' !! id = Some p' →
       ∃ p, prediction db !! id = Some p ∧ same_forecast p p').
Proof.
  intros db'. subst db'.
  destruct (validatePredictions_outcome now db) as (Hco & Hpr & Hti & Hpd).
  cbv zeta in *. split; [exact Hco|]. split; [exact Hpr|]. split; [exact Hti|].
  rewrite Hpd. split.
  - intros id. rewrite lookup_fmap. destruct (prediction db !! id); simpl.
    + split; eauto.
    + split; intros [x Hx]; discriminate.
  - intros id p' Hp'. rewrite lookup_fmap in Hp'.
    destruct (prediction db !! id) as [p|]; [|discriminate].
    simpl in Hp'. injection Hp' as <-. exists p. split; [reflexivity|].
    destruct (outcome_cases (startOfDay now) db p) as [-> | (_ & _ & data & _ & ->)].
    + apply same_forecast_refl.
    + apply update_same_forecast.
Qed.

End Resolution.

(** ** Accuracy statistics *)

Module Statistics.
Import PredictionValidationJob AccuracyStats.
Import RSI Metrics Validator Resolution.

(** *** Counting *)

Lemma length_filter_split {A} (f g h : A → bool) (l : list A) :
  (∀ x, f x = g x || h x) → (∀ x, g x && h x = false) →
  length (List.filter f l)
  = (length (List.filter g l) + length (List.filter h l))%nat.
Proof.
  intros Hf Hd. induction l as [|x l IH]; [reflexivity|].
  simpl. rewrite Hf. specialize (Hd x).
  destruct (g x), (h x); simpl in *; try discriminate; lia.
Qed.

Lemma length_filter_le {A} (f g : A → bool) (l : list A) :
  (∀ x, f x = true → g x = true) →
  (length (List.filter f l) ≤ length (List.filter g l))%nat.
Proof.
  intros H. induction l as [|x l IH]; [reflexivity|].
  simpl. specialize (H x).
  destruct (f x), (g x); simpl; first [lia | specialize (H eq_refl); discriminate].
Qed.

Lemma filter_map_length {A B} (f : B → bool) (g : A → B) (l : list A) :
  length (List.filter f (map g l)) = length (List.filter (fun x => f (g x)) l).
Proof.
  induction l as [|x l IH]; [reflexivity|].
  simpl. destruct (f (g x)); simpl; lia.
Qed.

Lemma filter_filter_length {A} (f g : A → bool) (l : list A) :
  length (List.filter f (List.filter g l))
  = length (List.filter (fun x => g x && f x) l).
Proof.
  induction l as [|x l IH]; [reflexivity|].
  simpl. destruct (g x); simpl; [destruct (f x); simpl; lia | exact IH].
Qed.

Lemma filter_ext_length {A} (f g : A → bool) (l : list A) :
  (∀ x, In x l → f x = g x) →
  length (List.filter f l) = length (List.filter g l).
Proof.
  intros H. induction l as [|x l IH]; [reflexivity|].
  simpl. rewrite (H x) by (left; reflexivity).
  destruct (g x); simpl; rewrite IH; auto; intros y Hy; apply H; right; exact Hy.
Qed.

Lemma filter_all_length {A} (f : A → bool) (l : list A) :
  (∀ x, In x l → f x = true) → length (List.filter f l) = length l.
Proof.
  intros H. induction l as [|x l IH]; [reflexivity|].
  simpl. rewrite (H x) by (left; reflexivity). simpl.
  rewrite IH; [reflexivity|]. intros y Hy. apply H. right. exact Hy.
Qed.

(** *** Rounding a percentage *)

Lemma toFixed_2_percentage q :
  0 <= q → q <= 100 → within 0 100 (toFixed 2 (Fin q)).
Proof.
  intros H0 H100. unfold toFixed.
  destruct (Qle_bool (inject_Z (10 ^ 21)) (Qabs q));
    [exists q; split; [reflexivity | split; assumption]|].
  unfold round_half_away. rewrite (proj2 (Qle_bool_iff 0 q) H0).
  eexists. split; [reflexivity|].
  change (inject_Z (10 ^ 2)) with (inject_Z 100).
  assert (Hs : inject_Z 100 == 100) by reflexivity.
  set (z := Qfloor (q * inject_Z 100 + (1 # 2))).
  assert (Hz0 : (0 ≤ z)%Z).
  { change 0%Z with (Qfloor 0). apply Qfloor_resp_le. rewrite Hs. lra. }
  assert (Hz1 : (z ≤ 10000)%Z).
  { change 10000%Z with (Qfloor (10000 + (1 # 2))). apply Qfloor_resp_le.
    rewrite Hs. lra. }
  assert (H0' : 0 <= inject_Z z) by (change 0 with (inject_Z 0); rewrite <- Zle_Qle; exact Hz0).
  assert (H1' : inject_Z z <= 10000)
    by (change 10000 with (inject_Z 10000); rewrite <- Zle_Qle; exact Hz1).
  split.
  - apply Qle_shift_div_l; [reflexivity | lra].
  - apply Qle_shift_div_r; [reflexivity | rewrite Hs; lra].
Qed.

Lemma ofN_ratio (part whole : nat) :
  (0 < whole)%nat → (part ≤ whole)%nat →
  ∃ q, nmul (ndiv (ofN part) (ofN whole)) (Fin 100) = Fin q ∧ 0 <= q ∧ q <= 100.
Proof.
  intros Hw Hp. unfold ofN, ofZ.
  assert (Hpos : 0 < inject_Z (Z.of_nat whole)) by (apply inject_Z_pos; lia).
  rewrite ndiv_Fin_nonzero by lra.
  eexists. split; [reflexivity|].
  assert (H0 : 0 <= inject_Z (Z.of_nat part))
    by (change 0 with (inject_Z 0); rewrite <- Zle_Qle; lia).
  assert (H1 : inject_Z (Z.of_nat part) <= inject_Z (Z.of_nat whole))
    by (rewrite <- Zle_Qle; lia).
  assert (0 <= inject_Z (Z.of_nat part) / inject_Z (Z.of_nat whole))
    by (apply Qdiv_nonneg; assumption).
  assert (inject_Z (Z.of_nat part) / inject_Z (Z.of_nat whole) <= 1)
    by (apply Qle_shift_div_r; lra).
  split; lra.
Qed.

Lemma correct_count_le ps : (correct_count ps ≤ length ps)%nat.
Proof.
  unfold correct_count. induction ps as [|p ps IH]; [reflexivity|].
  simpl. destruct (bool_decide _); simpl; lia.
Qed.

Lemma figures_spec count ps :
  (correct_count ps ≤ count)%nat →
  let s := figures count ps in
  total s = count
  ∧ correct s = correct_count ps
  ∧ within 0 100 (accuracy s)
  ∧ (ps = [] → count = 0%nat →
       accuracy s ~= Fin 0 ∧ confidenceWeightedAccuracy s ~= Fin 0
       ∧ avgPriceError s ~= Fin 0 ∧ avgTradingReturn s ~= Fin 0).
Proof.
  intros Hle s. subst s. unfold figures. cbv zeta.
  cbn [total correct accuracy confidenceWeightedAccuracy avgPriceError avgTradingReturn].
  split; [reflexivity|]. split; [reflexivity|]. split.
  - destruct (Nat.ltb_spec 0 count) as [Hpos | Hzero].
    + destruct (ofN_ratio (correct_count ps) count Hpos Hle) as (q & -> & H0 & H1).
      apply toFixed_2_percentage; assumption.
    + apply toFixed_2_percentage; lra.
  - intros -> ->. vm_compute. repeat split; reflexivity.
Qed.

(** X22. the overall accuracy figures: [total] counts the validated
    predictions, [correct] those among them marked correct, so
    [correct <= total]; the accuracy is a percentage within [0, 100]; and
    with no validated prediction every figure is 0. *)
Theorem overall_accuracy_spec (db : Database) :
  let s := overall (getAccuracyStats db) in
  total s = length (allValidated db)
  ∧ correct s = correct_count (allValidated db)
  ∧ (correct s ≤ total s)%nat
  ∧ within 0 100 (accuracy s)
  ∧ (allValidated db = [] →
       accuracy s ~= Fin 0 ∧ confidenceWeightedAccuracy s ~= Fin 0
       ∧ avgPriceError s ~= Fin 0 ∧ avgTradingReturn s ~= Fin 0).
Proof.
  intros s. subst s. unfold getAccuracyStats. cbv zeta. cbn [overall].
  destruct (figures_spec (length (allValidated db)) (allValidated db)
              (correct_count_le _)) as (Ht & Hc & Ha & Hz).
  cbv zeta in *. rewrite Ht, Hc.
  split; [reflexivity|]. split; [reflexivity|].
  split; [apply correct_count_le|]. split; [exact Ha|].
  intros Hnil. apply Hz; [exact Hnil | rewrite Hnil; reflexivity].
Qed.

(** *** A run of the validator, seen from the statistics *)

Lemma predictions_after now db :
  map snd (map_to_list (prediction (validatePredictions now db).2))
  = map (outcome (startOfDay now) db) (map snd (map_to_list (prediction db))).
Proof.
  destruct (validatePredictions_outcome now db) as (_ & _ & _ & Hpd).
  cbv zeta in Hpd. rewrite Hpd, map_to_list_fmap.
  change (prod_map id (outcome (startOfDay now) db) <$> map_to_list (prediction db))
    with (map (prod_map id (outcome (startOfDay now) db)) (map_to_list (prediction db))).
  rewrite !map_map. apply map_ext. intros [id p]. reflexivity.
Qed.

Lemma outcome_validated today db p :
  bool_decide (Prediction.isCorrect (outcome today db p) ≠ None)
  = bool_decide (Prediction.isCorrect p ≠ None)
    || (selected today p && resolvable db p).
Proof.
  unfold outcome, resolvable. destruct (selected today p) eqn:Es.
  - apply selected_spec in Es. destruct Es as [_ Hnone].
    destruct (resolve db p) as [data|].
    + rewrite update_isCorrect, Hnone. reflexivity.
    + rewrite Hnone. reflexivity.
  - simpl. rewrite orb_false_r. reflexivity.
Qed.

Lemma outcome_correct today db p :
  bool_decide (Prediction.isCorrect (outcome today db p) = Some true)
  = bool_decide (Prediction.isCorrect p = Some true)
    || (selected today p && resolved_correct db p).
Proof.
  unfold outcome, resolved_correct. destruct (selected today p) eqn:Es.
  - apply selected_spec in Es. destruct Es as [_ Hnone].
    destruct (resolve db p) as [data|].
    + rewrite update_isCorrect, Hnone. simpl. destruct (isCorrect data); reflexivity.
    + rewrite Hnone. reflexivity.
  - simpl. rewrite orb_false_r. reflexivity.
Qed.

Lemma selected_not_validated today p :
  bool_decide (Prediction.isCorrect p ≠ None) && selected today p = false.
Proof.
  destruct (selected today p) eqn:Es; [|apply andb_false_r].
  apply selected_spec in Es. destruct Es as [_ ->]. reflexivity.
Qed.

Lemma selected_not_correct today p :
  bool_decide (Prediction.isCorrect p = Some true) && selected today p = false.
Proof.
  destruct (selected today p) eqn:Es; [|apply andb_false_r].
  apply selected_spec in Es. destruct Es as [_ ->]. reflexivity.
Qed.

Lemma selection_count (f : Prediction.t → bool) today db :
  length (List.filter (fun row => f row.2) (unvalidatedPredictions today db))
  = length (List.filter (fun p => selected today p && f p)
              (map snd (map_to_list (prediction db)))).
Proof.
  unfold unvalidatedPredictions.
  rewrite filter_filter_length, filter_map_length. reflexivity.
Qed.

(** X23. every prediction a run of the validator resolves enters the
    statistics: after the run the overall [total] has grown by the counter
    [validated] and the overall [correct] by the counter [correct]. *)
Theorem validation_feeds_statistics (now : Z) (db : Database) :
  let run := validatePredictions now db in
  let before := overall (getAccuracyStats db) in
  let after := overall (getAccuracyStats run.2) in
  total after = (total before + validated run.1)%nat
  ∧ correct after = (correct before + PredictionValidationJob.correct run.1)%nat.
Proof.
  intros run before after. subst run before after.
  unfold getAccuracyStats, figures. cbv zeta. cbn [overall total correct].
  destruct (foldl_validate_step_counts db
              (unvalidatedPredictions (startOfDay now) db) (mkCounters 0 0 0) db eq_refl)
    as (Hv & Hc & _).
  cbv zeta in Hv, Hc.
  unfold correct_count, allValidated. rewrite predictions_after.
  unfold validatePredictions. rewrite Hv, Hc. simpl.
  rewrite !selection_count.
  set (ps := map snd (map_to_list (prediction db))).
  split.
  - rewrite filter_map_length.
    apply length_filter_split.
    + intros p. apply outcome_validated.
    + intros p. rewrite andb_assoc, selected_not_validated. reflexivity.
  - rewrite !filter_filter_length, filter_map_length.
    rewrite (filter_ext_length _
               (fun p => bool_decide (Prediction.isCorrect p ≠ None)
                         && bool_decide (Prediction.isCorrect p = Some true)
                         || selected (startOfDay now) p && resolved_correct db p)).
    + apply length_filter_split; [reflexivity|].
      intros p. destruct (bool_decide (Prediction.isCorrect p ≠ None)); [|reflexivity].
      simpl. rewrite andb_assoc, selected_not_correct. reflexivity.
    + intros p _. rewrite outcome_validated, outcome_correct.
      destruct (selected (startOfDay now) p) eqn:Es.
      * apply selected_spec in Es. destruct Es as [_ Hnone]. rewrite Hnone. simpl.
        unfold resolvable, resolved_correct.
        destruct (resolve db p) as [data|]; [|reflexivity].
        destruct (isCorrect data); reflexivity.
      * simpl. rewrite !orb_false_r.
        destruct (Prediction.isCorrect p) as [[|]|]; reflexivity.
Qed.

(** *** Statistics by stock *)

Lemma group_sizes (keys : list Z) (l : list Prediction.t) :
  NoDup keys →
  sum_list (map (fun k =>
      length (List.filter (fun p => (Prediction.companyId p =? k)%Z) l)) keys)
  = length (List.filter (fun p => bool_decide (Prediction.companyId p ∈ keys)) l).
Proof.
  induction 1 as [|k keys Hk Hnd IH].
  - symmetry. rewrite (filter_ext_length _ (fun _ => false)).
    + induction l as [|p l IHl]; [reflexivity | exact IHl].
    + intros p _. apply bool_decide_eq_false_2, not_elem_of_nil.
  - simpl. rewrite IH. symmetry. apply length_filter_split.
    + intros p. destruct (Z.eqb_spec (Prediction.companyId p) k) as [-> | Hne].
      * simpl. apply bool_decide_eq_true_2. left.
      * simpl. apply bool_decide_ext. rewrite elem_of_cons. tauto.
    + intros p. destruct (Z.eqb_spec (Prediction.companyId p) k) as [-> | Hne];
        [|reflexivity].
      simpl. apply bool_decide_eq_false_2. exact Hk.
Qed.

Lemma groups_cover (l l' : list Prediction.t) :
  (∀ p, In p l' → In p l) →
  sum_list (map (fun k =>
      length (List.filter (fun p => (Prediction.companyId p =? k)%Z) l'))
    (remove_dups (map Prediction.companyId l)))
  = length l'.
Proof.
  intros Hsub. rewrite group_sizes by apply NoDup_remove_dups.
  apply filter_all_length. intros p Hp. apply bool_decide_eq_true_2.
  apply elem_of_remove_dups. apply list_elem_of_In. apply in_map. apply Hsub, Hp.
Qed.

(** X24. the statistics by stock partition the overall ones: there is
    one entry per company with a validated prediction, each with at least one
    prediction and no more correct ones than predictions, and the totals and
    the correct counts of the entries add up to the overall total and correct
    count. *)
Theorem byStock_partitions_overall (db : Database) :
  let stats := getAccuracyStats db in
  let totals := map (fun e => total (figures_of e)) (byStock stats) in
  let corrects := map (fun e => correct (figures_of e)) (byStock stats) in
  sum_list totals = total (overall stats)
  ∧ sum_list corrects = correct (overall stats)
  ∧ Forall (fun e => (1 ≤ total (figures_of e))%nat
                     ∧ (correct (figures_of e) ≤ total (figures_of e))%nat)
      (byStock stats)
  ∧ NoDup (map fst (groupBy_companyId (allValidated db)))
  ∧ length (byStock stats)
    = length (remove_dups (map Prediction.companyId (allValidated db))).
Proof.
  intros stats totals corrects. subst totals corrects stats.
  unfold getAccuracyStats. cbv zeta. cbn [byStock overall].
  unfold groupBy_companyId. rewrite !map_map.
  unfold byStock_entry, figures. cbv zeta. cbn [figures_of total correct fst snd].
  set (all := allValidated db).
  split; [apply groups_cover; auto|].
  split.
  { unfold correct_count.
    rewrite (map_ext _ (fun k => length (List.filter
               (fun p => (Prediction.companyId p =? k)%Z)
               (List.filter (fun p => bool_decide (Prediction.isCorrect p = Some true))
                  all)))).
    - apply groups_cover. intros p Hp. apply filter_In in Hp. tauto.
    - intros k. rewrite !filter_filter_length. apply filter_ext_length.
      intros p _. apply andb_comm. }
  split.
  { apply List.Forall_forall. intros e He. apply in_map_iff in He.
    destruct He as (k & <- & Hk). cbn [figures_of total correct].
    assert (Hk' : k ∈ map Prediction.companyId all).
    { apply elem_of_remove_dups. apply list_elem_of_In. exact Hk. }
    apply (proj1 (list_elem_of_In _ _)) in Hk'. clear Hk. rename Hk' into Hk.
    apply in_map_iff in Hk. destruct Hk as (p & Hpk & Hp).
    split.
    - assert (Hin : In p (List.filter
                (fun p => (Prediction.companyId p =? k)%Z) all)).
      { apply filter_In. split; [exact Hp | apply Z.eqb_eq, Hpk]. }
      destruct (List.filter _ all); [destruct Hin | simpl; lia].
    - apply correct_count_le. }
  split.
  { rewrite List.map_id. apply NoDup_remove_dups. }
  rewrite length_map. reflexivity.
Qed.

End Statistics.

(** ** The trades of a simulation *)

Module Trading.
Import TradingSimulatorService TradingStatistics.
Import RSI Metrics Simulator Resolution Statistics.

Lemma replay_step_cases strategy ledger p :
  (nlt (currentCapital ledger) (Fin (positionSize strategy)) = true
   ∧ replay_step strategy ledger p = ledger)
  ∨ (nlt (currentCapital ledger) (Fin (positionSize strategy)) = false
     ∧ ∃ t, trades (replay_step strategy ledger p) = push (trades ledger) t
            ∧ currentCapital (replay_step strategy ledger p)
              = nadd (currentCapital ledger) (Trade.return_ t)
            ∧ follows t p).
Proof.
  unfold replay_step. cbv zeta. rewrite open_position_guard_never_holds.
  destruct (nlt (currentCapital ledger) (Fin (positionSize strategy)));
    [left; split; reflexivity|].
  right. split; [reflexivity|]. unfold follows, long.
  destruct (String.eqb (Prediction.predictedDirection p) "up") eqn:Eup.
  - rewrite andb_true_r.
    destruct (bool_decide (Prediction.actualDirection p = Some "up")).
    + eexists. split; [reflexivity|]. split; [reflexivity|]. repeat split.
    + apply String.eqb_eq in Eup. rewrite Eup. simpl. rewrite andb_false_r.
      eexists. split; [reflexivity|]. split; [reflexivity|]. repeat split.
  - rewrite andb_false_r.
    destruct (bool_decide (Prediction.actualDirection p = Some "down")
              && String.eqb (Prediction.predictedDirection p) "down").
    + eexists. split; [reflexivity|]. split; [reflexivity|]. repeat split.
    + eexists. split; [reflexivity|]. split; [reflexivity|]. repeat split.
Qed.

Lemma foldl_replay_follows strategy (ps : list Prediction.t) ledger :
  ∃ taken new,
    taken `sublist_of` ps
    ∧ trades (foldl (replay_step strategy) ledger ps) = trades ledger ++ new
    ∧ Forall2 follows new taken.
Proof.
  revert ledger. induction ps as [|p ps IH]; intros ledger.
  - exists [], []. split; [constructor|]. split; [rewrite app_nil_r; reflexivity|].
    constructor.
  - simpl foldl.
    destruct (replay_step_cases strategy ledger p)
      as [[_ ->] | [_ (t & Et & _ & Ht)]].
    + destruct (IH ledger) as (taken & new & Hsub & Htr & Hall).
      exists taken, new. split; [apply sublist_cons, Hsub|]. split; assumption.
    + destruct (IH (replay_step strategy ledger p))
        as (taken & new & Hsub & Htr & Hall).
      exists (p :: taken), (t :: new). split; [apply sublist_skip, Hsub|].
      split; [rewrite Htr, Et; unfold push; rewrite <- app_assoc; reflexivity|].
      constructor; assumption.
Qed.

Lemma Forall_sublist {A} (P : A → Prop) (l l' : list A) :
  l' `sublist_of` l → Forall P l → Forall P l'.
Proof.
  induction 1 as [|x l1 l2 _ IH|x l1 l2 _ IH]; intros H.
  - constructor.
  - inversion H; subst. constructor; [assumption | apply IH; assumption].
  - inversion H; subst. apply IH. assumption.
Qed.

Lemma StronglySorted_sublist {A} (R : relation A) (l l' : list A) :
  l' `sublist_of` l → StronglySorted R l → StronglySorted R l'.
Proof.
  induction 1 as [|x l1 l2 Hsub IH|x l1 l2 Hsub IH]; intros H.
  - constructor.
  - apply StronglySorted_inv in H. destruct H as [Hs Hall].
    constructor; [apply IH, Hs | apply (Forall_sublist _ l2); assumption].
  - apply StronglySorted_inv in H. destruct H as [Hs _]. apply IH, Hs.
Qed.

Lemma follows_displayed t p : follows t p → follows (displayed t) p.
Proof. intros H. exact H. Qed.

(** X25. every trade of a simulation follows one of the qualifying
    predictions, in their order and at most one trade per prediction: it is
    made on the prediction's target date and company, with its confidence,
    long (BUY) when the prediction said "up" and short (SHORT) otherwise,
    never SELL; so the trades are in chronological order and no more than the
    qualifying predictions. *)
Theorem trades_follow_predictions (strategy : TradingStrategy) (db : Database) :
  let predictions := qualifying strategy db in
  let result := simulateHistoricalTrading strategy db in
  ∃ taken,
    taken `sublist_of` predictions
    ∧ Forall2 follows (result_trades result) taken
    ∧ StronglySorted Z.le (map Trade.date (result_trades result))
    ∧ (summary_totalTrades (summary result) ≤ length predictions)%nat
    ∧ Forall (fun t => Trade.type t = BUY ∨ Trade.type t = SHORT)
        (result_trades result).
Proof.
  intros predictions result. subst result. unfold simulateHistoricalTrading.
  cbv zeta. cbn [result_trades summary summary_totalTrades]. fold predictions.
  unfold replay.
  destruct (foldl_replay_follows strategy predictions (mkLedger startingCapital []))
    as (taken & new & Hsub & Htr & Hall).
  simpl in Htr. rewrite Htr. exists taken.
  assert (Hdisplayed : Forall2 follows (map displayed new) taken).
  { clear -Hall. induction Hall as [|t p new' taken' Ht _ IH]; simpl; constructor.
    - apply follows_displayed, Ht.
    - exact IH. }
  assert (Hdates : map Trade.date (map displayed new) = map Prediction.targetDate taken).
  { clear -Hdisplayed. induction Hdisplayed as [|t p new' taken' Ht _ IH]; [reflexivity|].
    simpl. destruct Ht as (-> & _). f_equal. exact IH. }
  split; [exact Hsub|]. split; [exact Hdisplayed|]. split; [|split].
  - rewrite Hdates.
    apply (StronglySorted_fmap Prediction.targetDate (key_le Prediction.targetDate) Z.le).
    + intros x y H. exact H.
    + apply (StronglySorted_sublist _ predictions); [exact Hsub|].
      subst predictions. unfold qualifying, orderBy_asc.
      apply StronglySorted_merge_sort; apply _.
  - rewrite (Forall2_length _ _ _ Hall). apply sublist_length in Hsub. lia.
  - clear -Hdisplayed. induction Hdisplayed as [|t p new' taken' Ht _ IH]; constructor.
    + destruct Ht as (_ & _ & -> & _). destruct (long p); [left | right]; reflexivity.
    + exact IH.
Qed.

(** X26. once the capital is below the position size, no later prediction
    is traded: the rest of the replay leaves the ledger as it is. *)
Theorem replay_stops_when_capital_is_short (strategy : TradingStrategy)
    (ledger : Ledger) (predictions : list Prediction.t) :
  nlt (currentCapital ledger) (Fin (positionSize strategy)) = true →
  foldl (replay_step strategy) ledger predictions = ledger.
Proof.
  intros Hshort. induction predictions as [|p ps IH]; [reflexivity|].
  simpl. destruct (replay_step_cases strategy ledger p) as [[_ ->] | [Hfalse _]].
  - exact IH.
  - congruence.
Qed.

Lemma replay_stops_when_capital_is_short_witness :
  foldl (replay_step DEFAULT_STRATEGY) (mkLedger (Fin 9999) [])
    (qualifying DEFAULT_STRATEGY overlapping_db_validated)
  = mkLedger (Fin 9999) [].
Proof.
  apply replay_stops_when_capital_is_short. reflexivity.
Defined.

(** *** Profit and loss of one trade *)




(** *** Wins and losses *)

Lemma win_or_loss (r : number) :
  ((if ngt r (Fin 0) then 1 else 0) + (if nge (Fin 0) r then 1 else 0)
   + (if isNaN r then 1 else 0))%nat = 1%nat.
Proof.
  destruct r as [| | |q]; try reflexivity.
  unfold ngt, nge. simpl isNaN.
  destruct (nlt (Fin 0) (Fin q)) eqn:E1.
  - apply nlt_Fin in E1.
    rewrite (proj2 (nlt_Fin_false q 0)) by lra. simpl.
    destruct (Qeq_bool 0 q) eqn:E2; [|reflexivity].
    apply Qeq_bool_iff in E2. lra.
  - apply nlt_Fin_false in E1.
    destruct (nlt (Fin q) (Fin 0)) eqn:E3; [reflexivity|].
    apply nlt_Fin_false in E3. simpl.
    rewrite (proj2 (Qeq_bool_iff 0 q)) by lra. reflexivity.
Qed.

Lemma length_filter_cons {A} (f : A → bool) (x : A) (l : list A) :
  length (List.filter f (x :: l))
  = ((if f x then 1 else 0) + length (List.filter f l))%nat.
Proof. simpl. destruct (f x); reflexivity. Qed.

(** X28. every trade whose return is a number is counted exactly once,
    as a win (return above 0) or as a loss (return at most 0); only a trade
    with an undefined return is counted as neither.  The win rate is a
    percentage within [0, 100]. *)
Theorem wins_and_losses_partition (strategy : TradingStrategy) (db : Database) :
  let s := summary (simulateHistoricalTrading strategy db) in
  let ts := trades (replay strategy (qualifying strategy db)) in
  (summary_winningTrades s + summary_losingTrades s
   + length (List.filter (fun t => isNaN (Trade.return_ t)) ts))%nat
  = summary_totalTrades s
  ∧ (summary_winningTrades s + summary_losingTrades s ≤ summary_totalTrades s)%nat
  ∧ within 0 100 (summary_winRate ts).
Proof.
  intros s ts. subst s. unfold simulateHistoricalTrading. cbv zeta.
  cbn [summary summary_winningTrades summary_losingTrades summary_totalTrades].
  fold ts.
  assert (Hsum : (length (List.filter (fun t => ngt (Trade.return_ t) (Fin 0)) ts)
                  + length (List.filter (fun t => nge (Fin 0) (Trade.return_ t)) ts)
                  + length (List.filter (fun t => isNaN (Trade.return_ t)) ts))%nat
                 = length ts).
  { clear. induction ts as [|t ts IH]; [reflexivity|].
    rewrite !length_filter_cons.
    pose proof (win_or_loss (Trade.return_ t)) as H.
    change (length (t :: ts)) with (S (length ts)). lia. }
  split; [exact Hsum|]. split; [lia|].
  unfold summary_winRate. cbv zeta.
  destruct (Nat.ltb_spec 0 (length ts)) as [Hpos | Hzero].
  - destruct (ofN_ratio
                (length (List.filter (fun t => ngt (Trade.return_ t) (Fin 0)) ts))
                (length ts) Hpos) as (q & -> & H0 & H1).
    + clear. induction ts as [|t ts IH]; [reflexivity|].
      rewrite length_filter_cons. change (length (t :: ts)) with (S (length ts)).
      destruct (ngt (Trade.return_ t) (Fin 0)); lia.
    + apply toFixed_2_percentage; assumption.
  - apply toFixed_2_percentage; lra.
Qed.

(** *** Maximum drawdown *)

Lemma drawdown_step_Fin (pk d c r : Q) (t : Trade.t) :
  Trade.return_ t = Fin r →
  100000 <= pk → c <= pk → 0 <= d →
  ∃ pk' d',
    drawdown_step (mkDrawdown (Fin pk) (Fin d) (Fin c)) t
    = mkDrawdown (Fin pk') (Fin d') (Fin (c + r))
    ∧ pk <= pk' ∧ c + r <= pk' ∧ d <= d'
    ∧ (0 <= r → c == pk → d == 0 → c + r == pk' ∧ d' == 0)
    ∧ (0 <= c + r → d <= 100 → d' <= 100).
Proof.
  intros Hr Hpk Hc Hd. unfold drawdown_step. rewrite Hr. cbv zeta.
  cbn [peak maxDrawdown runningCapital].
  change (nadd (Fin c) (Fin r)) with (Fin (c + r)).
  unfold ngt. destruct (nlt (Fin pk) (Fin (c + r))) eqn:Epk.
  - apply nlt_Fin in Epk.
    change (nsub (Fin (c + r)) (Fin (c + r))) with (Fin (c + r - (c + r))).
    rewrite ndiv_Fin_nonzero by lra.
    change (nmul (Fin ((c + r - (c + r)) / (c + r))) (Fin 100))
      with (Fin ((c + r - (c + r)) / (c + r) * 100)).
    assert (E : (c + r - (c + r)) / (c + r) * 100 == 0) by (field; lra).
    rewrite (proj2 (nlt_Fin_false d _)) by (rewrite E; exact Hd).
    exists (c + r), d. split; [reflexivity|].
    split; [lra|]. split; [lra|]. split; [lra|].
    split; [intros _ _ H0; split; [reflexivity | exact H0] | intros _ H; exact H].
  - apply nlt_Fin_false in Epk.
    change (nsub (Fin pk) (Fin (c + r))) with (Fin (pk - (c + r))).
    rewrite ndiv_Fin_nonzero by lra.
    change (nmul (Fin ((pk - (c + r)) / pk)) (Fin 100))
      with (Fin ((pk - (c + r)) / pk * 100)).
    assert (H0 : 0 <= (pk - (c + r)) / pk) by (apply Qdiv_nonneg; lra).
    destruct (nlt (Fin d) (Fin ((pk - (c + r)) / pk * 100))) eqn:Ed.
    + apply nlt_Fin in Ed. exists pk. eexists. split; [reflexivity|].
      split; [lra|]. split; [lra|]. split; [lra|]. split.
      * intros Hr0 Hcp Hd0. exfalso.
        assert (E : (pk - (c + r)) / pk * 100 == (pk - (c + r)) * (100 / pk))
          by (field; lra).
        assert (Hle : pk - (c + r) <= 0) by lra.
        assert (Hpos : 0 <= 100 / pk) by (apply Qdiv_nonneg; lra).
        assert (Hge : 0 <= pk - (c + r)) by lra.
        assert (Hz : pk - (c + r) == 0) by lra.
        rewrite E, Hz in Ed. lra.
      * intros Hcr _.
        assert (H1 : (pk - (c + r)) / pk <= 1) by (apply Qle_shift_div_r; lra).
        lra.
    + apply nlt_Fin_false in Ed. exists pk, d. split; [reflexivity|].
      split; [lra|]. split; [lra|]. split; [lra|]. split.
      * intros Hr0 Hcp Hd0. split; [lra | exact Hd0].
      * intros _ H. exact H.
Qed.

Lemma foldl_drawdown_step (ts : list Trade.t) (returns : list Q) (pk d c : Q) :
  map Trade.return_ ts = map Fin returns →
  100000 <= pk → c <= pk → 0 <= d →
  ∃ pk' d',
    foldl drawdown_step (mkDrawdown (Fin pk) (Fin d) (Fin c)) ts
    = mkDrawdown (Fin pk') (Fin d') (Fin (foldl Qplus c returns))
    ∧ pk <= pk' ∧ foldl Qplus c returns <= pk' ∧ d <= d'
    ∧ (Forall (fun r => 0 <= r) returns → c == pk → d == 0 → d' == 0)
    ∧ (Forall (fun x => 0 <= x) (capital_path c returns) → d <= 100 → d' <= 100).
Proof.
  revert returns pk d c. induction ts as [|t ts IH]; intros returns pk d c Hmap Hpk Hc Hd.
  - destruct returns; [|discriminate]. exists pk, d. simpl.
    split; [reflexivity|]. split; [lra|]. split; [exact Hc|]. split; [lra|].
    split; [intros _ _ H; exact H | intros _ H; exact H].
  - destruct returns as [|r returns]; [discriminate|].
    simpl in Hmap. injection Hmap as Hr Hmap.
    change (foldl drawdown_step (mkDrawdown (Fin pk) (Fin d) (Fin c)) (t :: ts))
      with (foldl drawdown_step
              (drawdown_step (mkDrawdown (Fin pk) (Fin d) (Fin c)) t) ts).
    change (foldl Qplus c (r :: returns)) with (foldl Qplus (c + r) returns).
    destruct (drawdown_step_Fin pk d c r t Hr Hpk Hc Hd)
      as (pk1 & d1 & -> & Hpk1 & Hc1 & Hd1 & Hgain1 & Hcap1).
    destruct (IH returns pk1 d1 (c + r) Hmap ltac:(lra) Hc1 ltac:(lra))
      as (pk2 & d2 & E & Hpk2 & Hc2 & Hd2 & Hgain2 & Hcap2).
    exists pk2, d2. split; [exact E|].
    split; [lra|]. split; [exact Hc2|]. split; [lra|]. split.
    + intros Hall Hcp Hd0. inversion Hall as [|? ? Hr0 Hall']; subst.
      destruct (Hgain1 Hr0 Hcp Hd0) as [Hcp1 Hd10].
      apply Hgain2; assumption.
    + intros Hall Hd100. simpl in Hall. inversion Hall as [|? ? Hcr Hall']; subst.
      apply Hcap2; [exact Hall' | apply Hcap1; assumption].
Qed.

(** X29. for trades with finite returns the drawdown loop ends with the
    capital the returns add up to and a peak that is at least the starting
    capital and at least that capital; the maximum drawdown is never
    negative, it is 0 when no trade lost money, and at most 100 when the
    capital never went below 0. *)
Theorem maxDrawdown_spec (ts : list Trade.t) (returns : list Q) :
  map Trade.return_ ts = map Fin returns →
  ∃ pk d,
    drawdown_loop ts
    = mkDrawdown (Fin pk) (Fin d) (Fin (foldl Qplus 100000 returns))
    ∧ 100000 <= pk ∧ foldl Qplus 100000 returns <= pk
    ∧ 0 <= d
    ∧ (Forall (fun r => 0 <= r) returns → d == 0)
    ∧ (Forall (fun x => 0 <= x) (capital_path 100000 returns) → d <= 100).
Proof.
  intros Hmap. unfold drawdown_loop, startingCapital.
  destruct (foldl_drawdown_step ts returns 100000 0 100000 Hmap
              ltac:(lra) ltac:(lra) ltac:(lra))
    as (pk & d & E & Hpk & Hc & Hd & Hgain & Hcap).
  exists pk, d. split; [exact E|]. split; [exact Hpk|]. split; [exact Hc|].
  split; [exact Hd|]. split.
  - intros Hall. apply Hgain; [exact Hall | reflexivity | reflexivity].
  - intros Hall. apply Hcap; [exact Hall | lra].
Qed.

Lemma maxDrawdown_spec_witness :
  ∃ pk d,
    drawdown_loop [trade_returning 980; trade_returning (-500)]
    = mkDrawdown (Fin pk) (Fin d) (Fin (foldl Qplus 100000 [980; -500]))
    ∧ 100000 <= pk ∧ foldl Qplus 100000 [980; -500] <= pk
    ∧ 0 <= d.
Proof.
  destruct (maxDrawdown_spec [trade_returning 980; trade_returning (-500)]
              [980; -500] eq_refl)
    as (pk & d & E & Hpk & Hc & Hd & _).
  exists pk, d. split; [exact E|]. split; [exact Hpk|]. split; [exact Hc | exact Hd].
Defined.

(** *** Recommendations *)

#[global] Instance qkey_le_transitive {A} (key : A → Q) : Transitive (qkey_le key).
Proof. intros a b c. unfold qkey_le. intros; lra. Qed.

#[global] Instance qkey_le_total {A} (key : A → Q) : Total (qkey_le key).
Proof.
  intros a b. unfold qkey_le.
  destruct (Qlt_le_dec (key b) (key a)); [right; lra | left; assumption].
Qed.

Lemma active_spec minConfidence now db p :
  In p (active minConfidence now db)
  ↔ ∃ id, prediction db !! id = Some p
          ∧ Prediction.isCorrect p = None
          ∧ (now ≤ Prediction.targetDate p)%Z
          ∧ minConfidence <= Prediction.confidence p.
Proof.
  unfold active, orderBy_desc_Q.
  rewrite <- list_elem_of_In.
  rewrite merge_sort_Permutation.
  rewrite list_elem_of_In, filter_In, in_map_iff.
  rewrite !andb_true_iff, Z.leb_le, Qle_bool_iff, bool_decide_eq_true.
  split.
  - intros [([id q] & Hq & Hin) (Hconds & Hnone)]. simpl in Hq. subst q.
    apply list_elem_of_In, elem_of_map_to_list in Hin. exists id. tauto.
  - intros (id & Hid & Hnone & Hnow & Hconf). split; [|tauto].
    exists (id, p). split; [reflexivity|].
    apply list_elem_of_In, elem_of_map_to_list. exact Hid.
Qed.

Lemma nge_Fin_false a b : nge (Fin a) (Fin b) = false ↔ a < b.
Proof.
  destruct (nge (Fin a) (Fin b)) eqn:E.
  - apply nge_Fin in E. split; [discriminate | lra].
  - split; [|reflexivity]. intros _.
    destruct (Qlt_le_dec a b) as [H | H]; [exact H|].
    apply nge_Fin in H. congruence.
Qed.

(** X30. the recommendations are exactly those of the pending
    predictions with a target date not before now and a confidence of at
    least the minimum, ranked by confidence, highest first.  A recommendation
    is HOLD exactly when the confidence is below 0.60, its reasoning is the
    high tier exactly from 0.70 and the low tier exactly below 0.60, and its
    current price is the close of the latest price of the company, or 0 when
    the company has no price. *)
Theorem recommendations_ranked (minConfidence : Q) (now : Z) (db : Database) :
  let recommendations := getTradingRecommendations minConfidence now db in
  StronglySorted ranks_before recommendations
  ∧ (∀ r, In r recommendations
          ↔ ∃ id p, prediction db !! id = Some p
                    ∧ Prediction.isCorrect p = None
                    ∧ (now ≤ Prediction.targetDate p)%Z
                    ∧ minConfidence <= Prediction.confidence p
                    ∧ r = recommend db p)
  ∧ (∀ p,
       let r := recommend db p in
       let c := Prediction.confidence p in
       Recommendation.confidence r = Fin c
       ∧ Recommendation.targetDate r = Prediction.targetDate p
       ∧ (Recommendation.recommendation r = Advice_HOLD ↔ c < 0.60)
       ∧ (Recommendation.reasoning r = HighConfidence ↔ 0.70 <= c)
       ∧ (Recommendation.reasoning r = LowConfidence ↔ c < 0.60)
       ∧ ((∃ price, latest_price db (Company.id (Prediction.company p)) price
                    ∧ Recommendation.currentPrice r = Fin (StockPrice.close price))
          ∨ ((∀ price, In price (stockPrice db) →
                StockPrice.companyId price ≠ Company.id (Prediction.company p))
             ∧ Recommendation.currentPrice r = Fin 0))).
Proof.
  intros recommendations. subst recommendations. unfold getTradingRecommendations.
  split; [|split].
  - change (map (recommend db)) with (fmap (M := list) (recommend db)).
    apply (StronglySorted_fmap (recommend db)
             (qkey_le (fun p => - Prediction.confidence p)) ranks_before).
    + intros x y H. unfold qkey_le in H. unfold ranks_before.
      exists (Prediction.confidence x), (Prediction.confidence y).
      split; [reflexivity|]. split; [reflexivity | lra].
    + unfold active, orderBy_desc_Q. apply StronglySorted_merge_sort; apply _.
  - intros r. rewrite in_map_iff. split.
    + intros (p & <- & Hp). apply active_spec in Hp.
      destruct Hp as (id & Hid & Hnone & Hnow & Hconf).
      exists id, p. repeat split; assumption.
    + intros (id & p & Hid & Hnone & Hnow & Hconf & ->).
      exists p. split; [reflexivity|]. apply active_spec. exists id. tauto.
  - intros p. cbv zeta. unfold recommend. cbv zeta.
    cbn [Recommendation.confidence Recommendation.targetDate
         Recommendation.recommendation Recommendation.reasoning
         Recommendation.currentPrice].
    split; [reflexivity|]. split; [reflexivity|].
    set (c := Prediction.confidence p).
    assert (Htiers :
      (0.70 <= c ∧ nge (Fin c) (Fin 0.70) = true)
      ∨ (0.60 <= c ∧ c < 0.70 ∧ nge (Fin c) (Fin 0.70) = false
         ∧ nge (Fin c) (Fin 0.60) = true)
      ∨ (c < 0.60 ∧ nge (Fin c) (Fin 0.70) = false
         ∧ nge (Fin c) (Fin 0.60) = false)).
    { destruct (Qlt_le_dec c 0.70) as [H7 | H7].
      - destruct (Qlt_le_dec c 0.60) as [H6 | H6].
        + right. right. split; [exact H6|].
          split; apply nge_Fin_false; lra.
        + right. left. split; [exact H6|]. split; [exact H7|].
          split; [apply nge_Fin_false; lra | apply nge_Fin; exact H6].
      - left. split; [exact H7 | apply nge_Fin; exact H7]. }
    split; [|split; [|split]].
    + destruct Htiers as [[H7 ->] | [(H6 & H7 & -> & ->) | (H6 & -> & ->)]]; simpl.
      * split; [|lra]. destruct (String.eqb _ _); discriminate.
      * split; [|lra]. destruct (String.eqb _ _); discriminate.
      * split; [intros _; exact H6 | reflexivity].
    + destruct Htiers as [[H7 ->] | [(H6 & H7 & -> & ->) | (H6 & -> & ->)]]; simpl.
      * split; [intros _; exact H7 | reflexivity].
      * split; [discriminate | lra].
      * split; [discriminate | lra].
    + destruct Htiers as [[H7 ->] | [(H6 & H7 & -> & ->) | (H6 & -> & ->)]]; simpl.
      * split; [discriminate | lra].
      * split; [discriminate | lra].
      * split; [intros _; exact H6 | reflexivity].
    + unfold currentPrice_of, by_date_desc.
      set (f := fun price : StockPrice.t =>
                  (StockPrice.companyId price =? Company.id (Prediction.company p))%Z).
      destruct (head_orderBy_desc StockPrice.date f (stockPrice db)) as [Hnone Hsome].
      destruct (head (orderBy_desc StockPrice.date (List.filter f (stockPrice db))))
        as [price|].
      * left. exists price. split; [|reflexivity].
        destruct (Hsome price eq_refl) as (Hin & Hf & Hlatest).
        split; [exact Hin|]. split; [apply Z.eqb_eq, Hf|].
        intros other Hother Hid. apply Hlatest; [exact Hother|].
        subst f. apply Z.eqb_eq, Hid.
      * right. split; [|reflexivity]. intros price Hin.
        pose proof (proj1 Hnone eq_refl price Hin) as Hf. subst f.
        apply Z.eqb_neq, Hf.
Qed.

End Trading.
